(** * stripblankimports: a shallow embedding of main.go

    The program parses one Go file, finds the parenthesised import block by
    scanning tokens (findImportBounds), keeps the comment groups that sit in
    the block (resliceComments), walks import specs and comment groups in
    position order (chooseNext) and merges lines of the position table so
    that no blank line is left between two neighbours
    (squashBlankImportLines).  format puts the stages together.

    The position table is go/token's File, the tokens come from go/scanner,
    the tree from go/parser and the bytes from go/printer.  Of go/token the
    parts that main.go calls are embedded here as the library defines them
    (Line with the [//line] table that Position consults, MergeLine,
    FileSet.File); scanner, parser and printer stay parameters of format. *)

From stdpp Require Import base list numbers strings sorting.
From Stdlib Require Import ZArith Lia.

Local Open Scope Z_scope.

(** ** Outcomes of a Go call

    A call returns, panics, or (for the loops that the model runs on fuel)
    has not finished within the fuel. *)

Inductive res (A : Type) : Type :=
| Ret (a : A)
| Panic (msg : string)
| OutOfFuel.

Arguments Ret {A} a.
Arguments Panic {A} msg.
Arguments OutOfFuel {A}.

#[export] Instance res_ret : MRet res := @Ret.

#[export] Instance res_bind : MBind res := λ A B k r,
  match r with
  | Ret a => k a
  | Panic m => Panic m
  | OutOfFuel => OutOfFuel
  end.

(** Go's [len] and indexing of a slice: an index outside [0, len) panics. *)

Definition len {A} (l : list A) : Z := Z.of_nat (length l).

Definition index_out_of_range : string := "index out of range".

Definition index {A} (l : list A) (i : Z) : res A :=
  if (0 <=? i) && (i <? len l) then
    match l !! Z.to_nat i with
    | Some a => Ret a
    | None => Panic index_out_of_range
    end
  else Panic index_out_of_range.

(** [l[lo:hi]]: panics unless [0 <= lo <= hi <= len l]. *)
Definition slice {A} (l : list A) (lo hi : Z) : res (list A) :=
  if (0 <=? lo) && (lo <=? hi) && (hi <=? len l) then
    Ret (take (Z.to_nat (hi - lo)) (drop (Z.to_nat lo) l))
  else Panic "slice bounds out of range".

(** ** go/token: positions, files, file sets *)

Module token.

(** [token.Pos] is an int; [NoPos] is 0. *)
Definition Pos := Z.
Definition NoPos : Pos := 0.

(** The tokens findImportBounds can tell apart; the rest of go/token's
    constants are [OTHER] with their number. *)
Inductive Token : Type :=
| ILLEGAL | EOF | COMMENT | IDENT | STRING
| LPAREN | RPAREN | SEMICOLON | PERIOD
| IMPORT | PACKAGE
| OTHER (code : Z).

#[export] Instance Token_eq_dec : EqDecision Token.
Proof. solve_decision. Defined.

(** An entry of the table of [//line] directives: from [Offset] on, the
    source counts as line [Line] (and column [Column], 0 when unknown) of
    another file.  ([Filename] plays no part in what main.go reads and is
    left out, as is the name of the file itself.) *)
Record lineInfo : Type := mkLineInfo {
  li_Offset : Z;
  li_Line : Z;
  li_Column : Z
}.

(** [token.File]: [base] is the Pos of offset 0, [size] the length of the
    source, [lines] the offset of the first byte of every line (so
    [lines !! 0 = Some 0] once the file has been scanned), [infos] what the
    scanner recorded of [//line] directives with [AddLineColumnInfo], by
    ascending offset. *)
Record File : Type := mkFile {
  base : Z;
  size : Z;
  lines : list Z;
  infos : list lineInfo
}.

(** [searchInts(a, x)]: the bisection of go/token,
<<
      i, j := 0, len(a)
      for i < j {
          h := int(uint(i+j) >> 1)
          if a[h] <= x { i = h + 1 } else { j = h }
      }
      return i - 1
>>
    Each round shrinks [j - i], so [length a + 1] rounds are more than it
    runs (see [searchInts_loop_fuel]). *)
Fixpoint searchInts_loop (fuel : nat) (a : list Z) (x i j : Z) : Z :=
  match fuel with
  | O => i - 1
  | S fuel' =>
      if i <? j then
        let h := Z.shiftr (i + j) 1 in
        if nth (Z.to_nat h) a 0 <=? x
        then searchInts_loop fuel' a x (h + 1) j
        else searchInts_loop fuel' a x i h
      else i - 1
  end.

Definition searchInts (a : list Z) (x : Z) : Z :=
  searchInts_loop (S (length a)) a x 0 (len a).

(** [fixOffset]: an offset outside the file is clamped to it. *)
Definition fixOffset (f : File) (offset : Z) : Z :=
  if offset <? 0 then 0
  else if size f <? offset then size f
  else offset.

(** [searchLineInfos(a, x)]: the index of the last entry whose offset is at
    most [x], or -1,
<<
      i, found := slices.BinarySearchFunc(a, x, func(a lineInfo, x int) int {
          return cmp.Compare(a.Offset, x)
      })
      if !found { i-- }
      return i
>>
    where the search is the bisection
<<
      i, j := 0, n
      for i < j {
          h := int(uint(i+j) >> 1)
          if cmp(x[h], target) < 0 { i = h + 1 } else { j = h }
      }
      return i, i < n && cmp(x[i], target) == 0
>>
*)
Fixpoint searchLineInfos_loop (fuel : nat) (a : list lineInfo) (x i j : Z) : Z :=
  match fuel with
  | O => i
  | S fuel' =>
      if i <? j then
        let h := Z.shiftr (i + j) 1 in
        if (default 0 (li_Offset <$> a !! Z.to_nat h)) <? x
        then searchLineInfos_loop fuel' a x (h + 1) j
        else searchLineInfos_loop fuel' a x i h
      else i
  end.

Definition searchLineInfos (a : list lineInfo) (x : Z) : Z :=
  let i := searchLineInfos_loop (S (length a)) a x 0 (len a) in
  let found := (i <? len a) && (default 0 (li_Offset <$> a !! Z.to_nat i) =? x) in
  if found then i else i - 1.

(** [token.Position], without the file name. *)
Record Position : Type := mkPosition {
  Position_Offset : Z;
  Position_Line : Z;
  Position_Column : Z
}.

(** [f.unpack(offset, adjusted)]: the line and the column of an offset,
<<
      if i := searchInts(f.lines, offset); i >= 0 {
          line, column = i+1, offset-f.lines[i]+1
      }
      if adjusted && len(f.infos) > 0 {
          if i := searchLineInfos(f.infos, offset); i >= 0 {
              alt := &f.infos[i]
              if i := searchInts(f.lines, alt.Offset); i >= 0 {
                  d := line - (i + 1)
                  line = alt.Line + d
                  if alt.Column == 0 {
                      column = 0
                  } else if d == 0 {
                      column = alt.Column + (offset - alt.Offset)
                  }
              }
          }
      }
>>
*)
Definition unpack (f : File) (offset : Z) (adjusted : bool) : Z * Z :=
  let i := searchInts (lines f) offset in
  let '(line, column) :=
    if 0 <=? i then (i + 1, offset - nth (Z.to_nat i) (lines f) 0 + 1) else (0, 0) in
  if adjusted && (0 <? len (infos f)) then
    let i := searchLineInfos (infos f) offset in
    if 0 <=? i then
      match infos f !! Z.to_nat i with
      | Some alt =>
          let i := searchInts (lines f) (li_Offset alt) in
          if 0 <=? i then
            let d := line - (i + 1) in
            (li_Line alt + d,
             if li_Column alt =? 0 then 0
             else if d =? 0 then li_Column alt + (offset - li_Offset alt)
             else column)
          else (line, column)
      | None => (line, column)
      end
    else (line, column)
  else (line, column).

(** [f.position(p, adjusted)], [f.PositionFor(p, adjusted)] (the zero
    Position for [NoPos]) and [f.Position(p)]. *)
Definition position (f : File) (p : Pos) (adjusted : bool) : Position :=
  let offset := fixOffset f (p - base f) in
  let '(line, column) := unpack f offset adjusted in
  mkPosition offset line column.

Definition PositionFor (f : File) (p : Pos) (adjusted : bool) : Position :=
  if p =? NoPos then mkPosition 0 0 0 else position f p adjusted.

Definition Position_of (f : File) (p : Pos) : Position := PositionFor f p true.

(** [f.Line(p)]: [f.Position(p).Line], the line number as [//line]
    directives adjust it. *)
Definition Line (f : File) (p : Pos) : Z := Position_Line (Position_of f p).

(** [f.MergeLine(line)]:
<<
      if line < 1 { panic(...) }
      if line >= len(f.lines) { panic(...) }
      copy(f.lines[line:], f.lines[line+1:])
      f.lines = f.lines[:len(f.lines)-1]
>>
    the entry of line [line+1], at index [line], is dropped; [infos] is not
    touched. *)
Definition invalid_line_number : string := "invalid line number".

Definition MergeLine (f : File) (line : Z) : res File :=
  if line <? 1 then Panic invalid_line_number
  else if len (lines f) <=? line then Panic invalid_line_number
  else Ret (mkFile (base f) (size f) (delete (Z.to_nat line) (lines f)) (infos f)).

(** [token.FileSet]: the files in the order they were added, their bases
    ascending.  A [*File] is the index of the file in the set; [nil] is
    [None]. *)
Definition FileSet := list File.

Definition NewFileSet : FileSet := [].

(** [searchFiles(a, x)]: the index of the last file whose base is at most
    [x], or -1. *)
Fixpoint searchFiles (a : list File) (x : Z) : Z :=
  match a with
  | [] => -1
  | f :: a' => if base f <=? x then 1 + searchFiles a' x else -1
  end.

(** [s.File(p)]: the file that holds [p], [nil] for [NoPos] and for a
    position in no file. *)
Definition FileOf (s : FileSet) (p : Pos) : option nat :=
  if p =? NoPos then None
  else
    let i := searchFiles s p in
    if 0 <=? i then
      match s !! Z.to_nat i with
      | Some f => if p <=? base f + size f then Some (Z.to_nat i) else None
      | None => None
      end
    else None.

End token.

Import token.

(** ** go/ast: what main.go reads of the tree

    An import spec and a comment group are used through [Pos()] and [End()]
    only; [ast.Node] is the interface with these two methods. *)

Module ast.

Record ImportSpec : Type := mkImportSpec {
  ImportSpec_Pos : Pos;
  ImportSpec_End : Pos
}.

Record CommentGroup : Type := mkCommentGroup {
  CommentGroup_Pos : Pos;
  CommentGroup_End : Pos
}.

(** A value of interface type [ast.Node]: its dynamic type is one of the
    two that chooseNext stores in it. *)
Inductive Node : Type :=
| ImportNode (i : ImportSpec)
| CommentNode (c : CommentGroup).

Definition Node_Pos (n : Node) : Pos :=
  match n with
  | ImportNode i => ImportSpec_Pos i
  | CommentNode c => CommentGroup_Pos c
  end.

Definition Node_End (n : Node) : Pos :=
  match n with
  | ImportNode i => ImportSpec_End i
  | CommentNode c => CommentGroup_End c
  end.

(** [ast.File]: the two fields format reads. *)
Record AstFile : Type := mkAstFile {
  Imports : list ImportSpec;
  Comments : list CommentGroup
}.

End ast.

Import ast.

(** ** go/scanner: the token stream

    [Scan] hands out the tokens of the source one by one; once they are
    used up every further call returns [EOF] at the end of the file. *)

Module scanner.

Record Scanner : Type := mkScanner {
  pending : list (Pos * Token);
  eofPos : Pos
}.

Definition Scan (s : Scanner) : (Pos * Token) * Scanner :=
  match pending s with
  | [] => ((eofPos s, EOF), s)
  | t :: rest => (t, mkScanner rest (eofPos s))
  end.

End scanner.

Import scanner.

(** ** The state a run works on, and the calls it makes

    The file set is the one mutable object of a run.  The log keeps the
    calls on it and the stages format enters, in order. *)

Inductive Call : Type :=
| CallParseFile
| CallFindImportBounds
| CallMergeLine (file : nat) (line : Z)
| CallFprint.

Record World : Type := mkWorld {
  w_fset : FileSet;
  w_log : list Call
}.

Definition nil_dereference : string := "invalid memory address or nil pointer dereference".

(** [currFile.MergeLine(line)] on the file of index [fi] of the set. *)
Definition callMergeLine (fi : nat) (line : Z) (w : World) : res World :=
  match w_fset w !! fi with
  | None => Panic nil_dereference
  | Some f =>
      f' ← MergeLine f line;
      Ret (mkWorld (<[fi := f']> (w_fset w)) (w_log w ++ [CallMergeLine fi line]))
  end.

(** ** main.go *)

(** resliceComments, the scan: [i] is the index of the head of [cm] in the
    slice the loop runs over. *)
Fixpoint resliceComments_loop (posStart posEnd : Pos) (cm : list CommentGroup)
    (i cmLower cmUpper : Z) : Z * Z :=
  match cm with
  | [] => (cmLower, cmUpper)
  | c :: rest =>
      let cmLower :=
        if (cmLower =? -1) && (posStart <? CommentGroup_Pos c) && (CommentGroup_Pos c <? posEnd)
        then i else cmLower in
      let cmUpper :=
        if negb (cmLower =? -1) && (CommentGroup_Pos c <? posEnd)
        then i else cmUpper in
      if posEnd <? CommentGroup_Pos c then (cmLower, cmUpper)
      else resliceComments_loop posStart posEnd rest (i + 1) cmLower cmUpper
  end.

Definition resliceComments (posStart posEnd : Pos) (cm : list CommentGroup)
    : res (list CommentGroup) :=
  let '(cmLower, cmUpper) := resliceComments_loop posStart posEnd cm 0 (-1) (-1) in
  if cmLower =? -1 then Ret []
  else slice cm cmLower (cmUpper + 1).

(** chooseNext: the node chosen and the two indices as the call leaves
    them. *)
Definition chooseNext (imp : list ImportSpec) (cm : list CommentGroup)
    (impIdx cmIdx : Z) (inc : bool) : res (Node * (Z * Z)) :=
  let bump (k : Z) := if inc then k + 1 else k in
  if len imp <=? impIdx then
    c ← index cm cmIdx;
    Ret (CommentNode c, (impIdx, bump cmIdx))
  else if len cm <=? cmIdx then
    i ← index imp impIdx;
    Ret (ImportNode i, (bump impIdx, cmIdx))
  else
    i ← index imp impIdx;
    c ← index cm cmIdx;
    if ImportSpec_Pos i <? CommentGroup_Pos c
    then Ret (ImportNode i, (bump impIdx, cmIdx))
    else Ret (CommentNode c, (impIdx, bump cmIdx)).

Definition files_unequal : string := "files unequal".

(** The inner loop: [n] calls of [currFile.MergeLine(currEndLine)]. *)
Fixpoint mergeLines (n : nat) (fi : nat) (line : Z) (w : World) : res World :=
  match n with
  | O => Ret w
  | S n' => w' ← callMergeLine fi line w; mergeLines n' fi line w'
  end.

(** What one round does with the pair (curr, next). *)
Definition squashPair (curr next : Node) (w : World) : res World :=
  let currEnd := Node_End curr in
  let nextStart := Node_Pos next in
  let currFile := FileOf (w_fset w) currEnd in
  let nextFile := FileOf (w_fset w) nextStart in
  if decide (currFile ≠ nextFile) then Panic files_unequal
  else
    match currFile with
    | None =>
        (* [Line] on a nil [*File] is 0 for [NoPos], with no round of the
           inner loop after it, and dereferences the file otherwise *)
        if (currEnd =? NoPos) && (nextStart =? NoPos) then Ret w
        else Panic nil_dereference
    | Some fi =>
        match w_fset w !! fi with
        | None => Panic nil_dereference
        | Some f =>
            let currEndLine := Line f currEnd in
            let nextStartLine := Line f nextStart in
            mergeLines (Z.to_nat (nextStartLine - currEndLine - 1)) fi currEndLine w
        end
    end.

(** The merge walk of squashBlankImportLines. *)
Fixpoint squash_loop (fuel : nat) (imp : list ImportSpec) (cm : list CommentGroup)
    (impIdx cmIdx : Z) (w : World) : res World :=
  match fuel with
  | O => OutOfFuel
  | S fuel' =>
      if (impIdx <? len imp) || (cmIdx <? len cm) then
        '(curr, (impIdx, cmIdx)) ← chooseNext imp cm impIdx cmIdx true;
        if (impIdx =? len imp) && (cmIdx =? len cm) then Ret w
        else
          '(next, _) ← chooseNext imp cm impIdx cmIdx false;
          w' ← squashPair curr next w;
          squash_loop fuel' imp cm impIdx cmIdx w'
      else Ret w
  end.

Definition squashBlankImportLines (posStart posEnd : Pos)
    (imp : list ImportSpec) (cm : list CommentGroup) (w : World) : res World :=
  if len imp <? 2 then Ret w
  else
    cm ← resliceComments posStart posEnd cm;
    squash_loop (S (length imp + length cm)) imp cm 0 0 w.

Definition non_block_import : string := "non-block import".

(** findImportBounds: the loop has no exit but its two returns. *)
Fixpoint findImportBounds_loop (fuel : nat) (s : Scanner) (found : bool)
    (start end_ : Pos) : res (Pos * Pos * option string) :=
  match fuel with
  | O => OutOfFuel
  | S fuel' =>
      let '((pos, tok), s) := Scan s in
      if found then
        if bool_decide (tok = STRING) && (start =? 0) then
          Ret (start, end_, Some non_block_import)
        else if bool_decide (tok = LPAREN) then
          findImportBounds_loop fuel' s found pos end_
        else if bool_decide (tok = RPAREN) then
          Ret (start, pos, None)
        else findImportBounds_loop fuel' s found start end_
      else
        if bool_decide (tok = IMPORT)
        then findImportBounds_loop fuel' s true start end_
        else findImportBounds_loop fuel' s found start end_
  end.

(** The stages that are not main.go's own: [ParseFile] is go/parser on a
    file set (the set with the parsed file added, the tree, the error),
    [ScanTokens] the tokens go/scanner yields before end of file,
    [Fprint] go/printer (the bytes written, the error).  The scanner of
    findImportBounds runs over the file the parser has filled in; the line
    starts and the [//line] directives it reports are in the table already,
    and [AddLine] and [AddLineColumnInfo] take none that is not beyond the
    last, so scanning leaves the table as it is. *)

Section format.

Variable ParseFile : FileSet → list Byte.byte → FileSet * AstFile * option string.
Variable ScanTokens : File → list Byte.byte → list (Pos * Token).
Variable Fprint : FileSet → AstFile → list Byte.byte * option string.

(** [s.Init(file, content, nil, scanner.ScanComments)] and the scan loop.
    [imp] is not used by the body. *)
Definition findImportBounds (fuel : nat) (file : option File)
    (content : list Byte.byte) (imp : list ImportSpec)
    : res (Pos * Pos * option string) :=
  match file with
  | None => Panic nil_dereference
  | Some f =>
      if bool_decide (size f ≠ len content)
      then Panic "file size does not match src len"
      else
        findImportBounds_loop fuel
          (mkScanner (ScanTokens f content) (base f + size f)) false 0 0
  end.

Definition no_multiple_imports : string := "doesn't contain multiple imports".

(** format: the bytes and the error it returns ([None] is Go's nil), and
    the world as the run leaves it. *)
Definition format (fuel : nat) (content : list Byte.byte)
    : res ((option (list Byte.byte) * option string) * World) :=
  let fset := NewFileSet in
  let '(fset, file, err) := ParseFile fset content in
  let w := mkWorld fset [CallParseFile] in
  match err with
  | Some e => Ret ((None, Some e), w)
  | None =>
      if len (Imports file) <=? 1 then
        Ret ((None, Some no_multiple_imports), w)
      else
        let w := mkWorld (w_fset w) (w_log w ++ [CallFindImportBounds]) in
        '(impStart, impEnd, err) ←
          findImportBounds fuel (fi ← FileOf fset 1; fset !! fi) content (Imports file);
        match err with
        | Some e => Ret ((None, Some e), w)
        | None =>
            w ← squashBlankImportLines impStart impEnd (Imports file) (Comments file) w;
            let w := mkWorld (w_fset w) (w_log w ++ [CallFprint]) in
            let '(buf, err) := Fprint (w_fset w) file in
            match err with
            | Some e => Ret ((None, Some e), w)
            | None => Ret ((Some buf, None), w)
            end
        end
  end.

End format.

(** ** The drivers: files, standard output, the log, goimports

    What main.go does outside itself goes through the operating system:
    [os.ReadFile], [os.WriteFile], [os.Create] with [Write] and [Close] on
    the file it opens, [cmd.Run] of goimports, [fmt.Fprint] on standard
    output and [log.Printf].  The state of the machine ([Sys]) and what
    these calls answer are parameters; a run keeps the calls it makes, in
    order, in a trace. *)

(** A [[]byte] that may be nil: [None] is the nil slice. *)
Definition byteSlice : Type := option (list Byte.byte).

(** [string(b)], and the bytes a reader or a writer sees of [b]. *)
Definition bytesOf (b : byteSlice) : list Byte.byte := default [] b.

Inductive Effect : Type :=
| EvReadFile (name : string)
| EvWriteFile (name : string) (data : list Byte.byte)
| EvCreate (name : string)
| EvWrite (name : string) (data : list Byte.byte)
| EvClose (name : string)
| EvRun (path : string) (args : list string) (stdin : option (list Byte.byte))
| EvStdout (text : list Byte.byte)
| EvLog (msg : string).

Record Machine (Sys : Type) : Type := mkMachine {
  m_sys : Sys;
  m_trace : list Effect
}.

Arguments mkMachine {Sys} m_sys m_trace.
Arguments m_sys {Sys} m.
Arguments m_trace {Sys} m.

Section drivers.

Context {Sys : Type}.

(** The answers of the operating system: the data and the error of
    [os.ReadFile]; the error of [os.WriteFile], of [os.Create], of [Write] on
    the created file; the output and the error of [cmd.Run] (the output is
    nil when the command wrote nothing).  All but [os.ReadFile] may change
    the machine. *)
Variable os_ReadFile : Sys → string → byteSlice * option string.
Variable os_WriteFile : Sys → string → list Byte.byte → Sys * option string.
Variable os_Create : Sys → string → Sys * option string.
Variable File_Write : Sys → string → list Byte.byte → Sys * option string.
Variable File_Close : Sys → string → Sys.
Variable Cmd_Run :
  Sys → string → list string → option (list Byte.byte) → Sys * byteSlice * option string.

Variable ParseFile : FileSet → list Byte.byte → FileSet * AstFile * option string.
Variable ScanTokens : File → list Byte.byte → list (Pos * Token).
Variable Fprint : FileSet → AstFile → list Byte.byte * option string.

(** [type xformFn func([]byte) ([]byte, error)], on a machine. *)
Definition xformFn : Type :=
  byteSlice → Machine Sys → res ((byteSlice * option string) * Machine Sys).

(** The call made, added to the trace. *)
Definition emit (e : Effect) (m : Machine Sys) : Machine Sys :=
  mkMachine (m_sys m) (m_trace m ++ [e]).

(** [log.Printf(...)] under [if verbose]. *)
Definition logIf (verbose : bool) (msg : string) (m : Machine Sys) : Machine Sys :=
  if verbose then emit (EvLog msg) m else m.

(** format as an [xformFn]: its file set is its own, the machine is not
    touched. *)
Definition formatXform (fuel : nat) : xformFn := λ content m,
  '(r, _) ← format ParseFile ScanTokens Fprint fuel (bytesOf content);
  Ret (r, m).

(** stitchXform: the closure it returns. *)
Fixpoint stitchXform (fns : list xformFn) : xformFn := λ content m,
  match fns with
  | [] => Ret ((content, None), m)
  | fn :: fns' =>
      '((contentOut, err), m) ← fn content m;
      match err with
      | Some e => Ret ((content, Some e), m)
      | None => stitchXform fns' contentOut m
      end
  end.

(** goImportsWriteBack: [cmd.Run] with no standard input. *)
Definition goImportsWriteBack (local goimportsPath : string) (fname : list string)
    (m : Machine Sys) : option string * Machine Sys :=
  let args := ["-local"; local; "-w"] ++ fname in
  let '(sys, _, err) := Cmd_Run (m_sys m) goimportsPath args None in
  let m := mkMachine sys (m_trace m ++ [EvRun goimportsPath args None]) in
  match err with
  | Some e => (Some ("goimports: " +:+ e), m)
  | None => (None, m)
  end.

(** goImportsStdIO: the closure it returns. *)
Definition goImportsStdIO (local goimportsPath : string) : xformFn := λ content m,
  let args := ["-local"; local] in
  let stdin := Some (bytesOf content) in
  let '(sys, out, err) := Cmd_Run (m_sys m) goimportsPath args stdin in
  let m := mkMachine sys (m_trace m ++ [EvRun goimportsPath args stdin]) in
  match err with
  | Some e => Ret ((None, Some ("goimports: " +:+ e)), m)
  | None => Ret ((out, None), m)
  end.

(** stdOutDriver: the loop over the file names. *)
Fixpoint stdOutDriver (filenames : list string) (xform : xformFn) (verbose : bool)
    (m : Machine Sys) : res (Machine Sys) :=
  match filenames with
  | [] => Ret m
  | filename :: filenames' =>
      let '(content, err) := os_ReadFile (m_sys m) filename in
      let m := emit (EvReadFile filename) m in
      match err with
      | Some e =>
          let m := logIf verbose ("error reading file " +:+ filename +:+ ": " +:+ e) m in
          stdOutDriver filenames' xform verbose m
      | None =>
          '((contentOut, err), m) ← xform content m;
          let m :=
            match err with
            | Some e =>
                logIf verbose ("error processing file " +:+ filename +:+ ": " +:+ e) m
            | None => m
            end in
          if bool_decide (is_Some err ∧ contentOut = None) then
            stdOutDriver filenames' xform verbose m
          else
            let m := emit (EvStdout (bytesOf contentOut)) m in
            stdOutDriver filenames' xform verbose m
      end
  end.

(** writeBackDriver: the loop over the file names. *)
Fixpoint writeBackDriver_loop (filenames : list string) (xform : xformFn) (verbose : bool)
    (m : Machine Sys) : res (Machine Sys) :=
  match filenames with
  | [] => Ret m
  | filename :: filenames' =>
      let '(content, err) := os_ReadFile (m_sys m) filename in
      let m := emit (EvReadFile filename) m in
      match err with
      | Some e =>
          let m := logIf verbose ("error reading file " +:+ filename +:+ ": " +:+ e) m in
          writeBackDriver_loop filenames' xform verbose m
      | None =>
          '((contentOut, err), m) ← xform content m;
          let m :=
            match err with
            | Some e =>
                logIf verbose ("error processing file " +:+ filename +:+ ": " +:+ e) m
            | None => m
            end in
          if bool_decide (is_Some err ∧ contentOut = None) then
            writeBackDriver_loop filenames' xform verbose m
          else
            let '(sys, err) := os_WriteFile (m_sys m) filename (bytesOf contentOut) in
            let m := mkMachine sys (m_trace m ++ [EvWriteFile filename (bytesOf contentOut)]) in
            let m :=
              match err with
              | Some e => logIf verbose ("error writing file " +:+ filename +:+ ": " +:+ e) m
              | None => m
              end in
            writeBackDriver_loop filenames' xform verbose m
      end
  end.

Definition writeBackDriver (filenames : list string) (xform : xformFn)
    (local goimportsPath : string) (verbose : bool) (m : Machine Sys)
    : res (Machine Sys) :=
  m ← writeBackDriver_loop filenames xform verbose m;
  let '(err, m) := goImportsWriteBack local goimportsPath filenames m in
  match err with
  | Some e => Ret (logIf verbose ("goimports error: " +:+ e) m)
  | None => Ret m
  end.

(** fileIO: the error it returns.  The deferred [Close] runs on both returns
    that follow [os.Create]. *)
Definition fileIO (filename : string) (xform : xformFn) (m : Machine Sys)
    : res (option string * Machine Sys) :=
  let '(content, err) := os_ReadFile (m_sys m) filename in
  let m := emit (EvReadFile filename) m in
  match err with
  | Some e => Ret (Some ("read file: " +:+ e), m)
  | None =>
      '((out, err), m) ← xform content m;
      match err with
      | Some e => Ret (Some ("formatting: " +:+ e), m)
      | None =>
          let '(sys, err) := os_Create (m_sys m) filename in
          let m := mkMachine sys (m_trace m ++ [EvCreate filename]) in
          match err with
          | Some e => Ret (Some ("truncate file: " +:+ e), m)
          | None =>
              let '(sys, err) := File_Write (m_sys m) filename (bytesOf out) in
              let m := mkMachine sys (m_trace m ++ [EvWrite filename (bytesOf out)]) in
              let m := mkMachine (File_Close (m_sys m) filename)
                                 (m_trace m ++ [EvClose filename]) in
              match err with
              | Some e => Ret (Some ("write file: " +:+ e), m)
              | None => Ret (None, m)
              end
          end
      end
  end.

(** main, from the parsed flags on: [-local], [-v], [-w], [-p] and the
    remaining arguments. *)
Definition main (fuel : nat) (local : string) (verbose writeBack : bool)
    (goimportsPath : string) (filenames : list string) (m : Machine Sys)
    : res (Machine Sys) :=
  if writeBack then
    writeBackDriver filenames (formatXform fuel) local goimportsPath verbose m
  else
    stdOutDriver filenames
      (stitchXform [formatXform fuel; goImportsStdIO local goimportsPath]) verbose m.

End drivers.

(** ** The test's comparison: bytesEqual *)

#[export] Instance byte_eq_decision : EqDecision Byte.byte := Byte.byte_eq_dec.

(** The loop of bytesEqual from index [i] on, for [n] more rounds. *)
Fixpoint bytesEqual_loop (n : nat) (a b : list Byte.byte) (i : Z) : res bool :=
  match n with
  | O => Ret true
  | S n' =>
      x ← index a i;
      y ← index b i;
      if bool_decide (x ≠ y) then Ret false
      else bytesEqual_loop n' a b (i + 1)
  end.

Definition bytesEqual (a b : list Byte.byte) : res bool :=
  if bool_decide (len a ≠ len b) then Ret false
  else bytesEqual_loop (length a) a b 0.

(** * The vocabulary of the statements

    What the theorems below are stated with: the line table read as a list
    of line starts, the files and the members a run may be given, the merge
    walk as a list of neighbours, and what the rounds of the walk leave. *)

(** The number of lines that start at or before offset [x]. *)
Definition lines_upto (a : list Z) (x : Z) : nat :=
  length (filter (λ v, v ≤ x) a).

(** The table with the [n] entries from index [k] on taken out: what [n]
    merges at line [k] leave. *)
Definition squeeze (a : list Z) (k n : nat) : list Z :=
  take k a ++ drop (k + n) a.

(** A position of the file: between its base and its end. *)
Definition in_file (f : File) (p : Pos) : Prop :=
  base f ≤ p ≤ base f + size f.

(** A table as go/token keeps it: the bases start at 1, line 1 starts at
    offset 0, the line starts ascend. *)
Record file_ok (f : File) : Prop := mk_file_ok {
  file_ok_base : 0 < base f;
  file_ok_head : head (lines f) = Some 0;
  file_ok_sorted : StronglySorted Z.lt (lines f)
}.

(** The table of a source without [//line] directives: nothing adjusts
    the line numbers [Line] reports. *)
Definition plain_file (f : File) : Prop := file_ok f ∧ infos f = [].

(** A node, an import spec, a comment group of the file: both its ends are
    positions of the file. *)
Definition node_in_file (f : File) (m : Node) : Prop :=
  in_file f (Node_Pos m) ∧ in_file f (Node_End m).

Definition import_in_file (f : File) (i : ImportSpec) : Prop :=
  in_file f (ImportSpec_Pos i) ∧ in_file f (ImportSpec_End i).

Definition comment_in_file (f : File) (c : CommentGroup) : Prop :=
  in_file f (CommentGroup_Pos c) ∧ in_file f (CommentGroup_End c).

(** The difference of line numbers the loop looks at. *)
Definition pair_gap (f : File) (curr next : Node) : Z :=
  Line f (Node_Pos next) - Line f (Node_End curr).

(** The number of rounds of the inner loop. *)
Definition pair_merges (f : File) (curr next : Node) : nat :=
  Z.to_nat (pair_gap f curr next - 1).

(** The file after the inner loop. *)
Definition squashPair_file (f : File) (curr next : Node) : File :=
  mkFile (base f) (size f)
    (squeeze (lines f) (Z.to_nat (Line f (Node_End curr))) (pair_merges f curr next)) (infos f).

(** The order in which the walk meets the nodes: the head with the earlier
    [Pos()] first, the comment group when the two are equal. *)
Fixpoint walk (imp : list ImportSpec) (cm : list CommentGroup) : list Node :=
  match imp with
  | [] => CommentNode <$> cm
  | i :: imp' =>
      (fix walk_cm (cm : list CommentGroup) : list Node :=
         match cm with
         | [] => ImportNode <$> (i :: imp')
         | c :: cm' =>
             if decide (ImportSpec_Pos i < CommentGroup_Pos c)
             then ImportNode i :: walk imp' (c :: cm')
             else CommentNode c :: walk_cm cm'
         end) cm
  end.

(** The neighbours of a list, in order. *)
Fixpoint neighbours (ms : list Node) : list (Node * Node) :=
  match ms with
  | curr :: (next :: _) as rest => (curr, next) :: neighbours rest
  | _ => []
  end.

(** The rounds of the loop over a list of nodes. *)
Fixpoint squash_pairs (ms : list Node) (w : World) : res World :=
  match ms with
  | curr :: (next :: _) as rest =>
      w' ← squashPair curr next w; squash_pairs rest w'
  | _ => Ret w
  end.

(** A comment group whose start lies strictly between the bounds. *)
Definition in_block (posStart posEnd : Pos) (c : CommentGroup) : Prop :=
  posStart < CommentGroup_Pos c < posEnd.

#[export] Instance in_block_dec posStart posEnd c : Decision (in_block posStart posEnd c).
Proof. unfold in_block. apply _. Defined.

(** The comment list as go/parser keeps it: ascending by position. *)
Definition pos_ascending (cm : list CommentGroup) : Prop :=
  StronglySorted (λ c c', CommentGroup_Pos c ≤ CommentGroup_Pos c') cm.

(** The file after the rounds over [ms]. *)
Fixpoint squash_file (ms : list Node) (f : File) : File :=
  match ms with
  | curr :: (next :: _) as rest => squash_file rest (squashPair_file f curr next)
  | _ => f
  end.

(** The calls of the rounds over [ms], in order. *)
Fixpoint squash_calls (ms : list Node) (f : File) : list Call :=
  match ms with
  | curr :: (next :: _) as rest =>
      repeat (CallMergeLine 0 (Line f (Node_End curr))) (pair_merges f curr next)
        ++ squash_calls rest (squashPair_file f curr next)
  | _ => []
  end.

(** Spans that do not overlap, in ascending order: no node ends before it
    starts, and every node ends before any later one starts. *)
Definition spans_ascending (ms : list Node) : Prop :=
  Forall (λ m, Node_Pos m ≤ Node_End m) ms ∧
  StronglySorted (λ m m', Node_End m ≤ Node_Pos m') ms.

(** The calls of one round, given the file the round starts from ([f]) and
    the file the line of [curr]'s end is read in ([f']). *)
Definition pair_calls (f f' : File) (pr : Node * Node) : list Call :=
  repeat (CallMergeLine 0 (Line f' (Node_End pr.1)))
         (Z.to_nat (pair_gap f pr.1 pr.2 - 1)).

(** Import specs and comment groups as a parsed file has them: each has a
    span of at least one byte, each list is in source order with spans that
    do not overlap, and no comment group overlaps an import spec. *)
Record spans_ok (imp : list ImportSpec) (cm : list CommentGroup) : Prop := mk_spans_ok {
  imp_span : Forall (λ i, ImportSpec_Pos i < ImportSpec_End i) imp;
  cm_span : Forall (λ c, CommentGroup_Pos c < CommentGroup_End c) cm;
  imp_ascending : StronglySorted (λ i i', ImportSpec_End i ≤ ImportSpec_Pos i') imp;
  cm_ascending : StronglySorted (λ c c', CommentGroup_End c ≤ CommentGroup_Pos c') cm;
  no_overlap :
    Forall (λ i, Forall (λ c, ImportSpec_End i ≤ CommentGroup_Pos c ∨
                              CommentGroup_End c ≤ ImportSpec_Pos i) cm) imp
}.

(** A line start at or before the open paren, or at or after the close
    paren. *)
Definition outside_block (f : File) (posStart posEnd : Pos) (v : Z) : Prop :=
  v ≤ posStart - base f ∨ posEnd - base f ≤ v.

#[export] Instance outside_block_dec f posStart posEnd v :
  Decision (outside_block f posStart posEnd v).
Proof. unfold outside_block. apply _. Defined.

(** From the state ([found], [start]) the tokens [toks] trigger neither of
    the two returns. *)
Fixpoint no_return (start : Pos) (toks : list (Pos * Token)) : Prop :=
  match toks with
  | [] => True
  | (pos, tok) :: rest =>
      tok ≠ RPAREN ∧ ¬ (tok = STRING ∧ start = 0) ∧
      no_return (if decide (tok = LPAREN) then pos else start) rest
  end.

(** The open paren the loop has in [start] after the tokens [toks]: the
    position of the last one it has seen, [start] when it has seen none. *)
Fixpoint start_after (start : Pos) (toks : list (Pos * Token)) : Pos :=
  match toks with
  | [] => start
  | (pos, tok) :: rest => start_after (if decide (tok = LPAREN) then pos else start) rest
  end.

(** A sample file, with 1 as its base:
<<
      package p            line 1, offsets  0 ..  9
      import (             line 2, offsets 10 .. 18, the paren at 17
      <tab>"a"             line 3, offsets 19 .. 23
                           line 4, offset  24
                           line 5, offset  25
      <tab>// c            line 6, offsets 26 .. 31
                           line 7, offset  32
      <tab>"b"             line 8, offsets 33 .. 37
      )                    line 9, offsets 38 .. 39
>>
*)
Definition sample_file : File := mkFile 1 40 [0; 10; 19; 24; 25; 26; 32; 33; 38] [].
Definition sample_imports : list ImportSpec := [mkImportSpec 21 24; mkImportSpec 35 38].
Definition sample_comments : list CommentGroup := [mkCommentGroup 28 32].

(** A sample file with neighbours on adjacent lines and a comment group of
    two lines, with 1 as its base:
<<
      package p            line  1, offsets  0 ..  9
      import (             line  2, offsets 10 .. 18, the paren at 17
      <tab>"a"             line  3, offsets 19 .. 23
      <tab>// c            line  4, offsets 24 .. 29
                           line  5, offset  30
      <tab>// d            line  6, offsets 31 .. 36
      <tab>// e            line  7, offsets 37 .. 42
                           line  8, offset  43
                           line  9, offset  44
      <tab>"b"             line 10, offsets 45 .. 49
      )                    line 11, offsets 50 .. 51
>>
    The comment on line 4 is one group, those on lines 6 and 7 another. *)
Definition mixed_file : File :=
  mkFile 1 52 [0; 10; 19; 24; 30; 31; 37; 43; 44; 45; 50] [].
Definition mixed_imports : list ImportSpec := [mkImportSpec 21 24; mkImportSpec 47 50].
Definition mixed_comments : list CommentGroup :=
  [mkCommentGroup 26 30; mkCommentGroup 33 43].

(** A sample file with a [//line] directive in the import block, with 1 as
    its base:
<<
      package p            line 1, offsets  0 ..  9
      import (             line 2, offsets 10 .. 18, the paren at 17
      <tab>"a"             line 3, offsets 19 .. 23
      //line x.go:100      line 4, offsets 24 .. 39
      <tab>"b"             line 5, offsets 40 .. 44
      )                    line 6, offsets 45 .. 46
>>
    The scanner records the directive with [AddLineColumnInfo] for the
    offset after the comment: from offset 40 on the source counts as line
    100 of x.go, the column unknown.  The directive is a comment group of
    the tree like any other comment. *)
Definition directive_file : File :=
  mkFile 1 47 [0; 10; 19; 24; 40; 45] [mkLineInfo 40 100 0].
Definition directive_imports : list ImportSpec := [mkImportSpec 21 24; mkImportSpec 42 45].
Definition directive_comments : list CommentGroup := [mkCommentGroup 25 40].

(** The import specs and the comment groups of a list of nodes, in the
    order of the list. *)
Definition imports_of (ms : list Node) : list ImportSpec :=
  omap (λ m, match m with ImportNode i => Some i | CommentNode _ => None end) ms.

Definition comments_of (ms : list Node) : list CommentGroup :=
  omap (λ m, match m with CommentNode c => Some c | ImportNode _ => None end) ms.

(** A call of [log.Printf] in a trace. *)
Definition is_log (e : Effect) : Prop :=
  match e with EvLog _ => True | _ => False end.

#[export] Instance is_log_dec e : Decision (is_log e).
Proof. destruct e; simpl; apply _. Defined.

(** The trace without the log. *)
Definition unlogged (t : list Effect) : list Effect :=
  filter (λ e, ¬ is_log e) t.

(** Two machines in the same state whose traces differ in the log only. *)
Definition same_but_log {Sys} (m1 m2 : Machine Sys) : Prop :=
  m_sys m1 = m_sys m2 ∧ unlogged (m_trace m1) = unlogged (m_trace m2).

(** Two outcomes that are the same but for the log. *)
Definition res_same_but_log {Sys} (r1 r2 : res (Machine Sys)) : Prop :=
  match r1, r2 with
  | Ret m1, Ret m2 => same_but_log m1 m2
  | Panic msg1, Panic msg2 => msg1 = msg2
  | OutOfFuel, OutOfFuel => True
  | _, _ => False
  end.

(** What a run without [-w] may add to the trace: reads of the files named,
    runs of goimports on standard input with [-local local], prints and log
    lines. *)
Definition stdout_mode_event (goimportsPath local : string) (filenames : list string)
    (e : Effect) : Prop :=
  match e with
  | EvReadFile name => name ∈ filenames
  | EvRun path args stdin =>
      path = goimportsPath ∧ args = ["-local"; local] ∧ is_Some stdin
  | EvStdout _ | EvLog _ => True
  | _ => False
  end.

(** What the loop of a run with [-w] may add to the trace: reads and writes
    of the files named and log lines, where what is written satisfies
    [written]. *)
Definition write_mode_event (written : list Byte.byte → Prop)
    (filenames : list string) (e : Effect) : Prop :=
  match e with
  | EvReadFile name => name ∈ filenames
  | EvWriteFile name data => name ∈ filenames ∧ written data
  | EvLog _ => True
  | _ => False
  end.

(** Two outcomes of a transformation that are the same but for the log. *)
Definition xres_same_but_log {Sys}
    (r1 r2 : res ((byteSlice * option string) * Machine Sys)) : Prop :=
  match r1, r2 with
  | Ret (o1, m1), Ret (o2, m2) => o1 = o2 ∧ same_but_log m1 m2
  | Panic msg1, Panic msg2 => msg1 = msg2
  | OutOfFuel, OutOfFuel => True
  | _, _ => False
  end.

(** A transformation that neither reads the log nor writes to it. *)
Definition log_blind {Sys} (xform : @xformFn Sys) : Prop :=
  ∀ content m1 m2, same_but_log m1 m2 →
    xres_same_but_log (xform content m1) (xform content m2).

(** The names of the files a trace reads, in order. *)
Definition reads_of (t : list Effect) : list string :=
  omap (λ e, match e with EvReadFile name => Some name | _ => None end) t.

(** A small machine for the examples: the files are an association list
    from names to contents, [a.go] has an import block with a blank line and
    [b.go] has no import. *)
Definition demo_a : list Byte.byte := String.list_byte_of_string "package p
import (
	`a`

	`b`
)
".

Definition demo_a_squashed : list Byte.byte := String.list_byte_of_string "package p
import (
	`a`
	`b`
)
".

Definition demo_b : list Byte.byte := String.list_byte_of_string "package q
".

Definition demo_Sys : Type := list (string * list Byte.byte).

Definition demo_files : demo_Sys := [("a.go", demo_a); ("b.go", demo_b)].

Definition demo_ReadFile (sys : demo_Sys) (name : string) : byteSlice * option string :=
  match list_find (λ p, p.1 = name) sys with
  | Some (_, (_, data)) => (Some data, None)
  | None => (None, Some ("open " +:+ name +:+ ": no such file or directory"))
  end.

Definition demo_WriteFile (sys : demo_Sys) (name : string) (data : list Byte.byte)
    : demo_Sys * option string :=
  ((name, data) :: filter (λ p, p.1 ≠ name) sys, None).

(** A goimports that is not installed. *)
Definition demo_Run (sys : demo_Sys) (path : string) (args : list string)
    (stdin : option (list Byte.byte)) : demo_Sys * byteSlice * option string :=
  (sys, None, Some ("exec: " +:+ path +:+ ": executable file not found in $PATH")).

Definition demo_ParseFile (fset : FileSet) (content : list Byte.byte)
    : FileSet * AstFile * option string :=
  if decide (content = demo_a) then
    ([mkFile 1 32 [0; 10; 19; 24; 25; 30] []],
     mkAstFile [mkImportSpec 21 24; mkImportSpec 27 30] [], None)
  else
    ([mkFile 1 (len content) [0] []], mkAstFile [] [], None).

Definition demo_ScanTokens (f : File) (content : list Byte.byte) : list (Pos * Token) :=
  [(1, PACKAGE); (9, IDENT); (10, SEMICOLON); (11, IMPORT); (18, LPAREN);
   (21, STRING); (24, SEMICOLON); (27, STRING); (30, SEMICOLON); (31, RPAREN);
   (32, SEMICOLON)].

Definition demo_Fprint (fset : FileSet) (file : AstFile) : list Byte.byte * option string :=
  (demo_a_squashed, None).

Definition demo_machine : Machine demo_Sys := mkMachine demo_files [].

Definition demo_main :=
  main demo_ReadFile demo_WriteFile demo_Run demo_ParseFile demo_ScanTokens demo_Fprint.

(** * Lemmas and theorems *)

Lemma res_bind_Ret {A B} (a : A) (k : A → res B) : (Ret a ≫= k) = k a.
Proof. done. Qed.

(** ** Facts about the line table *)

Section line_table.

Implicit Types (a : list Z) (x v : Z) (k n : nat).

Lemma lines_upto_cons a v x :
  lines_upto (v :: a) x = ((if decide (v ≤ x)%Z then 1 else 0) + lines_upto a x)%nat.
Proof.
  unfold lines_upto. rewrite filter_cons. by destruct (decide (v ≤ x)).
Qed.

Lemma lines_upto_app a1 a2 x :
  lines_upto (a1 ++ a2) x = (lines_upto a1 x + lines_upto a2 x)%nat.
Proof. unfold lines_upto. by rewrite filter_app, length_app. Qed.

Lemma lines_upto_le_length a x : (lines_upto a x ≤ length a)%nat.
Proof. apply length_filter. Qed.

Lemma lines_upto_above a x : Forall (λ v, x < v) a → lines_upto a x = 0%nat.
Proof.
  induction 1 as [|v a Hv _ IH]; [done|].
  rewrite lines_upto_cons, IH. destruct (decide (v ≤ x)); lia.
Qed.

Lemma lines_upto_mono a x y : x ≤ y → (lines_upto a x ≤ lines_upto a y)%nat.
Proof.
  intros Hxy. induction a as [|v a IH]; [done|].
  rewrite !lines_upto_cons.
  destruct (decide (v ≤ x)), (decide (v ≤ y)); lia.
Qed.

Lemma lines_upto_head a x :
  StronglySorted Z.lt a → head a = Some 0 → 0 ≤ x → (1 ≤ lines_upto a x)%nat.
Proof.
  intros _ Hhd Hx. destruct a as [|v a]; simplify_eq/=.
  rewrite lines_upto_cons. destruct (decide (0 ≤ x)); lia.
Qed.

(** In a sorted table the lines that start at or before [x] are a prefix. *)
Lemma nth_le_lines_upto a x k :
  StronglySorted Z.lt a → (k < length a)%nat →
  nth k a 0 ≤ x ↔ (k < lines_upto a x)%nat.
Proof.
  intros Hs. revert k. induction Hs as [|v a Hs IH Hall]; intros k Hk; simpl in *; [lia|].
  rewrite lines_upto_cons. destruct (decide (v ≤ x)) as [Hv|Hv].
  - destruct k as [|k]; [lia|]. rewrite IH by lia. lia.
  - assert (Forall (λ u, x < u) a) as Hab.
    { eapply Forall_impl; [exact Hall|]. simpl. lia. }
    rewrite (lines_upto_above _ _ Hab).
    destruct k as [|k]; [lia|].
    split; [|lia]. intros Hn.
    assert (x < nth k a 0); [|lia].
    rewrite Forall_forall in Hab. apply Hab.
    apply list_elem_of_In, nth_In. lia.
Qed.

Lemma lines_upto_take a x k :
  StronglySorted Z.lt a → lines_upto (take k a) x = (k `min` lines_upto a x)%nat.
Proof.
  intros Hs. revert k. induction Hs as [|v a Hs IH Hall]; intros k.
  - by rewrite take_nil, Nat.min_0_r.
  - destruct k as [|k]; [done|].
    rewrite firstn_cons, !lines_upto_cons, IH.
    destruct (decide (v ≤ x)) as [Hv|Hv]; [lia|].
    rewrite (lines_upto_above a x); [lia|].
    eapply Forall_impl; [exact Hall|]. simpl. lia.
Qed.

Lemma lines_upto_drop a x k :
  StronglySorted Z.lt a →
  lines_upto (drop k a) x = (lines_upto a x - k `min` lines_upto a x)%nat.
Proof.
  intros Hs. pose proof (lines_upto_app (take k a) (drop k a) x) as Happ.
  rewrite take_drop, lines_upto_take in Happ by done. lia.
Qed.

Lemma lines_upto_squeeze a x k n :
  StronglySorted Z.lt a →
  lines_upto (squeeze a k n) x =
    (k `min` lines_upto a x + (lines_upto a x - (k + n) `min` lines_upto a x))%nat.
Proof.
  intros Hs. unfold squeeze.
  by rewrite lines_upto_app, lines_upto_take, lines_upto_drop.
Qed.

Lemma squeeze_0 a k : squeeze a k 0 = a.
Proof. unfold squeeze. by rewrite Nat.add_0_r, take_drop. Qed.

Lemma squeeze_sublist a k n : squeeze a k n `sublist_of` a.
Proof.
  unfold squeeze. rewrite <-(take_drop k a) at 3.
  apply sublist_app; [done|].
  rewrite <-(drop_drop a n k)%nat. apply sublist_drop.
Qed.

Lemma Forall_sublist {A} (P : A → Prop) (a1 a2 : list A) :
  a1 `sublist_of` a2 → Forall P a2 → Forall P a1.
Proof.
  rewrite !Forall_forall. intros Hsub Hall x Hx.
  by eapply Hall, elem_of_sublist.
Qed.

Lemma StronglySorted_sublist {A} (R : relation A) (a1 a2 : list A) :
  a1 `sublist_of` a2 → StronglySorted R a2 → StronglySorted R a1.
Proof.
  induction 1 as [|v a1 a2 Hsub IH|v a1 a2 Hsub IH]; intros Hs; [done|..].
  - apply StronglySorted_inv in Hs as [Hs Hall]. constructor; [by apply IH|].
    rewrite Forall_forall in Hall |- *. intros u Hu. apply Hall.
    by eapply elem_of_sublist.
  - apply StronglySorted_inv in Hs as [Hs _]. by apply IH.
Qed.

Lemma squeeze_sorted a k n :
  StronglySorted Z.lt a → StronglySorted Z.lt (squeeze a k n).
Proof. apply StronglySorted_sublist, squeeze_sublist. Qed.

Lemma squeeze_head a k n : (1 ≤ k)%nat → head (squeeze a k n) = head a.
Proof.
  intros Hk. unfold squeeze. destruct a as [|v a]; simpl.
  - by rewrite take_nil, drop_nil.
  - destruct k; [lia|done].
Qed.

(** One more merge at the same line. *)
Lemma squeeze_delete a k n :
  delete k (squeeze a k n) = squeeze a k (S n).
Proof.
  unfold squeeze.
  destruct (decide (k ≤ length a)%nat) as [Hk|Hk].
  - rewrite delete_take_drop.
    rewrite take_app_length' by (rewrite length_take; lia).
    rewrite drop_app_ge by (rewrite length_take; lia).
    rewrite length_take, drop_drop. do 2 f_equal. lia.
  - rewrite !drop_ge, !app_nil_r by lia.
    rewrite take_ge by lia.
    rewrite delete_take_drop, take_ge, drop_ge by lia. apply app_nil_r.
Qed.

Lemma length_squeeze a k n :
  (k + n ≤ length a)%nat → length (squeeze a k n) = (length a - n)%nat.
Proof.
  intros Hk. unfold squeeze. rewrite length_app, length_take, length_drop. lia.
Qed.

End line_table.

(** ** The bisection and [Line] *)

Section bisection.

Implicit Types (a : list Z) (x i j : Z).

Lemma shiftr_1_between i j :
  i < j → i ≤ Z.shiftr (i + j) 1 < j.
Proof.
  intros Hij. rewrite Z.shiftr_div_pow2 by lia. change (2 ^ 1) with 2.
  Z.div_mod_to_equations. lia.
Qed.

(** The loop has finished once the fuel exceeds [j - i]. *)
Lemma searchInts_loop_fuel a x fuel1 fuel2 i j :
  (Z.to_nat (j - i) < fuel1)%nat → (Z.to_nat (j - i) < fuel2)%nat →
  searchInts_loop fuel1 a x i j = searchInts_loop fuel2 a x i j.
Proof.
  revert fuel2 i j. induction fuel1 as [|fuel1 IH]; intros fuel2 i j H1 H2; [lia|].
  destruct fuel2 as [|fuel2]; [lia|]. simpl.
  destruct (Z.ltb_spec i j) as [Hij|Hij]; [|done].
  pose proof (shiftr_1_between i j Hij) as Hh.
  destruct (_ <=? x); apply IH; lia.
Qed.

Lemma searchInts_loop_sorted a x fuel i j :
  StronglySorted Z.lt a →
  0 ≤ i ≤ Z.of_nat (lines_upto a x) →
  Z.of_nat (lines_upto a x) ≤ j ≤ len a →
  (Z.to_nat (j - i) < fuel)%nat →
  searchInts_loop fuel a x i j = Z.of_nat (lines_upto a x) - 1.
Proof.
  intros Hs. revert i j. induction fuel as [|fuel IH]; intros i j Hi Hj Hfuel; [lia|].
  simpl. destruct (Z.ltb_spec i j) as [Hij|Hij]; [|lia].
  pose proof (shiftr_1_between i j Hij) as Hh.
  set (h := Z.shiftr (i + j) 1) in *.
  unfold len in Hj.
  assert (Z.to_nat h < length a)%nat as Hlen by lia.
  pose proof (nth_le_lines_upto a x (Z.to_nat h) Hs Hlen) as Hnth.
  destruct (Z.leb_spec (nth (Z.to_nat h) a 0) x) as [Hle|Hgt].
  - apply Hnth in Hle. apply IH; unfold len; lia.
  - assert (¬ (Z.to_nat h < lines_upto a x)%nat) by (rewrite <-Hnth; lia).
    apply IH; unfold len; lia.
Qed.

Lemma searchInts_sorted a x :
  StronglySorted Z.lt a → searchInts a x = Z.of_nat (lines_upto a x) - 1.
Proof.
  intros Hs. unfold searchInts. apply searchInts_loop_sorted; [done|..].
  - lia.
  - pose proof (lines_upto_le_length a x). unfold len. lia.
  - unfold len. lia.
Qed.

End bisection.

Lemma fixOffset_in_file f p : in_file f p → fixOffset f (p - base f) = p - base f.
Proof.
  unfold in_file, fixOffset. intros Hp.
  destruct (Z.ltb_spec (p - base f) 0); [lia|].
  destruct (Z.ltb_spec (size f) (p - base f)); [lia|done].
Qed.

(** Without [//line] directives [Line] is the physical line. *)
Lemma Line_no_infos f p :
  infos f = [] →
  Line f p =
    if p =? NoPos then 0
    else
      let i := searchInts (lines f) (fixOffset f (p - base f)) in
      if 0 <=? i then i + 1 else 0.
Proof.
  intros Hni. unfold Line, Position_of, PositionFor.
  destruct (p =? NoPos); [done|].
  unfold position, unpack. rewrite Hni.
  change (true && (0 <? len [])) with false. cbv iota.
  by destruct (0 <=? searchInts (lines f) (fixOffset f (p - base f))).
Qed.

Lemma Line_sorted f p :
  infos f = [] → StronglySorted Z.lt (lines f) → p ≠ NoPos →
  Line f p = Z.of_nat (lines_upto (lines f) (fixOffset f (p - base f))).
Proof.
  intros Hni Hs Hp. rewrite Line_no_infos by done.
  destruct (Z.eqb_spec p NoPos) as [|_]; [done|]. cbv zeta.
  rewrite searchInts_sorted by done.
  destruct (Z.leb_spec 0 (Z.of_nat (lines_upto (lines f) (fixOffset f (p - base f))) - 1)); lia.
Qed.

Lemma Line_in_file f p :
  plain_file f → in_file f p →
  Line f p = Z.of_nat (lines_upto (lines f) (p - base f)).
Proof.
  intros [[Hb Hhd Hs] Hni] Hp.
  rewrite Line_sorted; [|done|done|unfold in_file, NoPos in *; lia].
  by rewrite fixOffset_in_file.
Qed.

Lemma FileOf_single f p :
  0 < base f → in_file f p → FileOf [f] p = Some 0%nat.
Proof.
  unfold in_file, FileOf, NoPos. intros Hb Hp. simpl.
  destruct (Z.eqb_spec p 0); [lia|].
  destruct (Z.leb_spec (base f) p); [|lia]. simpl.
  destruct (Z.leb_spec p (base f + size f)); [done|lia].
Qed.

(** * One pair of neighbours on a one-file set *)

Section one_pair.

Implicit Types (f : File) (a : list Z) (k n m : nat) (log : list Call).

Lemma mergeLines_squeeze b sz a (li : list lineInfo) k n m log :
  (1 ≤ k)%nat → (k + n + m ≤ length a)%nat →
  mergeLines m 0 (Z.of_nat k) (mkWorld [mkFile b sz (squeeze a k n) li] log) =
    Ret (mkWorld [mkFile b sz (squeeze a k (n + m)) li]
           (log ++ repeat (CallMergeLine 0 (Z.of_nat k)) m)).
Proof.
  intros Hk. revert n log. induction m as [|m IH]; intros n log Hlen; simpl.
  - by rewrite Nat.add_0_r, app_nil_r.
  - unfold callMergeLine, MergeLine. simpl.
    destruct (Z.ltb_spec (Z.of_nat k) 1); [lia|].
    unfold len. rewrite length_squeeze by lia.
    destruct (Z.leb_spec (Z.of_nat (length a - n)) (Z.of_nat k)); [lia|].
    simpl. rewrite Nat2Z.id, squeeze_delete.
    rewrite IH by lia. by rewrite <-app_assoc, Nat.add_succ_r.
Qed.

Lemma mergeLines_single f k m log :
  (1 ≤ k)%nat → (k + m ≤ length (lines f))%nat →
  mergeLines m 0 (Z.of_nat k) (mkWorld [f] log) =
    Ret (mkWorld [mkFile (base f) (size f) (squeeze (lines f) k m) (infos f)]
           (log ++ repeat (CallMergeLine 0 (Z.of_nat k)) m)).
Proof.
  intros Hk Hlen. destruct f as [b sz a li]. simpl in *.
  rewrite <-(squeeze_0 a k) at 1. rewrite mergeLines_squeeze; [done|lia..].
Qed.

Lemma Line_ge_1 f p : plain_file f → in_file f p → 1 ≤ Line f p.
Proof.
  intros Hok Hp. rewrite Line_in_file by done.
  destruct Hok as [[Hb Hhd Hs] Hni].
  pose proof (lines_upto_head (lines f) (p - base f) Hs Hhd).
  unfold in_file in Hp. lia.
Qed.

Lemma Line_le_length f p : plain_file f → in_file f p → Line f p ≤ len (lines f).
Proof.
  intros Hok Hp. rewrite Line_in_file by done.
  pose proof (lines_upto_le_length (lines f) (p - base f)). unfold len. lia.
Qed.

Lemma squashPair_single f log curr next :
  plain_file f → in_file f (Node_End curr) → in_file f (Node_Pos next) →
  squashPair curr next (mkWorld [f] log) =
    Ret (mkWorld [squashPair_file f curr next]
           (log ++ repeat (CallMergeLine 0 (Line f (Node_End curr)))
                     (pair_merges f curr next))).
Proof.
  intros Hok Hc Hn. unfold squashPair. simpl.
  rewrite !FileOf_single by (done || apply Hok).
  rewrite decide_False by naive_solver. simpl.
  pose proof (Line_ge_1 f _ Hok Hc) as H1.
  pose proof (Line_le_length f _ Hok Hc) as H2.
  pose proof (Line_le_length f _ Hok Hn) as H3.
  unfold len in *.
  pose proof (mergeLines_single f (Z.to_nat (Line f (Node_End curr)))
                (pair_merges f curr next) log) as Hm.
  rewrite Z2Nat.id in Hm by lia. apply Hm; [lia|].
  unfold pair_merges, pair_gap. lia.
Qed.

Lemma squashPair_plain_file f curr next :
  plain_file f → in_file f (Node_End curr) → plain_file (squashPair_file f curr next).
Proof.
  intros Hok Hc. pose proof (Line_ge_1 f _ Hok Hc).
  destruct Hok as [[Hb Hhd Hs] Hni]. split; [split|done]; simpl; [done|..].
  - rewrite squeeze_head; [done|lia].
  - by apply squeeze_sorted.
Qed.

End one_pair.

(** * The merge walk as a list of neighbours *)

Section merge_walk.

Implicit Types (imp : list ImportSpec) (cm : list CommentGroup) (w : World).

Lemma walk_nil_r imp : walk imp [] = ImportNode <$> imp.
Proof. by destruct imp. Qed.

Lemma walk_cons_cons i imp c cm :
  walk (i :: imp) (c :: cm) =
    if decide (ImportSpec_Pos i < CommentGroup_Pos c)
    then ImportNode i :: walk imp (c :: cm)
    else CommentNode c :: walk (i :: imp) cm.
Proof. done. Qed.

Lemma index_drop {A} (l : list A) (i : Z) :
  0 ≤ i < len l →
  ∃ x, index l i = Ret x ∧ l !! Z.to_nat i = Some x ∧
       drop (Z.to_nat i) l = x :: drop (Z.to_nat (i + 1)) l.
Proof.
  unfold index, len. intros Hi.
  destruct (Z.leb_spec 0 i); [|lia]. destruct (Z.ltb_spec i (Z.of_nat (length l))); [|lia].
  simpl. destruct (l !! Z.to_nat i) as [x|] eqn:Hx.
  - exists x. split_and!; [done..|].
    rewrite Z2Nat.inj_add by lia. rewrite Nat.add_1_r.
    by apply drop_S.
  - apply lookup_ge_None in Hx. lia.
Qed.

Lemma drop_len_nil {A} (l : list A) (i : Z) : len l ≤ i → drop (Z.to_nat i) l = [].
Proof. unfold len. intros Hi. apply drop_ge. lia. Qed.

(** chooseNext returns the head of the walk; with [inc] the indices move
    on to the rest of the walk. *)
Lemma chooseNext_walk imp cm impIdx cmIdx inc :
  0 ≤ impIdx ≤ len imp → 0 ≤ cmIdx ≤ len cm →
  impIdx < len imp ∨ cmIdx < len cm →
  ∃ m impIdx' cmIdx',
    chooseNext imp cm impIdx cmIdx inc =
      Ret (m, if inc then (impIdx', cmIdx') else (impIdx, cmIdx)) ∧
    walk (drop (Z.to_nat impIdx) imp) (drop (Z.to_nat cmIdx) cm) =
      m :: walk (drop (Z.to_nat impIdx') imp) (drop (Z.to_nat cmIdx') cm) ∧
    (m ∈ (ImportNode <$> imp) ∨ m ∈ (CommentNode <$> cm)) ∧
    impIdx ≤ impIdx' ≤ len imp ∧ cmIdx ≤ cmIdx' ≤ len cm ∧
    impIdx' + cmIdx' = impIdx + cmIdx + 1.
Proof.
  intros Hi Hc Hne. unfold chooseNext.
  destruct (Z.leb_spec (len imp) impIdx) as [Hie|Hie].
  - destruct (index_drop cm cmIdx) as (c & -> & Hlk & Hd); [lia|].
    exists (CommentNode c), impIdx, (cmIdx + 1). simpl.
    rewrite drop_len_nil by done. simpl. rewrite Hd.
    split_and!; try lia; [by destruct inc|done|].
    right. apply list_elem_of_fmap. exists c. split; [done|].
    by eapply list_elem_of_lookup_2.
  - destruct (index_drop imp impIdx) as (i & -> & Hlki & Hdi); [lia|].
    destruct (Z.leb_spec (len cm) cmIdx) as [Hce|Hce].
    + exists (ImportNode i), (impIdx + 1), cmIdx. simpl.
      rewrite (drop_len_nil cm) by done. rewrite !walk_nil_r, Hdi.
      split_and!; try lia; [by destruct inc|done|].
      left. apply list_elem_of_fmap. exists i. split; [done|].
      by eapply list_elem_of_lookup_2.
    + destruct (index_drop cm cmIdx) as (c & -> & Hlkc & Hdc); [lia|].
      simpl.
      destruct (Z.ltb_spec (ImportSpec_Pos i) (CommentGroup_Pos c)) as [Hlt|Hge].
      * exists (ImportNode i), (impIdx + 1), cmIdx.
        rewrite Hdi, Hdc, walk_cons_cons, decide_True by done.
        split_and!; try lia; [by destruct inc|done|].
        left. apply list_elem_of_fmap. exists i. split; [done|].
        by eapply list_elem_of_lookup_2.
      * exists (CommentNode c), impIdx, (cmIdx + 1).
        rewrite Hdi, Hdc, walk_cons_cons, decide_False by lia.
        split_and!; try lia; [by destruct inc|done|].
        right. apply list_elem_of_fmap. exists c. split; [done|].
        by eapply list_elem_of_lookup_2.
Qed.

(** The loop visits the neighbours of the walk, one round each, and ends
    within the fuel squashBlankImportLines gives it. *)
Lemma squash_loop_walk fuel imp cm impIdx cmIdx w :
  0 ≤ impIdx ≤ len imp → 0 ≤ cmIdx ≤ len cm →
  len imp - impIdx + (len cm - cmIdx) < Z.of_nat fuel →
  squash_loop fuel imp cm impIdx cmIdx w =
    squash_pairs (walk (drop (Z.to_nat impIdx) imp) (drop (Z.to_nat cmIdx) cm)) w.
Proof.
  revert impIdx cmIdx w.
  induction fuel as [|fuel IH]; intros impIdx cmIdx w Hi Hc Hfuel; [lia|].
  simpl.
  destruct (Z.ltb_spec impIdx (len imp)) as [Hie|Hie];
    destruct (Z.ltb_spec cmIdx (len cm)) as [Hce|Hce]; simpl.
  4: { by rewrite !drop_len_nil by done. }
  all: destruct (chooseNext_walk imp cm impIdx cmIdx true)
         as (m & i1 & c1 & -> & -> & _ & Hi1 & Hc1 & Hsum); [lia..|].
  all: simpl.
  all: destruct (Z.eqb_spec i1 (len imp)) as [Hi1e|Hi1e];
         destruct (Z.eqb_spec c1 (len cm)) as [Hc1e|Hc1e]; simpl.
  all: try (rewrite !drop_len_nil by lia; done).
  all: destruct (chooseNext_walk imp cm i1 c1 false)
         as (m' & i2 & c2 & -> & Hw & _ & _ & _ & _); [lia..|].
  all: simpl; rewrite Hw at 1; simpl.
  all: destruct (squashPair m m' w) as [w'| |]; simpl; [|done..].
  all: rewrite IH by lia; by rewrite Hw.
Qed.

End merge_walk.

(** * resliceComments *)

Section reslice.

Variables posStart posEnd : Pos.

Implicit Types (cm : list CommentGroup) (c : CommentGroup) (i : Z).

Let before_end c : Prop := CommentGroup_Pos c < posEnd.

Lemma ascending_from cm c x :
  pos_ascending (c :: cm) → x ≤ CommentGroup_Pos c →
  Forall (λ c', x ≤ CommentGroup_Pos c') cm.
Proof.
  intros [_ Hall]%StronglySorted_inv Hx.
  eapply Forall_impl; [exact Hall|]. simpl. lia.
Qed.

Lemma filter_nil_Forall {A} (P : A → Prop) `{!∀ x, Decision (P x)} (l : list A) :
  Forall (λ x, ¬ P x) l → filter P l = [].
Proof.
  induction 1 as [|x l Hx _ IH]; [done|].
  by rewrite filter_cons_False.
Qed.

Lemma filter_ext_Forall {A} (P Q : A → Prop)
    `{!∀ x, Decision (P x)} `{!∀ x, Decision (Q x)} (l : list A) :
  Forall (λ x, P x ↔ Q x) l → filter P l = filter Q l.
Proof.
  induction 1 as [|x l Hx _ IH]; [done|].
  destruct (decide (P x)) as [HP|HP].
  - rewrite !filter_cons_True by tauto. by f_equal.
  - by rewrite !filter_cons_False by tauto.
Qed.

(** Once the lower index is set, the upper index follows the groups that
    start before [posEnd]. *)
Lemma resliceComments_loop_found cm i lo up :
  lo ≠ -1 → pos_ascending cm →
  resliceComments_loop posStart posEnd cm i lo up =
    (lo, let k := length (filter before_end cm) in
         if decide (k = 0%nat) then up else i + Z.of_nat k - 1).
Proof.
  intros Hlo Hs. revert i up. induction cm as [|c cm IH]; intros i up; [done|].
  pose proof Hs as [Hs' _]%StronglySorted_inv.
  assert ((lo =? -1) = false) as Hlob by lia.
  simpl. rewrite Hlob. simpl. rewrite Hlob. simpl.
  destruct (Z.ltb_spec (CommentGroup_Pos c) posEnd) as [Hlt|Hge].
  - destruct (Z.ltb_spec posEnd (CommentGroup_Pos c)); [lia|].
    rewrite IH by done. rewrite filter_cons_True by done. simpl.
    f_equal. destruct (decide (length (filter before_end cm) = 0%nat)) as [->|]; lia.
  - assert (filter before_end cm = []) as Hnil.
    { apply filter_nil_Forall.
      eapply Forall_impl; [exact (ascending_from cm c posEnd Hs Hge)|].
      unfold before_end. simpl. lia. }
    rewrite filter_cons_False by (unfold before_end; lia).
    destruct (Z.ltb_spec posEnd (CommentGroup_Pos c)).
    + by rewrite Hnil.
    + by rewrite IH, Hnil.
Qed.

(** The groups that start before [posEnd] are a prefix. *)
Lemma filter_before_end_take cm :
  pos_ascending cm →
  filter before_end cm = take (length (filter before_end cm)) cm.
Proof.
  induction 1 as [|c cm Hs IH Hall]; [done|].
  destruct (decide (before_end c)) as [Hc|Hc].
  - rewrite filter_cons_True by done. simpl. by rewrite <-IH.
  - rewrite filter_cons_False by done.
    rewrite filter_nil_Forall; [done|].
    eapply Forall_impl; [exact Hall|]. unfold before_end in *. simpl. lia.
Qed.

(** The scan from the start: the groups of the block are [n] groups from
    index [j] on, and the two indices say so. *)
Lemma resliceComments_loop_ascending cm i :
  0 ≤ i → pos_ascending cm →
  ∃ j n : nat,
    filter (in_block posStart posEnd) cm = take n (drop j cm) ∧
    (j + n ≤ length cm)%nat ∧
    resliceComments_loop posStart posEnd cm i (-1) (-1) =
      if decide (n = 0%nat) then (-1, -1)
      else (i + Z.of_nat j, i + Z.of_nat j + Z.of_nat n - 1).
Proof.
  intros Hi Hs. revert i Hi. induction Hs as [|c cm Hs IH Hall]; intros i Hi.
  { exists 0%nat, 0%nat. by split_and!. }
  assert (pos_ascending (c :: cm)) as Hs' by by constructor.
  simpl. destruct (decide (in_block posStart posEnd c)) as [Hc|Hc].
  - rewrite filter_cons_True by done.
    destruct Hc as [Hc1 Hc2].
    destruct (Z.ltb_spec posStart (CommentGroup_Pos c)); [|lia].
    destruct (Z.ltb_spec (CommentGroup_Pos c) posEnd); [|lia].
    destruct (Z.ltb_spec posEnd (CommentGroup_Pos c)); [lia|]. simpl.
    destruct (Z.eqb_spec i (-1)); [lia|]. simpl.
    rewrite resliceComments_loop_found by (done || lia).
    exists 0%nat, (S (length (filter before_end cm))). simpl.
    split_and!.
    + f_equal. rewrite <-filter_before_end_take by done.
      apply filter_ext_Forall.
      eapply Forall_impl; [exact Hall|].
      unfold in_block, before_end. simpl. lia.
    + pose proof (length_filter before_end cm). lia.
    + destruct (decide (length (filter before_end cm) = 0%nat)); f_equal; lia.
  - rewrite filter_cons_False by done.
    assert ((posStart <? CommentGroup_Pos c) && (CommentGroup_Pos c <? posEnd) = false) as ->.
    { unfold in_block in Hc.
      destruct (Z.ltb_spec posStart (CommentGroup_Pos c));
        destruct (Z.ltb_spec (CommentGroup_Pos c) posEnd); simpl; lia || done. }
    simpl. destruct (Z.ltb_spec posEnd (CommentGroup_Pos c)) as [Hlt|Hge].
    + exists 0%nat, 0%nat. split_and!; [|simpl; lia|done].
      simpl. apply filter_nil_Forall.
      eapply Forall_impl; [exact Hall|]. unfold in_block. simpl. lia.
    + destruct (IH (i + 1)) as (j & n & Hf & Hlen & ->); [lia|].
      exists (S j), n. simpl. split_and!; [done|lia|].
      destruct (decide (n = 0%nat)); [done|]. f_equal; lia.
Qed.

Lemma resliceComments_ascending cm :
  pos_ascending cm →
  resliceComments posStart posEnd cm = Ret (filter (in_block posStart posEnd) cm).
Proof.
  intros Hs. unfold resliceComments.
  destruct (resliceComments_loop_ascending cm 0) as (j & n & Hf & Hlen & ->); [lia|done|].
  destruct (decide (n = 0%nat)) as [->|Hn].
  - simpl. by rewrite Hf.
  - destruct (Z.eqb_spec (0 + Z.of_nat j) (-1)); [lia|].
    unfold slice, len.
    destruct (Z.leb_spec 0 (0 + Z.of_nat j)); [|lia].
    destruct (Z.leb_spec (0 + Z.of_nat j) (0 + Z.of_nat j + Z.of_nat n - 1 + 1)); [|lia].
    destruct (Z.leb_spec (0 + Z.of_nat j + Z.of_nat n - 1 + 1) (Z.of_nat (length cm))); [|lia].
    simpl. rewrite Hf.
    replace (Z.to_nat (0 + Z.of_nat j + Z.of_nat n - 1 + 1 - (0 + Z.of_nat j))) with n by lia.
    by replace (Z.to_nat (0 + Z.of_nat j)) with j by lia.
Qed.

(** Whatever the order of the list, the result is a run of it. *)
Lemma resliceComments_loop_range cm i lo up :
  0 ≤ i →
  ∃ lo' up',
    resliceComments_loop posStart posEnd cm i lo up = (lo', up') ∧
    (lo ≠ -1 → lo' = lo ∧ (up' = up ∨ i ≤ up' < i + len cm)) ∧
    (lo = -1 → up = -1 → lo' = -1 ∨ (i ≤ lo' ∧ lo' ≤ up' < i + len cm)).
Proof.
  revert i lo up. induction cm as [|c cm IH]; intros i lo up Hi.
  { exists lo, up. simpl. split_and!; [done|intuition lia|intuition lia]. }
  simpl. unfold len. simpl length.
  set (lo1 := if (lo =? -1) && _ && _ then i else lo).
  set (up1 := if negb (lo1 =? -1) && _ then i else up).
  destruct (Z.ltb_spec posEnd (CommentGroup_Pos c)) as [Hbr|Hbr].
  - exists lo1, up1. split; [done|]. subst lo1 up1.
    destruct (Z.eqb_spec lo (-1)); simpl.
    + destruct (Z.ltb_spec (CommentGroup_Pos c) posEnd); [lia|].
      rewrite andb_false_r. subst lo. simpl. split; [done|]. intros _ ->. by left.
    + destruct (Z.eqb_spec lo (-1)); [done|]. simpl.
      destruct (Z.ltb_spec (CommentGroup_Pos c) posEnd); [lia|].
      split; [|done]. intros _. split; [done|]. by left.
  - destruct (IH (i + 1) lo1 up1) as (lo' & up' & -> & HB & HA); [lia|].
    exists lo', up'. split; [done|]. unfold len in *. subst lo1 up1.
    destruct (Z.eqb_spec lo (-1)) as [->|Hlo]; simpl in *.
    + split; [done|]. intros _ ->.
      destruct (Z.ltb_spec posStart (CommentGroup_Pos c));
        destruct (Z.ltb_spec (CommentGroup_Pos c) posEnd); simpl in *.
      * destruct (Z.eqb_spec i (-1)); [lia|]. simpl in *.
        destruct HB as [-> HB]; [lia|]. right. lia.
      * destruct HA as [->|HA]; [done..|by left|right; lia].
      * destruct HA as [->|HA]; [done..|by left|right; lia].
      * destruct HA as [->|HA]; [done..|by left|right; lia].
    + split; [|done]. intros _.
      destruct (Z.eqb_spec lo (-1)); [done|]. simpl in *.
      destruct HB as [-> HB]; [done|]. split; [done|].
      destruct (Z.ltb_spec (CommentGroup_Pos c) posEnd); lia.
Qed.

Lemma resliceComments_total cm :
  ∃ j n : nat, resliceComments posStart posEnd cm = Ret (take n (drop j cm)).
Proof.
  unfold resliceComments.
  destruct (resliceComments_loop_range cm 0 (-1) (-1)) as (lo & up & -> & _ & HA); [lia|].
  destruct (Z.eqb_spec lo (-1)) as [|Hlo].
  - by exists 0%nat, 0%nat.
  - destruct HA as [|HA]; [done..|]. unfold slice.
    destruct (Z.leb_spec 0 lo); [|lia].
    destruct (Z.leb_spec lo (up + 1)); [|lia].
    destruct (Z.leb_spec (up + 1) (len cm)); [|lia]. simpl. eauto.
Qed.

End reslice.

(** * The whole walk on a one-file set *)

Section whole_walk.

Implicit Types (f : File) (ms : list Node) (m curr next : Node) (p : Pos).

Lemma squash_file_base_size ms f :
  base (squash_file ms f) = base f ∧ size (squash_file ms f) = size f.
Proof.
  revert f. induction ms as [|curr [|next rest] IH]; intros f; [done..|].
  change (squash_file (curr :: next :: rest) f)
    with (squash_file (next :: rest) (squashPair_file f curr next)).
  destruct (IH (squashPair_file f curr next)) as [-> ->]. done.
Qed.

Lemma squash_file_in_file ms f p : in_file (squash_file ms f) p ↔ in_file f p.
Proof. unfold in_file. by destruct (squash_file_base_size ms f) as [-> ->]. Qed.

Lemma squash_plain_file ms f :
  plain_file f → Forall (node_in_file f) ms → plain_file (squash_file ms f).
Proof.
  revert f. induction ms as [|curr [|next rest] IH]; intros f Hok Hin; [done..|].
  change (squash_file (curr :: next :: rest) f)
    with (squash_file (next :: rest) (squashPair_file f curr next)).
  apply Forall_cons in Hin as [[_ Hc] Hin].
  apply IH; [by apply squashPair_plain_file|done].
Qed.

Lemma squash_pairs_single ms f log :
  plain_file f → Forall (node_in_file f) ms →
  squash_pairs ms (mkWorld [f] log) =
    Ret (mkWorld [squash_file ms f] (log ++ squash_calls ms f)).
Proof.
  revert f log. induction ms as [|curr [|next rest] IH]; intros f log Hok Hin.
  - simpl. by rewrite app_nil_r.
  - simpl. by rewrite app_nil_r.
  - change (squash_pairs (curr :: next :: rest) (mkWorld [f] log))
      with (w' ← squashPair curr next (mkWorld [f] log);
            squash_pairs (next :: rest) w').
    apply Forall_cons in Hin as [[_ Hc] Hin].
    pose proof Hin as [[Hn _] _]%Forall_cons.
    rewrite squashPair_single, res_bind_Ret by done.
    rewrite IH; [|by apply squashPair_plain_file|done].
    by rewrite <-app_assoc.
Qed.

(** Lines at or before the end of [curr] keep their number; lines at or
    after the start of [next] move up by the number of merges. *)
Lemma Line_squashPair_before f curr next p :
  plain_file f → in_file f (Node_End curr) → in_file f p →
  p ≤ Node_End curr →
  Line (squashPair_file f curr next) p = Line f p.
Proof.
  intros Hok Hc Hp Hle.
  rewrite (Line_in_file (squashPair_file _ _ _)); [|by apply squashPair_plain_file|done].
  rewrite !(Line_in_file f) by done. simpl.
  rewrite lines_upto_squeeze by apply Hok.
  pose proof (lines_upto_mono (lines f) (p - base f) (Node_End curr - base f)
                ltac:(lia)) as Hmono.
  rewrite Line_in_file, Nat2Z.id by done. clear -Hmono. lia.
Qed.

Lemma Line_squashPair_after f curr next p :
  plain_file f → in_file f (Node_End curr) → in_file f (Node_Pos next) → in_file f p →
  Node_Pos next ≤ p →
  Line (squashPair_file f curr next) p = Line f p - Z.of_nat (pair_merges f curr next).
Proof.
  intros Hok Hc Hn Hp Hle.
  rewrite (Line_in_file (squashPair_file _ _ _)); [|by apply squashPair_plain_file|done].
  simpl. rewrite lines_upto_squeeze by apply Hok.
  unfold pair_merges, pair_gap. rewrite !(Line_in_file f) by done.
  pose proof (lines_upto_mono (lines f) (Node_Pos next - base f) (p - base f)
                ltac:(lia)) as Hmono.
  rewrite Nat2Z.id. clear -Hmono. lia.
Qed.

Lemma pair_gap_squashPair f curr next :
  plain_file f → in_file f (Node_End curr) → in_file f (Node_Pos next) →
  pair_gap (squashPair_file f curr next) curr next = Z.min (pair_gap f curr next) 1.
Proof.
  intros Hok Hc Hn. unfold pair_gap at 1.
  rewrite Line_squashPair_after, Line_squashPair_before by (done || lia).
  unfold pair_merges, pair_gap. lia.
Qed.

End whole_walk.

(** ** What the walk leaves of the gaps *)

Section gaps.

Implicit Types (f : File) (ms : list Node) (m curr next : Node) (p : Pos).

Lemma neighbours_elem_of ms curr next :
  (curr, next) ∈ neighbours ms → curr ∈ ms ∧ next ∈ ms.
Proof.
  induction ms as [|m [|m' rest] IH]; [by intros ?%elem_of_nil..|].
  change (neighbours (m :: m' :: rest)) with ((m, m') :: neighbours (m' :: rest)).
  intros [?|Hin]%elem_of_cons; simplify_eq.
  - split; [left|right; left].
  - destruct (IH Hin). split; by right.
Qed.

Lemma spans_ascending_tail m ms : spans_ascending (m :: ms) → spans_ascending ms.
Proof.
  intros [[_ ?]%Forall_cons [? _]%StronglySorted_inv]. by split.
Qed.

Lemma spans_ascending_from m ms m' :
  spans_ascending (m :: ms) → m' ∈ m :: ms →
  Node_Pos m ≤ Node_Pos m' ∧ Node_Pos m ≤ Node_End m'.
Proof.
  intros [Hwf Hs] Hin. rewrite Forall_forall in Hwf.
  pose proof (Hwf m' Hin). pose proof (Hwf m ltac:(left)).
  apply elem_of_cons in Hin as [->|Hin]; [lia|].
  apply StronglySorted_inv in Hs as [_ Hall].
  rewrite Forall_forall in Hall. specialize (Hall m' Hin). simpl in Hall. lia.
Qed.

Lemma spans_ascending_after m ms m' :
  spans_ascending (m :: ms) → m' ∈ ms → Node_End m ≤ Node_Pos m' ∧ Node_End m ≤ Node_End m'.
Proof.
  intros [Hwf Hs] Hin. rewrite Forall_forall in Hwf.
  pose proof (Hwf m' ltac:(by right)).
  apply StronglySorted_inv in Hs as [_ Hall].
  rewrite Forall_forall in Hall. specialize (Hall m' Hin). simpl in Hall. lia.
Qed.

(** A position that no node of the walk ends before keeps its line. *)
Lemma squash_file_Line_before ms f p :
  plain_file f → Forall (node_in_file f) ms → in_file f p →
  Forall (λ m, p ≤ Node_End m) ms →
  Line (squash_file ms f) p = Line f p.
Proof.
  revert f. induction ms as [|curr [|next rest] IH]; intros f Hok Hin Hp Hle; [done..|].
  change (squash_file (curr :: next :: rest) f)
    with (squash_file (next :: rest) (squashPair_file f curr next)).
  apply Forall_cons in Hin as [[_ Hc] Hin].
  apply Forall_cons in Hle as [Hle1 Hle].
  rewrite IH; [|by apply squashPair_plain_file|done..].
  by apply Line_squashPair_before.
Qed.

(** A pair that starts at or after [next] keeps its gap in the round of
    (curr, next). *)
Lemma pair_gap_squashPair_later f curr next c n :
  plain_file f → in_file f (Node_End curr) → in_file f (Node_Pos next) →
  in_file f (Node_End c) → in_file f (Node_Pos n) →
  Node_Pos next ≤ Node_End c → Node_Pos next ≤ Node_Pos n →
  pair_gap (squashPair_file f curr next) c n = pair_gap f c n.
Proof.
  intros Hok Hc Hn Hc' Hn' H1 H2. unfold pair_gap.
  rewrite !Line_squashPair_after by done. lia.
Qed.

Lemma pair_gap_tail f curr next rest c n :
  plain_file f → Forall (node_in_file f) (curr :: next :: rest) →
  spans_ascending (curr :: next :: rest) →
  (c, n) ∈ neighbours (next :: rest) →
  pair_gap (squashPair_file f curr next) c n = pair_gap f c n.
Proof.
  intros Hok Hin Hasc Hcn.
  apply neighbours_elem_of in Hcn as [Hc Hn].
  pose proof (spans_ascending_tail _ _ Hasc) as Hasc'.
  pose proof (spans_ascending_from _ _ _ Hasc' Hc).
  pose proof (spans_ascending_from _ _ _ Hasc' Hn).
  rewrite Forall_forall in Hin.
  destruct (Hin curr ltac:(left)), (Hin next ltac:(right; left)).
  destruct (Hin c ltac:(by right)), (Hin n ltac:(by right)).
  apply pair_gap_squashPair_later; (done || lia).
Qed.

Lemma spans_ascending_ends curr next rest :
  spans_ascending (curr :: next :: rest) →
  Forall (λ m, Node_End curr ≤ Node_End m) (next :: rest) ∧
  Forall (λ m, Node_Pos next ≤ Node_End m) (next :: rest).
Proof.
  intros Hasc. pose proof (spans_ascending_tail _ _ Hasc) as Hasc'.
  split; apply Forall_forall; intros m Hm.
  - by apply (spans_ascending_after _ _ _ Hasc).
  - by apply (spans_ascending_from _ _ _ Hasc').
Qed.

(** After the walk a gap of more than one line is one line, and a gap of at
    most one line is as it was. *)
Lemma squash_file_gap ms f curr next :
  plain_file f → Forall (node_in_file f) ms → spans_ascending ms →
  (curr, next) ∈ neighbours ms →
  pair_gap (squash_file ms f) curr next = Z.min (pair_gap f curr next) 1.
Proof.
  revert f. induction ms as [|m [|m' rest] IH]; intros f Hok Hin Hasc Hcn;
    [by apply elem_of_nil in Hcn..|].
  change (squash_file (m :: m' :: rest) f)
    with (squash_file (m' :: rest) (squashPair_file f m m')).
  change (neighbours (m :: m' :: rest)) with ((m, m') :: neighbours (m' :: rest)) in Hcn.
  pose proof Hin as [[_ Hm] [[Hm' _] _]%Forall_cons]%Forall_cons.
  pose proof Hin as [_ Hin']%Forall_cons.
  pose proof (squashPair_plain_file f m m' Hok Hm) as Hok1.
  destruct (spans_ascending_ends _ _ _ Hasc) as [He Hp].
  apply elem_of_cons in Hcn as [?|Hcn]; simplify_eq.
  - unfold pair_gap at 1.
    rewrite !squash_file_Line_before by done.
    by apply pair_gap_squashPair.
  - rewrite IH; [|done..|by eapply spans_ascending_tail|done].
    by erewrite pair_gap_tail.
Qed.

Lemma flat_map_ext_elem_of {A B} (g h : A → list B) (l : list A) :
  (∀ x, x ∈ l → g x = h x) → flat_map g l = flat_map h l.
Proof.
  induction l as [|x l IH]; intros Hext; [done|]. simpl.
  rewrite (Hext x) by left. f_equal. apply IH. intros y Hy. apply Hext. by right.
Qed.

(** The calls of the walk, pair by pair: each pair has its calls at the line
    where [curr] ends, one for every line of the gap beyond the first. *)
Lemma squash_calls_pairs ms f :
  plain_file f → Forall (node_in_file f) ms → spans_ascending ms →
  squash_calls ms f = flat_map (pair_calls f (squash_file ms f)) (neighbours ms).
Proof.
  revert f. induction ms as [|m [|m' rest] IH]; intros f Hok Hin Hasc; [done..|].
  change (squash_file (m :: m' :: rest) f)
    with (squash_file (m' :: rest) (squashPair_file f m m')).
  change (neighbours (m :: m' :: rest)) with ((m, m') :: neighbours (m' :: rest)).
  change (squash_calls (m :: m' :: rest) f)
    with (repeat (CallMergeLine 0 (Line f (Node_End m))) (pair_merges f m m')
            ++ squash_calls (m' :: rest) (squashPair_file f m m')).
  pose proof Hin as [[_ Hm] [[Hm' _] _]%Forall_cons]%Forall_cons.
  pose proof Hin as [_ Hin']%Forall_cons.
  pose proof (squashPair_plain_file f m m' Hok Hm) as Hok1.
  destruct (spans_ascending_ends _ _ _ Hasc) as [He Hp].
  cbn [flat_map]. f_equal.
  - unfold pair_calls, pair_merges. cbn [fst snd]. do 2 f_equal.
    rewrite squash_file_Line_before by done.
    symmetry. apply Line_squashPair_before; (done || lia).
  - rewrite IH; [|done..|by eapply spans_ascending_tail].
    apply flat_map_ext_elem_of. intros [c n] Hcn.
    unfold pair_calls. cbn [fst snd]. by erewrite pair_gap_tail.
Qed.

End gaps.

(** ** The members of a file, and the walk over them *)

Section members.

Implicit Types (f : File) (imp : list ImportSpec) (cm : list CommentGroup) (m : Node).

Lemma walk_elem_of imp cm m :
  m ∈ walk imp cm → m ∈ (ImportNode <$> imp) ∨ m ∈ (CommentNode <$> cm).
Proof.
  revert cm. induction imp as [|i imp IHimp]; intros cm; [by right|].
  induction cm as [|c cm IHcm]; [by left|].
  rewrite walk_cons_cons.
  destruct (decide (ImportSpec_Pos i < CommentGroup_Pos c)).
  - intros [->|Hin]%elem_of_cons; [left; left|].
    destruct (IHimp _ Hin) as [?|?]; [left; by right|by right].
  - intros [->|Hin]%elem_of_cons; [right; left|].
    destruct (IHcm Hin) as [?|?]; [by left|right; by right].
Qed.

Lemma walk_in_file f imp cm :
  Forall (import_in_file f) imp → Forall (comment_in_file f) cm →
  Forall (node_in_file f) (walk imp cm).
Proof.
  rewrite !Forall_forall. intros Hi Hc m Hm.
  apply walk_elem_of in Hm as [Hm|Hm];
    apply list_elem_of_fmap in Hm as (x & -> & Hx); [by apply Hi|by apply Hc].
Qed.

Lemma spans_ok_tail_imp i imp cm : spans_ok (i :: imp) cm → spans_ok imp cm.
Proof.
  intros [H1 H2 H3 H4 H5]. split; [|done| |done|].
  - by apply Forall_cons in H1 as [_ ?].
  - by apply StronglySorted_inv in H3 as [? _].
  - by apply Forall_cons in H5 as [_ ?].
Qed.

Lemma spans_ok_tail_cm imp c cm : spans_ok imp (c :: cm) → spans_ok imp cm.
Proof.
  intros [H1 H2 H3 H4 H5]. split; [done| |done| |].
  - by apply Forall_cons in H2 as [_ ?].
  - by apply StronglySorted_inv in H4 as [? _].
  - eapply Forall_impl; [exact H5|]. simpl. by intros i [_ ?]%Forall_cons.
Qed.

Lemma spans_ok_sublist_cm imp cm cm' :
  cm' `sublist_of` cm → spans_ok imp cm → spans_ok imp cm'.
Proof.
  intros Hsub [H1 H2 H3 H4 H5]. split; [done| |done| |].
  - by eapply Forall_sublist.
  - by eapply StronglySorted_sublist.
  - eapply Forall_impl; [exact H5|]. simpl. intros i Hi. by eapply Forall_sublist.
Qed.

(** An import spec that starts before a comment group ends before every
    comment group from there on. *)
Lemma import_before_comments i imp c cm c' :
  spans_ok (i :: imp) (c :: cm) → ImportSpec_Pos i < CommentGroup_Pos c →
  c' ∈ c :: cm → ImportSpec_End i ≤ CommentGroup_Pos c'.
Proof.
  intros [H1 H2 H3 H4 H5] Hlt Hc'.
  apply Forall_cons in H5 as [H5 _]. rewrite Forall_forall in H5.
  destruct (H5 c' Hc') as [|Hov]; [done|].
  rewrite Forall_forall in H2.
  pose proof (H2 c' Hc'). pose proof (H2 c ltac:(left)).
  apply elem_of_cons in Hc' as [->|Hc']; [lia|].
  apply StronglySorted_inv in H4 as [_ H4]. rewrite Forall_forall in H4.
  specialize (H4 c' Hc'). simpl in H4. lia.
Qed.

(** A comment group that starts at or before an import spec ends before
    every import spec from there on. *)
Lemma comment_before_imports i imp c cm i' :
  spans_ok (i :: imp) (c :: cm) → CommentGroup_Pos c ≤ ImportSpec_Pos i →
  i' ∈ i :: imp → CommentGroup_End c ≤ ImportSpec_Pos i'.
Proof.
  intros [H1 H2 H3 H4 H5] Hle Hi'.
  rewrite Forall_forall in H5. pose proof (H5 i' Hi') as Hov.
  apply Forall_cons in Hov as [Hov _]. destruct Hov as [Hov|]; [|done].
  rewrite Forall_forall in H1.
  pose proof (H1 i' Hi'). pose proof (H1 i ltac:(left)).
  apply elem_of_cons in Hi' as [->|Hi']; [lia|].
  apply StronglySorted_inv in H3 as [_ H3]. rewrite Forall_forall in H3.
  specialize (H3 i' Hi'). simpl in H3. lia.
Qed.

Lemma walk_sorted imp cm :
  spans_ok imp cm →
  StronglySorted (λ m m', Node_End m ≤ Node_Pos m') (walk imp cm).
Proof.
  revert cm. induction imp as [|i imp IHimp]; intros cm Hok.
  { simpl. eapply StronglySorted_fmap; [|apply Hok]. done. }
  induction cm as [|c cm IHcm].
  { rewrite walk_nil_r. eapply StronglySorted_fmap; [|apply Hok]. done. }
  rewrite walk_cons_cons.
  destruct (decide (ImportSpec_Pos i < CommentGroup_Pos c)) as [Hlt|Hge].
  - constructor; [by eapply IHimp, spans_ok_tail_imp|].
    apply Forall_forall. intros m Hm.
    apply walk_elem_of in Hm as [Hm|Hm];
      apply list_elem_of_fmap in Hm as (x & -> & Hx); simpl.
    + destruct Hok as [_ _ [_ H3]%StronglySorted_inv _ _].
      rewrite Forall_forall in H3. by apply H3.
    + by eapply import_before_comments.
  - constructor; [by eapply IHcm, spans_ok_tail_cm|].
    apply Forall_forall. intros m Hm.
    apply walk_elem_of in Hm as [Hm|Hm];
      apply list_elem_of_fmap in Hm as (x & -> & Hx); simpl.
    + eapply comment_before_imports; [done|lia|done].
    + destruct Hok as [_ _ _ [_ H4]%StronglySorted_inv _].
      rewrite Forall_forall in H4. by apply H4.
Qed.

Lemma walk_ascending imp cm : spans_ok imp cm → spans_ascending (walk imp cm).
Proof.
  intros Hok. split; [|by apply walk_sorted].
  destruct Hok as [H1 H2 _ _ _].
  rewrite Forall_forall in H1. rewrite Forall_forall in H2.
  apply Forall_forall. intros m Hm.
  apply walk_elem_of in Hm as [Hm|Hm];
    apply list_elem_of_fmap in Hm as (x & -> & Hx); simpl.
  - specialize (H1 x Hx). simpl in H1. lia.
  - specialize (H2 x Hx). simpl in H2. lia.
Qed.

(** squashBlankImportLines on a one-file set: it returns, with the walk done
    over the import specs and the resliced comment groups. *)
Lemma squashBlankImportLines_single f log posStart posEnd imp cm :
  plain_file f → 2 ≤ len imp →
  Forall (import_in_file f) imp → Forall (comment_in_file f) cm →
  ∃ cm', resliceComments posStart posEnd cm = Ret cm' ∧
         cm' `sublist_of` cm ∧
         squashBlankImportLines posStart posEnd imp cm (mkWorld [f] log) =
           Ret (mkWorld [squash_file (walk imp cm') f]
                  (log ++ squash_calls (walk imp cm') f)).
Proof.
  intros Hok Hlen Hi Hc.
  destruct (resliceComments_total posStart posEnd cm) as (j & n & Hr).
  exists (take n (drop j cm)). split; [done|].
  assert (take n (drop j cm) `sublist_of` cm) as Hsub.
  { etrans; [apply sublist_take|apply sublist_drop]. }
  split; [done|].
  unfold squashBlankImportLines. destruct (Z.ltb_spec (len imp) 2); [lia|].
  rewrite Hr, res_bind_Ret.
  rewrite squash_loop_walk; [|lia|unfold len; lia|unfold len; lia].
  simpl drop. apply squash_pairs_single; [done|].
  apply walk_in_file; [done|]. by eapply Forall_sublist.
Qed.

End members.

(** * The claims about squashBlankImportLines *)

Lemma spans_ok_pos_ascending imp cm : spans_ok imp cm → pos_ascending cm.
Proof.
  intros [_ H2 _ H4 _]. unfold pos_ascending.
  induction H4 as [|c cm Hs IH Hall]; [constructor|].
  apply Forall_cons in H2 as [Hc H2].
  constructor; [by apply IH|].
  eapply Forall_impl; [exact Hall|]. simpl. lia.
Qed.

(** The run on a parsed file: it returns, the file set still holds one file,
    and both the file and the calls are those of the walk over the import
    specs and the comment groups of the block. *)
Lemma squashBlankImportLines_walk f log posStart posEnd imp cm :
  plain_file f → 2 ≤ len imp →
  Forall (import_in_file f) imp → Forall (comment_in_file f) cm →
  spans_ok imp cm →
  let ms := walk imp (filter (in_block posStart posEnd) cm) in
  squashBlankImportLines posStart posEnd imp cm (mkWorld [f] log) =
    Ret (mkWorld [squash_file ms f] (log ++ squash_calls ms f)) ∧
  Forall (node_in_file f) ms ∧ spans_ascending ms.
Proof.
  intros Hok Hlen Hi Hc Hsp ms.
  destruct (squashBlankImportLines_single f log posStart posEnd imp cm)
    as (cm' & Hr & _ & Hrun); [done..|].
  rewrite resliceComments_ascending in Hr by by eapply spans_ok_pos_ascending.
  injection Hr as <-. split; [done|].
  pose proof (sublist_filter (in_block posStart posEnd) cm) as Hsub.
  split.
  - apply walk_in_file; [done|]. by eapply Forall_sublist.
  - apply walk_ascending. by eapply spans_ok_sublist_cm.
Qed.

(** C1 (full-gap collapse), the claim as written fails, on two kinds of
    input.

    With fewer than two import specs the squasher returns at once: in the
    sample file with the import spec "a" taken out, the comment on line 6 and
    "b" on line 8 have a blank line between them and stay as they are.

    With a [//line] directive in the block, [Line] reports the adjusted
    line: in [directive_file] the directive ends on line 4 and "b", on line
    5 of the source, is reported on line 100.  The inner loop is set to 95
    rounds of [MergeLine(4)]; the first takes out the start of line 5, the
    second the start of the close paren's line, and the third panics, the
    table having four lines left. *)
Lemma squash_gap_not_collapsed :
  (let c := mkCommentGroup 28 32 in
   let b := mkImportSpec 35 38 in
   in_block 18 39 c ∧
   Line sample_file (ImportSpec_Pos b) - Line sample_file (CommentGroup_End c) = 2 ∧
   squashBlankImportLines 18 39 [b] [c] (mkWorld [sample_file] []) =
     Ret (mkWorld [sample_file] [])) ∧
  (let c := mkCommentGroup 25 40 in
   let b := mkImportSpec 42 45 in
   in_block 18 46 c ∧
   Line directive_file (CommentGroup_End c) = 4 ∧
   Line directive_file (ImportSpec_Pos b) = 100 ∧
   mergeLines 2 0 4 (mkWorld [directive_file] []) =
     Ret (mkWorld [mkFile 1 47 [0; 10; 19; 24] [mkLineInfo 40 100 0]]
            [CallMergeLine 0 4; CallMergeLine 0 4]) ∧
   squashBlankImportLines 18 46 directive_imports directive_comments
     (mkWorld [directive_file] []) = Panic invalid_line_number).
Proof. split; split_and!; done. Qed.

(** C1, amended.  On a file without [//line] directives and with at least
    two import specs the squasher returns, and for every two neighbours
    [curr], [next] of the merge walk whose lines differ by more than one
    ([Line next.Pos - Line curr.End > 1] in the table it is given) it calls
    [MergeLine] exactly [Line next.Pos - Line curr.End - 1] times, each time
    with the line on which [curr] ends; the calls of the run are those of
    the pairs, in walk order; and in the table it leaves [next] starts on the
    line right after the one [curr] ends on: no blank line is left. *)
Theorem squash_collapses_every_gap f log posStart posEnd imp cm :
  file_ok f → infos f = [] → 2 ≤ len imp →
  Forall (import_in_file f) imp → Forall (comment_in_file f) cm →
  spans_ok imp cm →
  let members := walk imp (filter (in_block posStart posEnd) cm) in
  ∃ f',
    squashBlankImportLines posStart posEnd imp cm (mkWorld [f] log) =
      Ret (mkWorld [f'] (log ++ flat_map (pair_calls f f') (neighbours members))) ∧
    ∀ curr next,
      (curr, next) ∈ neighbours members →
      1 < Line f (Node_Pos next) - Line f (Node_End curr) →
      pair_calls f f' (curr, next) =
        repeat (CallMergeLine 0 (Line f' (Node_End curr)))
               (Z.to_nat (Line f (Node_Pos next) - Line f (Node_End curr) - 1)) ∧
      Line f' (Node_Pos next) - Line f' (Node_End curr) = 1.
Proof.
  intros Hok0 Hni. assert (plain_file f) as Hok by done.
  intros Hlen Hi Hc Hsp members.
  destruct (squashBlankImportLines_walk f log posStart posEnd imp cm)
    as (Hrun & Hin & Hasc); [done..|].
  fold members in Hrun, Hin, Hasc.
  exists (squash_file members f). split.
  - by rewrite Hrun, squash_calls_pairs.
  - intros curr next Hpair Hgap. split; [done|].
    pose proof (squash_file_gap members f curr next Hok Hin Hasc Hpair) as Hg.
    unfold pair_gap in Hg. lia.
Qed.

(** Goals over concrete lists and numbers. *)
Ltac concrete :=
  repeat first
    [ progress (unfold import_in_file, comment_in_file, in_file, in_block, len)
    | apply Forall_nil_2 | apply Forall_cons_2
    | apply SSorted_nil | apply SSorted_cons
    | split ];
  simpl; try lia; try done.

Lemma sample_file_ok : file_ok sample_file.
Proof. concrete. Qed.

Lemma sample_spans_ok : spans_ok sample_imports sample_comments.
Proof. concrete. all: lia. Qed.

Lemma squash_collapses_every_gap_witness :
  let members := walk sample_imports (filter (in_block 18 39) sample_comments) in
  ∃ f',
    squashBlankImportLines 18 39 sample_imports sample_comments (mkWorld [sample_file] []) =
      Ret (mkWorld [f'] ([] ++ flat_map (pair_calls sample_file f') (neighbours members))) ∧
    ∀ curr next,
      (curr, next) ∈ neighbours members →
      1 < Line sample_file (Node_Pos next) - Line sample_file (Node_End curr) →
      pair_calls sample_file f' (curr, next) =
        repeat (CallMergeLine 0 (Line f' (Node_End curr)))
               (Z.to_nat (Line sample_file (Node_Pos next)
                          - Line sample_file (Node_End curr) - 1)) ∧
      Line f' (Node_Pos next) - Line f' (Node_End curr) = 1.
Proof.
  apply (squash_collapses_every_gap sample_file [] 18 39 sample_imports sample_comments).
  - exact sample_file_ok.
  - reflexivity.
  - unfold len. simpl. lia.
  - concrete.
  - concrete.
  - exact sample_spans_ok.
Defined.

Example sample_run :
  squashBlankImportLines 18 39 sample_imports sample_comments (mkWorld [sample_file] []) =
    Ret (mkWorld [mkFile 1 40 [0; 10; 19; 26; 33; 38] []]
           [CallMergeLine 0 3; CallMergeLine 0 3; CallMergeLine 0 4]).
Proof. reflexivity. Qed.

(** C2 (single-gap preservation), the claim as written fails.  A sample
    file with one blank line between two import specs:
<<
      package p            line 1, offsets  0 ..  9
      import (             line 2, offsets 10 .. 18, the paren at 17
      <tab>"a"             line 3, offsets 19 .. 23
                           line 4, offset  24
      <tab>"b"             line 5, offsets 25 .. 29
      )                    line 6, offsets 30 .. 31
>>
    The lines of "a" and "b" differ by 2; the loop runs once and merges
    line 3 with the blank line, so "b" is on line 4 afterwards. *)
Lemma single_blank_line_is_merged :
  let f := mkFile 1 32 [0; 10; 19; 24; 25; 30] [] in
  let f' := mkFile 1 32 [0; 10; 19; 25; 30] [] in
  let a := mkImportSpec 21 24 in
  let b := mkImportSpec 27 30 in
  Line f (ImportSpec_Pos b) - Line f (ImportSpec_End a) = 2 ∧
  squashBlankImportLines 18 31 [a; b] [] (mkWorld [f] []) =
    Ret (mkWorld [f'] [CallMergeLine 0 3]) ∧
  Line f' (ImportSpec_Pos b) - Line f' (ImportSpec_End a) = 1.
Proof. done. Qed.

(** C2, amended.  On a file without [//line] directives and with at least
    two import specs, what the squasher leaves as it is are neighbours with
    no blank line between them: when [next] starts on the line where [curr]
    ends or on the line after it, the pair gets no [MergeLine] call and its
    lines differ as before.  One blank line (a difference of 2) is merged
    away by one call, like any longer gap. *)
Theorem squash_keeps_adjacent_lines f log posStart posEnd imp cm :
  file_ok f → infos f = [] → 2 ≤ len imp →
  Forall (import_in_file f) imp → Forall (comment_in_file f) cm →
  spans_ok imp cm →
  let members := walk imp (filter (in_block posStart posEnd) cm) in
  ∃ f',
    squashBlankImportLines posStart posEnd imp cm (mkWorld [f] log) =
      Ret (mkWorld [f'] (log ++ flat_map (pair_calls f f') (neighbours members))) ∧
    ∀ curr next,
      (curr, next) ∈ neighbours members →
      (Line f (Node_Pos next) - Line f (Node_End curr) ≤ 1 →
         pair_calls f f' (curr, next) = [] ∧
         Line f' (Node_Pos next) - Line f' (Node_End curr) =
           Line f (Node_Pos next) - Line f (Node_End curr)) ∧
      (Line f (Node_Pos next) - Line f (Node_End curr) = 2 →
         pair_calls f f' (curr, next) = [CallMergeLine 0 (Line f' (Node_End curr))] ∧
         Line f' (Node_Pos next) - Line f' (Node_End curr) = 1).
Proof.
  intros Hok0 Hni. assert (plain_file f) as Hok by done.
  intros Hlen Hi Hc Hsp members.
  destruct (squashBlankImportLines_walk f log posStart posEnd imp cm)
    as (Hrun & Hin & Hasc); [done..|].
  fold members in Hrun, Hin, Hasc.
  exists (squash_file members f). split.
  - by rewrite Hrun, squash_calls_pairs.
  - intros curr next Hpair.
    pose proof (squash_file_gap members f curr next Hok Hin Hasc Hpair) as Hg.
    unfold pair_calls, pair_gap in *. cbn [fst snd].
    split; intros Hgap.
    + split; [|lia].
      by replace (Z.to_nat _) with 0%nat by lia.
    + split; [|lia]. by rewrite Hgap.
Qed.

Lemma mixed_file_ok : file_ok mixed_file.
Proof. concrete. Qed.

Lemma mixed_spans_ok : spans_ok mixed_imports mixed_comments.
Proof. concrete. all: lia. Qed.

(** The run on [mixed_file]: "a" and the comment on the next line get no
    call, the blank line 5 is merged into line 4, and the two blank lines
    before "b" into the line the second comment group ends on, which is
    line 6 by then. *)
Example mixed_run :
  map (λ pr, pair_gap mixed_file pr.1 pr.2)
      (neighbours (walk mixed_imports (filter (in_block 18 51) mixed_comments))) =
    [1; 2; 3] ∧
  squashBlankImportLines 18 51 mixed_imports mixed_comments (mkWorld [mixed_file] []) =
    Ret (mkWorld [mkFile 1 52 [0; 10; 19; 24; 31; 37; 45; 50] []]
           [CallMergeLine 0 4; CallMergeLine 0 6; CallMergeLine 0 6]).
Proof. split; reflexivity. Qed.

Lemma squash_keeps_adjacent_lines_witness :
  let members := walk mixed_imports (filter (in_block 18 51) mixed_comments) in
  ∃ f',
    squashBlankImportLines 18 51 mixed_imports mixed_comments (mkWorld [mixed_file] []) =
      Ret (mkWorld [f'] ([] ++ flat_map (pair_calls mixed_file f') (neighbours members))) ∧
    ∀ curr next,
      (curr, next) ∈ neighbours members →
      (Line mixed_file (Node_Pos next) - Line mixed_file (Node_End curr) ≤ 1 →
         pair_calls mixed_file f' (curr, next) = [] ∧
         Line f' (Node_Pos next) - Line f' (Node_End curr) =
           Line mixed_file (Node_Pos next) - Line mixed_file (Node_End curr)) ∧
      (Line mixed_file (Node_Pos next) - Line mixed_file (Node_End curr) = 2 →
         pair_calls mixed_file f' (curr, next) =
           [CallMergeLine 0 (Line f' (Node_End curr))] ∧
         Line f' (Node_Pos next) - Line f' (Node_End curr) = 1).
Proof.
  apply (squash_keeps_adjacent_lines mixed_file [] 18 51 mixed_imports mixed_comments).
  - exact mixed_file_ok.
  - reflexivity.
  - unfold len. simpl. lia.
  - concrete.
  - concrete.
  - exact mixed_spans_ok.
Defined.

(** ** The frame of the walk *)

Section frame.

Implicit Types (f : File) (a : list Z) (ms : list Node) (P : Z → Prop).





Lemma squash_file_sublist ms f : lines (squash_file ms f) `sublist_of` lines f.
Proof.
  revert f. induction ms as [|m [|m' rest] IH]; intros f; [done..|].
  change (squash_file (m :: m' :: rest) f)
    with (squash_file (m' :: rest) (squashPair_file f m m')).
  etrans; [apply IH|]. apply squeeze_sublist.
Qed.

End frame.




(** * resliceComments, chooseNext, MergeLine: the claims *)

Lemma filter_nil_inv {A} (P : A → Prop) `{!∀ x, Decision (P x)} (l : list A) :
  filter P l = [] → Forall (λ x, ¬ P x) l.
Proof.
  intros Hnil. apply Forall_forall. intros x Hx HP.
  by eapply filter_nil_not_elem_of.
Qed.

Lemma filter_all {A} (P : A → Prop) `{!∀ x, Decision (P x)} (l : list A) :
  Forall P l → filter P l = l.
Proof.
  induction 1 as [|x l Hx _ IH]; [done|].
  rewrite filter_cons_True by done. by f_equal.
Qed.

(** A filter that is a run of the list leaves nothing of the filter on
    either side of the run. *)
Lemma filter_run {A} (P : A → Prop) `{!∀ x, Decision (P x)} (l : list A) (j n : nat) :
  filter P l = take n (drop j l) →
  Forall (λ x, ¬ P x) (take j l) ∧ Forall (λ x, ¬ P x) (drop (j + n) l).
Proof.
  intros Hrun.
  assert (Forall P (take n (drop j l))) as Hmid.
  { rewrite <-Hrun. apply Forall_forall. intros x Hx.
    by apply list_elem_of_filter in Hx as [? _]. }
  assert (l = take j l ++ take n (drop j l) ++ drop (j + n) l) as Hl.
  { by rewrite <-drop_drop, !take_drop. }
  pose proof (f_equal (filter P) Hl) as Hf.
  rewrite !filter_app, (filter_all P (take n (drop j l))), Hrun in Hf by done.
  apply (f_equal length) in Hf. rewrite !length_app in Hf.
  split; apply (filter_nil_inv P), nil_length_inv; lia.
Qed.

(** C6.  On a comment list in ascending position order resliceComments
    returns, and what it returns are the comment groups whose start lies
    strictly between the bounds (a start on a bound is left out), in the
    order of the list; they are one run of the list, with no such group
    before or after the run; and the result is empty when there is none. *)
Theorem resliceComments_keeps_block posStart posEnd cm :
  pos_ascending cm →
  resliceComments posStart posEnd cm = Ret (filter (in_block posStart posEnd) cm) ∧
  (∃ before after,
     cm = before ++ filter (in_block posStart posEnd) cm ++ after ∧
     Forall (λ c, ¬ (posStart < CommentGroup_Pos c < posEnd)) before ∧
     Forall (λ c, ¬ (posStart < CommentGroup_Pos c < posEnd)) after) ∧
  (Forall (λ c, ¬ (posStart < CommentGroup_Pos c < posEnd)) cm →
     resliceComments posStart posEnd cm = Ret []).
Proof.
  intros Hs. pose proof (resliceComments_ascending posStart posEnd cm Hs) as Hr.
  split_and!; [done| |].
  - destruct (resliceComments_loop_ascending posStart posEnd cm 0)
      as (j & n & Hf & Hlen & _); [lia|done|].
    destruct (filter_run _ cm j n Hf) as [Hb Ha].
    exists (take j cm), (drop (j + n) cm). split_and!; [|done..].
    by rewrite Hf, <-drop_drop, !take_drop.
  - intros Hnone. rewrite Hr. f_equal. by apply filter_nil_Forall.
Qed.

Lemma resliceComments_keeps_block_witness :
  let cm := [mkCommentGroup 3 9; mkCommentGroup 18 20; mkCommentGroup 28 32;
             mkCommentGroup 39 41; mkCommentGroup 50 60] in
  resliceComments 18 39 cm = Ret (filter (in_block 18 39) cm) ∧
  (∃ before after,
     cm = before ++ filter (in_block 18 39) cm ++ after ∧
     Forall (λ c, ¬ (18 < CommentGroup_Pos c < 39)) before ∧
     Forall (λ c, ¬ (18 < CommentGroup_Pos c < 39)) after) ∧
  (Forall (λ c, ¬ (18 < CommentGroup_Pos c < 39)) cm →
     resliceComments 18 39 cm = Ret []).
Proof.
  apply (resliceComments_keeps_block 18 39). unfold pos_ascending. concrete.
Defined.

Example resliceComments_sample :
  resliceComments 18 39
    [mkCommentGroup 3 9; mkCommentGroup 18 20; mkCommentGroup 28 32;
     mkCommentGroup 39 41; mkCommentGroup 50 60] = Ret [mkCommentGroup 28 32].
Proof. reflexivity. Qed.

(** C9 (ties go to the import spec), the claim as written fails: with an
    import spec and a comment group at the same position chooseNext returns
    the comment group. *)
Lemma chooseNext_tie_picks_comment :
  chooseNext [mkImportSpec 5 8] [mkCommentGroup 5 7] 0 0 true =
    Ret (CommentNode (mkCommentGroup 5 7), (0, 1)).
Proof. reflexivity. Qed.

(** C9, amended.  With neither list used up chooseNext returns the import
    spec exactly when its position is strictly the smaller one; on equal
    positions, as whenever the comment group does not start later, it
    returns the comment group, and with [inc] it is that list's index that
    moves on. *)
Theorem chooseNext_prefers_comment_on_tie imp cm impIdx cmIdx inc i c :
  0 ≤ impIdx → 0 ≤ cmIdx →
  imp !! Z.to_nat impIdx = Some i → cm !! Z.to_nat cmIdx = Some c →
  (ImportSpec_Pos i < CommentGroup_Pos c →
     chooseNext imp cm impIdx cmIdx inc =
       Ret (ImportNode i, (if inc then impIdx + 1 else impIdx, cmIdx))) ∧
  (CommentGroup_Pos c ≤ ImportSpec_Pos i →
     chooseNext imp cm impIdx cmIdx inc =
       Ret (CommentNode c, (impIdx, if inc then cmIdx + 1 else cmIdx))).
Proof.
  intros Hi Hc Hli Hlc.
  pose proof (lookup_lt_Some _ _ _ Hli). pose proof (lookup_lt_Some _ _ _ Hlc).
  unfold chooseNext, index, len.
  destruct (Z.leb_spec (Z.of_nat (length imp)) impIdx); [lia|].
  destruct (Z.leb_spec (Z.of_nat (length cm)) cmIdx); [lia|].
  destruct (Z.leb_spec 0 impIdx); [|lia]. destruct (Z.leb_spec 0 cmIdx); [|lia].
  destruct (Z.ltb_spec impIdx (Z.of_nat (length imp))); [|lia].
  destruct (Z.ltb_spec cmIdx (Z.of_nat (length cm))); [|lia].
  simpl. rewrite Hli, Hlc. simpl.
  destruct (Z.ltb_spec (ImportSpec_Pos i) (CommentGroup_Pos c)); split; intros; (done || lia).
Qed.

Lemma chooseNext_prefers_comment_on_tie_witness :
  (ImportSpec_Pos (mkImportSpec 5 8) < CommentGroup_Pos (mkCommentGroup 5 7) →
     chooseNext [mkImportSpec 5 8] [mkCommentGroup 5 7] 0 0 true =
       Ret (ImportNode (mkImportSpec 5 8), (0 + 1, 0))) ∧
  (CommentGroup_Pos (mkCommentGroup 5 7) ≤ ImportSpec_Pos (mkImportSpec 5 8) →
     chooseNext [mkImportSpec 5 8] [mkCommentGroup 5 7] 0 0 true =
       Ret (CommentNode (mkCommentGroup 5 7), (0, 0 + 1))).
Proof.
  apply (chooseNext_prefers_comment_on_tie
           [mkImportSpec 5 8] [mkCommentGroup 5 7] 0 0 true); (lia || reflexivity).
Defined.

(** C8 (MergeLine is idempotent), the claim as written fails: on a table of
    three lines, merging line 1 once leaves two lines and merging it once
    more leaves one. *)
Lemma MergeLine_twice_differs :
  let f := mkFile 1 30 [0; 10; 19] [] in
  MergeLine f 1 = Ret (mkFile 1 30 [0; 19] []) ∧
  (f1 ← MergeLine f 1; MergeLine f1 1) = Ret (mkFile 1 30 [0] []).
Proof. done. Qed.

(** C8, amended.  A call of [MergeLine(n)] that returns takes the start of
    line [n+1] out of the table, which is one entry shorter then.  A second
    call with the same [n] is never without effect: it panics when line [n]
    has become the last line, and otherwise takes out the start of the line
    that follows now, so that two calls leave the table two entries
    shorter. *)
Theorem MergeLine_again_merges_next f n f1 :
  MergeLine f n = Ret f1 →
  lines f1 = squeeze (lines f) (Z.to_nat n) 1 ∧
  len (lines f1) = len (lines f) - 1 ∧
  (MergeLine f1 n = Panic invalid_line_number ∧ len (lines f) = n + 1 ∨
   ∃ f2, MergeLine f1 n = Ret f2 ∧
         lines f2 = squeeze (lines f) (Z.to_nat n) 2 ∧
         len (lines f2) = len (lines f) - 2).
Proof.
  unfold MergeLine, len. intros Hm.
  destruct (Z.ltb_spec n 1); [done|].
  destruct (Z.leb_spec (Z.of_nat (length (lines f))) n); [done|].
  injection Hm as <-. simpl.
  pose proof (squeeze_delete (lines f) (Z.to_nat n) 0) as Hd1.
  rewrite squeeze_0 in Hd1.
  pose proof (squeeze_delete (lines f) (Z.to_nat n) 1) as Hd2.
  rewrite Hd1, Hd2, length_squeeze by lia.
  split_and!; [done|lia|].
  destruct (Z.leb_spec (Z.of_nat (length (lines f) - 1)) n).
  - left. split; [done|lia].
  - right. eexists. split_and!; [done..|]. simpl.
    rewrite length_squeeze by lia. lia.
Qed.

Lemma MergeLine_again_merges_next_witness :
  lines (mkFile 1 30 [0; 19] []) = squeeze (lines (mkFile 1 30 [0; 10; 19] [])) (Z.to_nat 1) 1 ∧
  len (lines (mkFile 1 30 [0; 19] [])) = len (lines (mkFile 1 30 [0; 10; 19] [])) - 1 ∧
  (MergeLine (mkFile 1 30 [0; 19] []) 1 = Panic invalid_line_number ∧
     len (lines (mkFile 1 30 [0; 10; 19] [])) = 1 + 1 ∨
   ∃ f2, MergeLine (mkFile 1 30 [0; 19] []) 1 = Ret f2 ∧
         lines f2 = squeeze (lines (mkFile 1 30 [0; 10; 19] [])) (Z.to_nat 1) 2 ∧
         len (lines f2) = len (lines (mkFile 1 30 [0; 10; 19] [])) - 2).
Proof.
  apply (MergeLine_again_merges_next (mkFile 1 30 [0; 10; 19] []) 1). reflexivity.
Defined.

(** * The panic of squashBlankImportLines *)

Section one_file.

Implicit Types (f : File) (w : World) (ms : list Node).

(** On a one-file set the inner loop returns a one-file set with the same
    base and size, or stops on go/token's panic. *)
Lemma mergeLines_one_file n line f log :
  (∃ f' log', mergeLines n 0 line (mkWorld [f] log) = Ret (mkWorld [f'] log') ∧
              base f' = base f ∧ size f' = size f) ∨
  mergeLines n 0 line (mkWorld [f] log) = Panic invalid_line_number.
Proof.
  revert f log. induction n as [|n IH]; intros f log; simpl.
  { left. by exists f, log. }
  unfold callMergeLine. simpl. unfold MergeLine.
  destruct (line <? 1); [by right|].
  destruct (len (lines f) <=? line); [by right|].
  rewrite res_bind_Ret. simpl.
  destruct (IH (mkFile (base f) (size f) (delete (Z.to_nat line) (lines f)) (infos f))
               (log ++ [CallMergeLine 0 line])) as [(f' & log' & Hrun & ? & ?)|Hrun];
    rewrite Hrun; [left; by exists f', log'|by right].
Qed.

Lemma squashPair_one_file f log curr next :
  0 < base f → in_file f (Node_End curr) → in_file f (Node_Pos next) →
  (∃ f' log', squashPair curr next (mkWorld [f] log) = Ret (mkWorld [f'] log') ∧
              base f' = base f ∧ size f' = size f) ∨
  squashPair curr next (mkWorld [f] log) = Panic invalid_line_number.
Proof.
  intros Hb Hc Hn. unfold squashPair. simpl.
  rewrite !FileOf_single by done.
  rewrite decide_False by naive_solver. simpl.
  apply mergeLines_one_file.
Qed.

Lemma squash_pairs_one_file ms f log :
  0 < base f → Forall (node_in_file f) ms →
  squash_pairs ms (mkWorld [f] log) ≠ Panic files_unequal.
Proof.
  revert f log. induction ms as [|curr [|next rest] IH]; intros f log Hb Hin; [done..|].
  change (squash_pairs (curr :: next :: rest) (mkWorld [f] log))
    with (w' ← squashPair curr next (mkWorld [f] log);
          squash_pairs (next :: rest) w').
  pose proof Hin as [[_ Hc] [[Hn _] _]%Forall_cons]%Forall_cons.
  pose proof Hin as [_ Hin']%Forall_cons.
  destruct (squashPair_one_file f log curr next) as [(f' & log' & Hrun & Hb' & Hsz')|Hrun];
    [done..| |]; rewrite Hrun; [|done].
  rewrite res_bind_Ret. apply IH; [lia|].
  eapply Forall_impl; [exact Hin'|].
  unfold node_in_file, in_file. intros m. by rewrite Hb', Hsz'.
Qed.

End one_file.

(** C10.  With one file in the set and every import spec and comment group
    positioned in it, the run does not reach [panic("files unequal")]: the
    result is not that panic, and for every two neighbours of the walk the
    end of [curr] and the start of [next] resolve to the one file of the
    set, whatever merges its line table has seen. *)
Theorem files_unequal_unreachable f log posStart posEnd imp cm :
  0 < base f →
  Forall (import_in_file f) imp → Forall (comment_in_file f) cm →
  squashBlankImportLines posStart posEnd imp cm (mkWorld [f] log) ≠ Panic files_unequal ∧
  ∃ cm', resliceComments posStart posEnd cm = Ret cm' ∧
    ∀ curr next a,
      (curr, next) ∈ neighbours (walk imp cm') →
      FileOf [mkFile (base f) (size f) a (infos f)] (Node_End curr) = Some 0%nat ∧
      FileOf [mkFile (base f) (size f) a (infos f)] (Node_Pos next) = Some 0%nat.
Proof.
  intros Hb Hi Hc.
  destruct (resliceComments_total posStart posEnd cm) as (j & n & Hr).
  assert (take n (drop j cm) `sublist_of` cm) as Hsub.
  { etrans; [apply sublist_take|apply sublist_drop]. }
  assert (Forall (node_in_file f) (walk imp (take n (drop j cm)))) as Hin.
  { apply walk_in_file; [done|]. by eapply Forall_sublist. }
  split.
  - unfold squashBlankImportLines. destruct (len imp <? 2); [done|].
    rewrite Hr, res_bind_Ret.
    rewrite squash_loop_walk; [|unfold len; lia..].
    simpl drop. by apply squash_pairs_one_file.
  - exists (take n (drop j cm)). split; [done|].
    intros curr next a [Hcurr Hnext]%neighbours_elem_of.
    rewrite Forall_forall in Hin.
    destruct (Hin curr Hcurr) as [_ ?], (Hin next Hnext) as [? _].
    split; by apply FileOf_single.
Qed.

Lemma files_unequal_unreachable_witness :
  squashBlankImportLines 18 39 sample_imports sample_comments (mkWorld [sample_file] [])
    ≠ Panic files_unequal ∧
  ∃ cm', resliceComments 18 39 sample_comments = Ret cm' ∧
    ∀ curr next a,
      (curr, next) ∈ neighbours (walk sample_imports cm') →
      FileOf [mkFile (base sample_file) (size sample_file) a (infos sample_file)] (Node_End curr) = Some 0%nat ∧
      FileOf [mkFile (base sample_file) (size sample_file) a (infos sample_file)] (Node_Pos next) = Some 0%nat.
Proof.
  apply (files_unequal_unreachable sample_file [] 18 39 sample_imports sample_comments).
  - simpl. lia.
  - concrete.
  - concrete.
Defined.

(** * findImportBounds *)

Section scan.

Implicit Types (toks pre rest : list (Pos * Token)) (start eof : Pos).

(** At end of file every round scans [EOF] and goes on. *)
Lemma findImportBounds_loop_eof fuel found start end_ eof :
  findImportBounds_loop fuel (mkScanner [] eof) found start end_ = OutOfFuel.
Proof.
  revert found start end_. induction fuel as [|fuel IH]; intros found start end_; [done|].
  simpl. destruct found; simpl; apply IH.
Qed.

Lemma findImportBounds_loop_no_return fuel toks start end_ eof :
  no_return start toks →
  findImportBounds_loop fuel (mkScanner toks eof) true start end_ = OutOfFuel.
Proof.
  revert fuel start end_. induction toks as [|[pos tok] rest IH]; intros fuel start end_ Hq.
  { apply findImportBounds_loop_eof. }
  destruct fuel as [|fuel]; [done|].
  destruct Hq as (Hr & Hs & Hq). simpl.
  destruct (decide (tok = STRING)) as [->|Hns].
  - rewrite bool_decide_eq_true_2 by done.
    destruct (Z.eqb_spec start 0); [naive_solver|]. simpl. by apply IH.
  - rewrite (bool_decide_eq_false_2 (tok = STRING)) by done. simpl.
    destruct (decide (tok = LPAREN)) as [->|Hnl].
    + rewrite bool_decide_eq_true_2 by done. by apply IH.
    + rewrite (bool_decide_eq_false_2 (tok = LPAREN)) by done.
      rewrite (bool_decide_eq_false_2 (tok = RPAREN)) by done. by apply IH.
Qed.

Lemma findImportBounds_loop_before_import fuel pre rest start end_ eof :
  Forall (λ t, t.2 ≠ IMPORT) pre →
  (∀ fuel', findImportBounds_loop fuel' (mkScanner rest eof) false start end_ = OutOfFuel) →
  findImportBounds_loop fuel (mkScanner (pre ++ rest) eof) false start end_ = OutOfFuel.
Proof.
  intros Hpre Hrest. revert fuel.
  induction Hpre as [|[pos tok] pre Ht _ IH]; intros fuel; [apply Hrest|].
  destruct fuel as [|fuel]; [done|]. simpl in *.
  rewrite bool_decide_eq_false_2 by done. apply IH.
Qed.

Lemma no_return_nonzero start toks :
  start ≠ 0 → Forall (λ t, t.2 ≠ RPAREN ∧ t.1 ≠ NoPos) toks → no_return start toks.
Proof.
  intros Hs Hall. revert start Hs.
  induction Hall as [|[pos tok] toks [Hr Hp] _ IH]; intros start Hs; [done|].
  simpl in *. split_and!; [done|by intros [_ ?]|].
  apply IH. by destruct (decide (tok = LPAREN)).
Qed.

Lemma no_return_app start toks rest :
  Forall (λ t, t.2 ≠ STRING ∧ t.2 ≠ RPAREN) toks →
  (∀ start', no_return start' rest) →
  no_return start (toks ++ rest).
Proof.
  intros Hall Hrest. revert start.
  induction Hall as [|[pos tok] toks [Hs Hr] _ IH]; intros start; [apply Hrest|].
  simpl in *. split_and!; [done|by intros [? _]|apply IH].
Qed.

(** A return of the loop past the import keyword: the token it returns at
    and the tokens it has passed over. *)
Lemma findImportBounds_loop_found_return fuel toks eof start end_ start' end' err :
  findImportBounds_loop fuel (mkScanner toks eof) true start end_ = Ret (start', end', err) →
  ∃ mid pos tok rest,
    toks = mid ++ (pos, tok) :: rest ∧ no_return start mid ∧
    start' = start_after start mid ∧
    ((tok = RPAREN ∧ end' = pos ∧ err = None) ∨
     (tok = STRING ∧ start' = 0 ∧ end' = end_ ∧ err = Some non_block_import)).
Proof.
  revert fuel start. induction toks as [|[pos tok] toks IH]; intros fuel start Hrun.
  { by rewrite findImportBounds_loop_eof in Hrun. }
  destruct fuel as [|fuel]; [done|]. simpl in Hrun.
  assert (∀ start1,
    start1 = (if decide (tok = LPAREN) then pos else start) →
    tok ≠ RPAREN → ¬ (tok = STRING ∧ start = 0) →
    findImportBounds_loop fuel (mkScanner toks eof) true start1 end_
      = Ret (start', end', err) →
    ∃ mid pos0 tok0 rest,
      (pos, tok) :: toks = mid ++ (pos0, tok0) :: rest ∧ no_return start mid ∧
      start' = start_after start mid ∧
      ((tok0 = RPAREN ∧ end' = pos0 ∧ err = None) ∨
       (tok0 = STRING ∧ start' = 0 ∧ end' = end_ ∧ err = Some non_block_import))) as Hstep.
  { intros start1 -> Hr Hs Hrec.
    apply IH in Hrec as (mid & pos0 & tok0 & rest & -> & Hno & -> & Hcase).
    exists ((pos, tok) :: mid), pos0, tok0, rest. by split_and!. }
  destruct (decide (tok = STRING)) as [->|Hns].
  - rewrite bool_decide_eq_true_2 in Hrun by done. simpl in Hrun.
    destruct (Z.eqb_spec start 0) as [->|Hne].
    + injection Hrun as <- <- <-. exists [], pos, STRING, toks.
      split_and!; [done..|]. by right.
    + simpl in Hrun. apply (Hstep start); [done|done|by intros [_ ?]|done].
  - rewrite (bool_decide_eq_false_2 (tok = STRING)) in Hrun by done. simpl in Hrun.
    destruct (decide (tok = LPAREN)) as [->|Hnl].
    + rewrite bool_decide_eq_true_2 in Hrun by done.
      apply (Hstep pos); [done|done|by intros [? _]|done].
    + rewrite (bool_decide_eq_false_2 (tok = LPAREN)) in Hrun by done.
      destruct (decide (tok = RPAREN)) as [->|Hnr].
      * rewrite bool_decide_eq_true_2 in Hrun by done.
        injection Hrun as <- <- <-. exists [], pos, RPAREN, toks.
        split_and!; [done..|]. by left.
      * rewrite (bool_decide_eq_false_2 (tok = RPAREN)) in Hrun by done.
        apply (Hstep start); [done|done|by intros [? _]|done].
Qed.

(** A return of the loop from its start: the import keyword comes first. *)
Lemma findImportBounds_loop_return fuel toks eof start end_ start' end' err :
  findImportBounds_loop fuel (mkScanner toks eof) false start end_ = Ret (start', end', err) →
  ∃ pre p mid pos tok rest,
    toks = pre ++ (p, IMPORT) :: mid ++ (pos, tok) :: rest ∧
    Forall (λ t, t.2 ≠ IMPORT) pre ∧ no_return start mid ∧
    start' = start_after start mid ∧
    ((tok = RPAREN ∧ end' = pos ∧ err = None) ∨
     (tok = STRING ∧ start' = 0 ∧ end' = end_ ∧ err = Some non_block_import)).
Proof.
  revert fuel. induction toks as [|[p tok] toks IH]; intros fuel Hrun.
  { by rewrite findImportBounds_loop_eof in Hrun. }
  destruct fuel as [|fuel]; [done|]. simpl in Hrun.
  destruct (decide (tok = IMPORT)) as [->|Hni].
  - rewrite bool_decide_eq_true_2 in Hrun by done.
    apply findImportBounds_loop_found_return in Hrun
      as (mid & pos0 & tok0 & rest & -> & Hno & -> & Hcase).
    by exists [], p, mid, pos0, tok0, rest.
  - rewrite bool_decide_eq_false_2 in Hrun by done.
    apply IH in Hrun as (pre & p0 & mid & pos0 & tok0 & rest & -> & Hpre & Hno & -> & Hcase).
    exists ((p, tok) :: pre), p0, mid, pos0, tok0, rest.
    split_and!; [done|by constructor|done..].
Qed.

Lemma no_return_no_close start toks :
  no_return start toks → Forall (λ t, t.2 ≠ RPAREN) toks.
Proof.
  revert start. induction toks as [|[pos tok] toks IH]; intros start; [done|].
  simpl. intros (Hr & _ & Hrest). constructor; [done|by eapply IH].
Qed.

End scan.

(** C5 (malformed block at end of stream), the claim as written fails.  The
    tokens of the source
<<
      package p
      import (
>>
    are package, an identifier, a semicolon, import and an open paren; then
    the scanner is at end of file.  No amount of fuel makes the loop
    return: it has no failure of that kind and no exit at [EOF]. *)
Lemma findImportBounds_open_block_no_return :
  let content := String.list_byte_of_string "package p
import (
" in
  let f := mkFile 1 19 [0; 10] [] in
  let scan (_ : File) (_ : list Byte.byte) :=
    [(1, PACKAGE); (9, IDENT); (10, SEMICOLON); (11, IMPORT); (18, LPAREN)] in
  ¬ ∃ fuel, findImportBounds scan fuel (Some f) content [] ≠ OutOfFuel.
Proof.
  intros content f scan [fuel Hfuel]. apply Hfuel. clear Hfuel.
  unfold findImportBounds. simpl.
  do 5 (destruct fuel as [|fuel]; [done|]). simpl.
  apply findImportBounds_loop_eof.
Qed.

(** C5, amended.  findImportBounds has no exit at end of file, and its
    only returns are the two of its loop.

    It does not return when the tokens end after the import keyword
    without a close paren: with no string literal and no close paren
    between the keyword and either the end of the tokens or an open paren,
    and no close paren after that open paren, the loop scans [EOF] for
    ever, whatever the fuel.

    Whenever it returns, the tokens are: tokens without the import
    keyword, the keyword, the tokens [mid] the loop passes over, and the
    token it returns at.  [mid] holds no close paren and no string literal
    met with [start] at 0.  A return without error is at a close paren, the
    first after the keyword: [end] is its position and [start] the position
    of the last open paren of [mid], 0 when there is none.  The other
    return is at a string literal met with [start] at 0, that is, before any
    open paren: the error is "non-block import" and both bounds are 0. *)
Theorem findImportBounds_no_exit_at_eof
    (ScanTokens : File → list Byte.byte → list (Pos * Token))
    f content imp :
  size f = len content →
  (∀ pre p idents block,
     ScanTokens f content = pre ++ (p, IMPORT) :: idents ++ block →
     Forall (λ t, t.2 ≠ IMPORT) pre →
     Forall (λ t, t.2 ≠ STRING ∧ t.2 ≠ RPAREN) idents →
     (block = [] ∨ ∃ q body, block = (q, LPAREN) :: body) →
     Forall (λ t, t.2 ≠ RPAREN ∧ t.1 ≠ NoPos) block →
     ∀ fuel, findImportBounds ScanTokens fuel (Some f) content imp = OutOfFuel) ∧
  (∀ fuel start end_ err,
     findImportBounds ScanTokens fuel (Some f) content imp = Ret (start, end_, err) →
     ∃ pre p mid pos tok rest,
       ScanTokens f content = pre ++ (p, IMPORT) :: mid ++ (pos, tok) :: rest ∧
       Forall (λ t, t.2 ≠ IMPORT) pre ∧
       Forall (λ t, t.2 ≠ RPAREN) mid ∧ no_return 0 mid ∧
       start = start_after 0 mid ∧
       ((tok = RPAREN ∧ end_ = pos ∧ err = None) ∨
        (tok = STRING ∧ start = 0 ∧ end_ = 0 ∧ err = Some non_block_import))).
Proof.
  intros Hsz. split.
  - intros pre p idents block Htoks Hpre Hid Hblock Hall fuel.
    unfold findImportBounds. rewrite bool_decide_eq_false_2 by by intros ?.
    rewrite Htoks. apply findImportBounds_loop_before_import; [done|].
    intros [|fuel']; [done|]. simpl.
    apply findImportBounds_loop_no_return, no_return_app; [done|].
    intros start'. destruct Hblock as [->|(q & body & ->)]; [done|].
    apply Forall_cons in Hall as [[_ Hq] Hall]. simpl in *.
    split_and!; [done|by intros [? _]|].
    by apply no_return_nonzero.
  - intros fuel start end_ err. unfold findImportBounds.
    rewrite bool_decide_eq_false_2 by by intros ?.
    intros (pre & p & mid & pos & tok & rest & Htoks & Hpre & Hno & Hs & Hcase)
      %findImportBounds_loop_return.
    exists pre, p, mid, pos, tok, rest.
    split_and!; [done|done|by eapply no_return_no_close|done|done|done].
Qed.

Lemma findImportBounds_no_exit_at_eof_witness :
  let open := String.list_byte_of_string "package p
import (
" in
  let scan_open (_ : File) (_ : list Byte.byte) :=
    [(1, PACKAGE); (9, IDENT); (10, SEMICOLON); (11, IMPORT); (18, LPAREN)] in
  let closed := String.list_byte_of_string "package p
import (
	`a`
	`b`
)
" in
  let scan_closed (_ : File) (_ : list Byte.byte) :=
    [(1, PACKAGE); (9, IDENT); (10, SEMICOLON); (11, IMPORT); (18, LPAREN);
     (21, STRING); (24, SEMICOLON); (26, STRING); (29, SEMICOLON); (30, RPAREN);
     (31, SEMICOLON)] in
  let f := mkFile 1 31 [0; 10; 19; 24; 29] [] in
  findImportBounds scan_open 1000 (Some (mkFile 1 19 [0; 10] [])) open [] = OutOfFuel ∧
  ∃ pre p mid pos tok rest,
    scan_closed f closed = pre ++ (p, IMPORT) :: mid ++ (pos, tok) :: rest ∧
    Forall (λ t, t.2 ≠ IMPORT) pre ∧
    Forall (λ t, t.2 ≠ RPAREN) mid ∧ no_return 0 mid ∧
    18 = start_after 0 mid ∧
    ((tok = RPAREN ∧ 30 = pos ∧ (None : option string) = None) ∨
     (tok = STRING ∧ 18 = 0 ∧ 30 = 0 ∧ None = Some non_block_import)).
Proof.
  intros open scan_open closed scan_closed f. split.
  - apply (proj1 (findImportBounds_no_exit_at_eof scan_open (mkFile 1 19 [0; 10] []) open []
                    eq_refl)
             [(1, PACKAGE); (9, IDENT); (10, SEMICOLON)] 11 [] [(18, LPAREN)]).
    + reflexivity.
    + concrete.
    + concrete.
    + right. by exists 18, [].
    + concrete.
  - apply (proj2 (findImportBounds_no_exit_at_eof scan_closed f closed [] eq_refl)
             10%nat 18 30 None).
    reflexivity.
Defined.

(** * format *)

(** C7 (not applicable below two entries), the claim as written fails.
    format counts [file.Imports], the import specs of every import
    declaration of the file, not the entries of the block.  A sample source
    with one entry in the block and a second declaration:
<<
      package p            line 1, offsets  0 ..  9
      import (             line 2, offsets 10 .. 18, the paren at 17
      <tab>`a`             line 3, offsets 19 .. 23
      )                    line 4, offsets 24 .. 25
      import `b`           line 5, offsets 26 .. 36
>>
    The bounds findImportBounds returns are Pos 18 and 25 and one import
    spec starts between them; the tree has two.  format does not return
    "doesn't contain multiple imports": it runs findImportBounds, merges
    line 3 with the line of the close paren and calls the printer. *)
Lemma one_entry_block_is_formatted :
  let content := String.list_byte_of_string "package p
import (
	`a`
)
import `b`
" in
  let f := mkFile 1 37 [0; 10; 19; 24; 26] [] in
  let file := mkAstFile [mkImportSpec 21 24; mkImportSpec 34 37] [] in
  let parse (_ : FileSet) (_ : list Byte.byte) := ([f], file, (None : option string)) in
  let scan (_ : File) (_ : list Byte.byte) :=
    [(1, PACKAGE); (9, IDENT); (10, SEMICOLON); (11, IMPORT); (18, LPAREN);
     (21, STRING); (24, SEMICOLON); (25, RPAREN); (26, SEMICOLON); (27, IMPORT);
     (34, STRING); (37, SEMICOLON)] in
  let print (s : FileSet) (_ : AstFile) : list Byte.byte * option string :=
    (content, None) in
  findImportBounds scan 20 (Some f) content (Imports file) = Ret (18, 25, None) ∧
  filter (λ i, 18 < ImportSpec_Pos i < 25) (Imports file) = [mkImportSpec 21 24] ∧
  format parse scan print 20 content =
    Ret ((Some content, None),
         mkWorld [mkFile 1 37 [0; 10; 19; 26] []]
           [CallParseFile; CallFindImportBounds; CallMergeLine 0 3; CallFprint]).
Proof. split_and!; reflexivity. Qed.

(** C7, amended.  When the parser accepts the content and the tree has at
    most one import spec, all import declarations of the file counted,
    format returns no bytes and the error
    "doesn't contain multiple imports", whatever the fuel, the scanner and
    the printer: the log holds the call of the parser and nothing else (no
    findImportBounds, no [MergeLine], no [Fprint]) and the file set is the one
    the parser returned. *)
Theorem format_not_applicable
    (ParseFile : FileSet → list Byte.byte → FileSet * AstFile * option string)
    (ScanTokens : File → list Byte.byte → list (Pos * Token))
    (Fprint : FileSet → AstFile → list Byte.byte * option string)
    fuel content fset file :
  ParseFile NewFileSet content = (fset, file, None) →
  len (Imports file) ≤ 1 →
  format ParseFile ScanTokens Fprint fuel content =
    Ret ((None, Some no_multiple_imports), mkWorld fset [CallParseFile]).
Proof.
  intros Hparse Hlen. unfold format. rewrite Hparse.
  by destruct (Z.leb_spec (len (Imports file)) 1); [|lia].
Qed.

Lemma format_not_applicable_witness :
  let content := String.list_byte_of_string "package p
import (
	`a`
)
" in
  let f := mkFile 1 26 [0; 10; 19; 24] [] in
  let file := mkAstFile [mkImportSpec 21 24] [] in
  let parse (_ : FileSet) (_ : list Byte.byte) := ([f], file, (None : option string)) in
  let scan (_ : File) (_ : list Byte.byte) :=
    [(1, PACKAGE); (9, IDENT); (10, SEMICOLON); (11, IMPORT); (18, LPAREN);
     (21, STRING); (24, SEMICOLON); (25, RPAREN); (26, SEMICOLON)] in
  let print (_ : FileSet) (_ : AstFile) : list Byte.byte * option string :=
    (content, None) in
  format parse scan print 20 content =
    Ret ((None, Some no_multiple_imports), mkWorld [f] [CallParseFile]).
Proof.
  intros content f file parse scan print.
  apply (format_not_applicable parse scan print 20 content [f] file).
  - reflexivity.
  - unfold len. simpl. lia.
Defined.

(** * More on the walk: a second run, and the lines inside a member *)

Section second_run.

Implicit Types (f : File) (ms : list Node) (m : Node).

Lemma squashPair_file_id f curr next :
  pair_gap f curr next ≤ 1 → squashPair_file f curr next = f.
Proof.
  intros Hgap. unfold squashPair_file, pair_merges.
  replace (Z.to_nat (pair_gap f curr next - 1)) with 0%nat by lia.
  rewrite squeeze_0. by destruct f.
Qed.

(** A table with no gap of more than one line is left as it is, with no
    call. *)
Lemma squash_file_fixed ms f :
  (∀ curr next, (curr, next) ∈ neighbours ms → pair_gap f curr next ≤ 1) →
  squash_file ms f = f ∧ squash_calls ms f = [].
Proof.
  induction ms as [|m [|m' rest] IH]; intros Hgaps; [done..|].
  change (squash_file (m :: m' :: rest) f)
    with (squash_file (m' :: rest) (squashPair_file f m m')).
  change (squash_calls (m :: m' :: rest) f)
    with (repeat (CallMergeLine 0 (Line f (Node_End m))) (pair_merges f m m')
            ++ squash_calls (m' :: rest) (squashPair_file f m m')).
  change (neighbours (m :: m' :: rest)) with ((m, m') :: neighbours (m' :: rest)) in Hgaps.
  pose proof (Hgaps m m' ltac:(left)) as Hgap.
  rewrite squashPair_file_id by done.
  destruct IH as [-> ->]; [intros; apply Hgaps; by right|].
  split; [done|]. unfold pair_merges.
  by replace (Z.to_nat (pair_gap f m m' - 1)) with 0%nat by lia.
Qed.

(** The lines between the start and the end of a member are as many after
    the walk as before. *)
Lemma squash_file_span ms f m :
  plain_file f → Forall (node_in_file f) ms → spans_ascending ms → m ∈ ms →
  Line (squash_file ms f) (Node_End m) - Line (squash_file ms f) (Node_Pos m) =
    Line f (Node_End m) - Line f (Node_Pos m).
Proof.
  revert f. induction ms as [|curr [|next rest] IH]; intros f Hok Hin Hasc Hm; [done..|].
  change (squash_file (curr :: next :: rest) f)
    with (squash_file (next :: rest) (squashPair_file f curr next)).
  pose proof Hin as [[_ Hc] [[Hn _] _]%Forall_cons]%Forall_cons.
  pose proof Hin as [_ Hin']%Forall_cons.
  pose proof (squashPair_plain_file f curr next Hok Hc) as Hok1.
  pose proof (spans_ascending_tail _ _ Hasc) as Hasc'.
  rewrite Forall_forall in Hin. destruct (Hin m Hm) as [Hmp Hme].
  apply elem_of_cons in Hm as [->|Hm].
  - destruct (spans_ascending_ends _ _ _ Hasc) as [He _].
    destruct Hasc as [Hwf _]. apply Forall_cons in Hwf as [Hwf _].
    rewrite !squash_file_Line_before; try done.
    + rewrite !Line_squashPair_before by (done || lia). done.
    + eapply Forall_impl; [exact He|]. simpl. lia.
  - rewrite IH by done.
    destruct (spans_ascending_from _ _ _ Hasc' Hm).
    rewrite !Line_squashPair_after by done. lia.
Qed.

End second_run.

(** X1.  On a file without [//line] directives, a second run of the
    squasher on the set the first run left makes no call and changes
    nothing. *)
Theorem squash_twice_is_squash_once f log posStart posEnd imp cm :
  file_ok f → infos f = [] → 2 ≤ len imp →
  Forall (import_in_file f) imp → Forall (comment_in_file f) cm →
  spans_ok imp cm →
  ∃ w',
    squashBlankImportLines posStart posEnd imp cm (mkWorld [f] log) = Ret w' ∧
    squashBlankImportLines posStart posEnd imp cm w' = Ret w'.
Proof.
  intros Hok0 Hni. assert (plain_file f) as Hok by done.
  intros Hlen Hi Hc Hsp.
  destruct (squashBlankImportLines_walk f log posStart posEnd imp cm)
    as (Hrun & Hin & Hasc); [done..|].
  set (ms := walk imp (filter (in_block posStart posEnd) cm)) in *.
  eexists. split; [exact Hrun|].
  pose proof (squash_plain_file ms f Hok Hin) as Hok'.
  destruct (squashBlankImportLines_walk (squash_file ms f) (log ++ squash_calls ms f)
              posStart posEnd imp cm) as (Hrun' & _ & _); [done|done|..|done|].
  - eapply Forall_impl; [exact Hi|]. unfold import_in_file.
    intros i. by rewrite !squash_file_in_file.
  - eapply Forall_impl; [exact Hc|]. unfold comment_in_file.
    intros c. by rewrite !squash_file_in_file.
  - fold ms in Hrun'. rewrite Hrun'.
    destruct (squash_file_fixed ms (squash_file ms f)) as [-> ->].
    + intros curr next Hpair. rewrite squash_file_gap by done. lia.
    + by rewrite app_nil_r.
Qed.

Lemma squash_twice_is_squash_once_witness :
  ∃ w',
    squashBlankImportLines 18 39 sample_imports sample_comments
      (mkWorld [sample_file] []) = Ret w' ∧
    squashBlankImportLines 18 39 sample_imports sample_comments w' = Ret w'.
Proof.
  apply (squash_twice_is_squash_once sample_file [] 18 39 sample_imports sample_comments).
  - exact sample_file_ok.
  - reflexivity.
  - unfold len. simpl. lia.
  - concrete.
  - concrete.
  - exact sample_spans_ok.
Defined.

(** X2.  On a file without [//line] directives, the squasher leaves the
    lines inside every member alone: the line of a member's [End()] and the
    line of its [Pos()] differ after the run as they did before. *)
Theorem squash_keeps_member_lines f log posStart posEnd imp cm :
  file_ok f → infos f = [] → 2 ≤ len imp →
  Forall (import_in_file f) imp → Forall (comment_in_file f) cm →
  spans_ok imp cm →
  ∃ f' log',
    squashBlankImportLines posStart posEnd imp cm (mkWorld [f] log) =
      Ret (mkWorld [f'] log') ∧
    ∀ m, m ∈ walk imp (filter (in_block posStart posEnd) cm) →
      Line f' (Node_End m) - Line f' (Node_Pos m) =
        Line f (Node_End m) - Line f (Node_Pos m).
Proof.
  intros Hok0 Hni. assert (plain_file f) as Hok by done.
  intros Hlen Hi Hc Hsp.
  destruct (squashBlankImportLines_walk f log posStart posEnd imp cm)
    as (Hrun & Hin & Hasc); [done..|].
  eexists _, _. split; [exact Hrun|].
  intros m Hm. by apply squash_file_span.
Qed.

Lemma squash_keeps_member_lines_witness :
  ∃ f' log',
    squashBlankImportLines 18 51 mixed_imports mixed_comments
      (mkWorld [mixed_file] []) = Ret (mkWorld [f'] log') ∧
    ∀ m, m ∈ walk mixed_imports (filter (in_block 18 51) mixed_comments) →
      Line f' (Node_End m) - Line f' (Node_Pos m) =
        Line mixed_file (Node_End m) - Line mixed_file (Node_Pos m).
Proof.
  apply (squash_keeps_member_lines mixed_file [] 18 51 mixed_imports mixed_comments).
  - exact mixed_file_ok.
  - reflexivity.
  - unfold len. simpl. lia.
  - concrete.
  - concrete.
  - exact mixed_spans_ok.
Defined.

(** In [mixed_file] the second comment group spans lines 6 and 7 before the
    run and lines 5 and 6 after it. *)
Example mixed_comment_group_span :
  let c := mkCommentGroup 33 43 in
  let f' := mkFile 1 52 [0; 10; 19; 24; 31; 37; 45; 50] [] in
  (Line mixed_file (CommentGroup_Pos c), Line mixed_file (CommentGroup_End c)) = (6, 7) ∧
  (Line f' (CommentGroup_Pos c), Line f' (CommentGroup_End c)) = (5, 6).
Proof. split; reflexivity. Qed.

(** * findImportBounds: the two returns *)

Section scan_returns.

Implicit Types (toks pre rest : list (Pos * Token)) (start eof : Pos).

(** Before the import keyword every other token is passed over. *)
Lemma findImportBounds_loop_skip_before fuel pre rest start end_ eof :
  Forall (λ t, t.2 ≠ IMPORT) pre →
  findImportBounds_loop (length pre + fuel) (mkScanner (pre ++ rest) eof) false start end_ =
    findImportBounds_loop fuel (mkScanner rest eof) false start end_.
Proof.
  induction 1 as [|[pos tok] pre Ht _ IH]; [done|]. simpl in *.
  by rewrite bool_decide_eq_false_2.
Qed.

(** After it, tokens that are no string literal and no paren are passed
    over, and so is a string literal once an open paren has been seen. *)
Lemma findImportBounds_loop_skip_after fuel toks rest start end_ eof :
  Forall (λ t, t.2 ≠ LPAREN ∧ t.2 ≠ RPAREN ∧ ¬ (t.2 = STRING ∧ start = 0)) toks →
  findImportBounds_loop (length toks + fuel) (mkScanner (toks ++ rest) eof) true start end_ =
    findImportBounds_loop fuel (mkScanner rest eof) true start end_.
Proof.
  induction 1 as [|[pos tok] toks (Hl & Hr & Hs) _ IH]; [done|]. simpl in *.
  rewrite (bool_decide_eq_false_2 (tok = LPAREN)) by done.
  rewrite (bool_decide_eq_false_2 (tok = RPAREN)) by done.
  destruct (decide (tok = STRING)) as [->|Hns].
  - rewrite bool_decide_eq_true_2 by done.
    destruct (Z.eqb_spec start 0); [by destruct Hs|]. done.
  - by rewrite bool_decide_eq_false_2.
Qed.

End scan_returns.

(** X3.  Bare-member detection: with a string literal after the import keyword
    and no paren before it, findImportBounds returns the error
    "non-block import", given fuel for the tokens up to the literal. *)
Theorem findImportBounds_non_block
    (ScanTokens : File → list Byte.byte → list (Pos * Token))
    f content imp pre p idents q rest fuel :
  size f = len content →
  ScanTokens f content = pre ++ (p, IMPORT) :: idents ++ (q, STRING) :: rest →
  Forall (λ t, t.2 ≠ IMPORT) pre →
  Forall (λ t, t.2 ≠ LPAREN ∧ t.2 ≠ RPAREN ∧ t.2 ≠ STRING) idents →
  (length pre + length idents + 2 ≤ fuel)%nat →
  findImportBounds ScanTokens fuel (Some f) content imp =
    Ret (0, 0, Some non_block_import).
Proof.
  intros Hsz Htoks Hpre Hid Hfuel.
  unfold findImportBounds. rewrite bool_decide_eq_false_2 by by intros ?.
  rewrite Htoks.
  replace fuel with (length pre + S (length idents + S (fuel - length pre - length idents - 2)))%nat
    by lia.
  rewrite findImportBounds_loop_skip_before by done. simpl.
  rewrite findImportBounds_loop_skip_after; [done|].
  eapply Forall_impl; [exact Hid|]. simpl. intros t (? & ? & ?).
  split_and!; [done..|]. by intros [? _].
Qed.

Lemma findImportBounds_non_block_witness :
  let content := String.list_byte_of_string "package p
import `x`
" in
  let scan (_ : File) (_ : list Byte.byte) :=
    [(1, PACKAGE); (9, IDENT); (10, SEMICOLON); (11, IMPORT); (18, STRING); (21, SEMICOLON)] in
  findImportBounds scan 5 (Some (mkFile 1 21 [0; 10] [])) content [] =
    Ret (0, 0, Some non_block_import).
Proof.
  apply (findImportBounds_non_block _ (mkFile 1 21 [0; 10] []) _ []
           [(1, PACKAGE); (9, IDENT); (10, SEMICOLON)] 11 [] 18 [(21, SEMICOLON)] 5).
  - reflexivity.
  - reflexivity.
  - concrete.
  - concrete.
  - simpl. lia.
Defined.

Lemma findImportBounds_returns_bounds
    (ScanTokens : File → list Byte.byte → list (Pos * Token))
    f content imp pre p idents q body r rest fuel :
  size f = len content →
  ScanTokens f content =
    pre ++ (p, IMPORT) :: idents ++ (q, LPAREN) :: body ++ (r, RPAREN) :: rest →
  Forall (λ t, t.2 ≠ IMPORT) pre →
  Forall (λ t, t.2 ≠ LPAREN ∧ t.2 ≠ RPAREN ∧ t.2 ≠ STRING) idents →
  q ≠ NoPos →
  Forall (λ t, t.2 ≠ LPAREN ∧ t.2 ≠ RPAREN) body →
  (length pre + length idents + length body + 3 ≤ fuel)%nat →
  findImportBounds ScanTokens fuel (Some f) content imp = Ret (q, r, None).
Proof.
  intros Hsz Htoks Hpre Hid Hq Hbody Hfuel.
  unfold findImportBounds. rewrite bool_decide_eq_false_2 by by intros ?.
  rewrite Htoks.
  replace fuel with
    (length pre + S (length idents + S (length body +
       S (fuel - length pre - length idents - length body - 3))))%nat by lia.
  rewrite findImportBounds_loop_skip_before by done. simpl.
  rewrite findImportBounds_loop_skip_after.
  2: { eapply Forall_impl; [exact Hid|]. simpl. intros t (? & ? & ?).
       split_and!; [done..|]. by intros [? _]. }
  simpl. rewrite findImportBounds_loop_skip_after; [done|].
  eapply Forall_impl; [exact Hbody|]. simpl. intros t (? & ?).
  split_and!; [done..|]. by intros [_ ?].
Qed.

(** X4.  The bounds of a block: with an open paren after the import keyword (no
    string literal and no other paren in between) and a close paren after
    it (no other paren in between), findImportBounds returns the positions
    of the two parens and no error, given fuel for the tokens up to the
    close paren. *)
Theorem findImportBounds_block
    (ScanTokens : File → list Byte.byte → list (Pos * Token))
    f content imp pre p idents q body r rest fuel :
  size f = len content →
  ScanTokens f content =
    pre ++ (p, IMPORT) :: idents ++ (q, LPAREN) :: body ++ (r, RPAREN) :: rest →
  Forall (λ t, t.2 ≠ IMPORT) pre →
  Forall (λ t, t.2 ≠ LPAREN ∧ t.2 ≠ RPAREN ∧ t.2 ≠ STRING) idents →
  q ≠ NoPos →
  Forall (λ t, t.2 ≠ LPAREN ∧ t.2 ≠ RPAREN) body →
  (length pre + length idents + length body + 3 ≤ fuel)%nat →
  findImportBounds ScanTokens fuel (Some f) content imp = Ret (q, r, None).
Proof. apply findImportBounds_returns_bounds. Qed.

Lemma findImportBounds_block_witness :
  let content := String.list_byte_of_string "package p
import (
	`x`
	`y`
)
" in
  let scan (_ : File) (_ : list Byte.byte) :=
    [(1, PACKAGE); (9, IDENT); (10, SEMICOLON); (11, IMPORT); (18, LPAREN);
     (21, STRING); (24, SEMICOLON); (26, STRING); (29, SEMICOLON); (30, RPAREN);
     (31, SEMICOLON)] in
  findImportBounds scan 10 (Some (mkFile 1 31 [0; 10; 19; 24; 29] [])) content [] =
    Ret (18, 30, None).
Proof.
  apply (findImportBounds_block _ (mkFile 1 31 [0; 10; 19; 24; 29] []) _ []
           [(1, PACKAGE); (9, IDENT); (10, SEMICOLON)] 11 [] 18
           [(21, STRING); (24, SEMICOLON); (26, STRING); (29, SEMICOLON)] 30
           [(31, SEMICOLON)] 10).
  - reflexivity.
  - reflexivity.
  - concrete.
  - concrete.
  - done.
  - concrete.
  - simpl. lia.
Defined.

(** * format: the run that prints *)

(** X5.  With a parsed file without [//line] directives, of at least two
    import specs and with a block that findImportBounds finds, format runs the stages in order (parse, locate,
    squash, print) and returns what the printer makes of the tree and the
    squashed table: its bytes, or its error with no bytes. *)
Theorem format_squashes_and_prints
    (ParseFile : FileSet → list Byte.byte → FileSet * AstFile * option string)
    (ScanTokens : File → list Byte.byte → list (Pos * Token))
    (Fprint : FileSet → AstFile → list Byte.byte * option string)
    fuel content f file pre p idents q body r rest :
  ParseFile NewFileSet content = ([f], file, None) →
  base f = 1 → size f = len content → file_ok f → infos f = [] →
  1 < len (Imports file) →
  Forall (import_in_file f) (Imports file) →
  Forall (comment_in_file f) (Comments file) →
  spans_ok (Imports file) (Comments file) →
  ScanTokens f content =
    pre ++ (p, IMPORT) :: idents ++ (q, LPAREN) :: body ++ (r, RPAREN) :: rest →
  Forall (λ t, t.2 ≠ IMPORT) pre →
  Forall (λ t, t.2 ≠ LPAREN ∧ t.2 ≠ RPAREN ∧ t.2 ≠ STRING) idents →
  q ≠ NoPos →
  Forall (λ t, t.2 ≠ LPAREN ∧ t.2 ≠ RPAREN) body →
  (length pre + length idents + length body + 3 ≤ fuel)%nat →
  let members := walk (Imports file) (filter (in_block q r) (Comments file)) in
  let f' := squash_file members f in
  format ParseFile ScanTokens Fprint fuel content =
    Ret (match Fprint [f'] file with
         | (buf, None) => (Some buf, None)
         | (_, Some e) => (None, Some e)
         end,
         mkWorld [f']
           ([CallParseFile; CallFindImportBounds] ++ squash_calls members f ++ [CallFprint])).
Proof.
  intros Hparse Hb Hsz Hok0 Hni. assert (plain_file f) as Hok by done.
  intros Hlen Hi Hc Hsp Htoks Hpre Hid Hq Hbody Hfuel members f'.
  unfold format. rewrite Hparse.
  destruct (Z.leb_spec (len (Imports file)) 1); [lia|].
  assert (FileOf [f] 1 = Some 0%nat) as ->.
  { apply FileOf_single; [lia|]. unfold in_file, len in *. lia. }
  change (Some 0%nat ≫= λ fi, [f] !! fi) with (Some f).
  erewrite findImportBounds_returns_bounds by done.
  rewrite res_bind_Ret. cbn [w_fset w_log app].
  destruct (squashBlankImportLines_walk f [CallParseFile; CallFindImportBounds] q r
              (Imports file) (Comments file)) as (Hrun & _ & _); [done|lia|done..|].
  rewrite Hrun, res_bind_Ret. fold members f'. cbn [w_fset w_log].
  rewrite <-app_assoc. by destruct (Fprint [f'] file) as [buf [e|]].
Qed.

Lemma format_squashes_and_prints_witness :
  let content := String.list_byte_of_string "package p
import (
	`a`

	`b`
)
" in
  let f := mkFile 1 32 [0; 10; 19; 24; 25; 30] [] in
  let file := mkAstFile [mkImportSpec 21 24; mkImportSpec 27 30] [] in
  let parse (_ : FileSet) (_ : list Byte.byte) := ([f], file, None) in
  let scan (_ : File) (_ : list Byte.byte) :=
    [(1, PACKAGE); (9, IDENT); (10, SEMICOLON); (11, IMPORT); (18, LPAREN);
     (21, STRING); (24, SEMICOLON); (27, STRING); (30, SEMICOLON); (31, RPAREN);
     (32, SEMICOLON)] in
  let print (s : FileSet) (_ : AstFile) : list Byte.byte * option string :=
    (content, None) in
  let members := walk (Imports file) (filter (in_block 18 31) (Comments file)) in
  let f' := squash_file members f in
  format parse scan print 10 content =
    Ret (match print [f'] file with
         | (buf, None) => (Some buf, None)
         | (_, Some e) => (None, Some e)
         end,
         mkWorld [f']
           ([CallParseFile; CallFindImportBounds] ++ squash_calls members f ++ [CallFprint])).
Proof.
  intros content f file parse scan print.
  apply (format_squashes_and_prints parse scan print 10 content f file
           [(1, PACKAGE); (9, IDENT); (10, SEMICOLON)] 11 [] 18
           [(21, STRING); (24, SEMICOLON); (27, STRING); (30, SEMICOLON)] 31
           [(32, SEMICOLON)]).
  - reflexivity.
  - reflexivity.
  - reflexivity.
  - concrete.
  - reflexivity.
  - unfold len. simpl. lia.
  - concrete.
  - concrete.
  - concrete. all: lia.
  - reflexivity.
  - concrete.
  - concrete.
  - done.
  - concrete.
  - simpl. lia.
Defined.

(** * More of main.go: the squasher, the walk, the reslice *)

Section squash_safety.

Implicit Types (f : File) (ms : list Node).

Lemma squash_calls_lines ms f :
  plain_file f → Forall (node_in_file f) ms →
  Forall (λ c, ∃ line, c = CallMergeLine 0 line ∧ 1 ≤ line) (squash_calls ms f).
Proof.
  revert f. induction ms as [|curr [|next rest] IH]; intros f Hok Hin; [done..|].
  change (squash_calls (curr :: next :: rest) f)
    with (repeat (CallMergeLine 0 (Line f (Node_End curr))) (pair_merges f curr next)
            ++ squash_calls (next :: rest) (squashPair_file f curr next)).
  pose proof Hin as [[_ Hc] Hin']%Forall_cons.
  apply Forall_app. split.
  - apply Forall_forall. intros c Hc'%list_elem_of_In%repeat_spec.
    exists (Line f (Node_End curr)). split; [done|]. by apply Line_ge_1.
  - apply IH; [by apply squashPair_plain_file|done].
Qed.

End squash_safety.

(** X6.  On a well-formed line table without [//line] directives, with
    every import spec and comment group positioned in the file (in any
    order, overlapping or not), the squasher returns: no [MergeLine] gets a
    line number it panics on.  The table it leaves is well formed again and
    still without directives, the file has its base and size,
    line starts are only taken out, and every call is a [MergeLine] on the
    one file with a line number of at least 1. *)
Theorem squash_keeps_table_well_formed f log posStart posEnd imp cm :
  file_ok f → infos f = [] →
  Forall (import_in_file f) imp → Forall (comment_in_file f) cm →
  ∃ f' calls,
    squashBlankImportLines posStart posEnd imp cm (mkWorld [f] log) =
      Ret (mkWorld [f'] (log ++ calls)) ∧
    file_ok f' ∧ infos f' = [] ∧ base f' = base f ∧ size f' = size f ∧
    lines f' `sublist_of` lines f ∧
    Forall (λ c, ∃ line, c = CallMergeLine 0 line ∧ 1 ≤ line) calls.
Proof.
  intros Hok0 Hni. assert (plain_file f) as Hok by done.
  intros Hi Hc.
  destruct (Z.ltb_spec (len imp) 2) as [Hlen|Hlen].
  - exists f, []. unfold squashBlankImportLines.
    destruct (Z.ltb_spec (len imp) 2); [|lia].
    rewrite app_nil_r. destruct Hok. by split_and!.
  - destruct (squashBlankImportLines_single f log posStart posEnd imp cm)
      as (cm' & _ & Hsub & Hrun); [done..|].
    assert (Forall (node_in_file f) (walk imp cm')) as Hin.
    { apply walk_in_file; [done|]. by eapply Forall_sublist. }
    eexists _, _. split; [exact Hrun|].
    destruct (squash_file_base_size (walk imp cm') f) as [Hb Hsz].
    destruct (squash_plain_file (walk imp cm') f Hok Hin) as [Hok' Hni'].
    split_and!; [done|done|done|done|apply squash_file_sublist|].
    by apply squash_calls_lines.
Qed.

Lemma squash_keeps_table_well_formed_witness :
  ∃ f' calls,
    squashBlankImportLines 18 39 sample_imports sample_comments (mkWorld [sample_file] []) =
      Ret (mkWorld [f'] ([] ++ calls)) ∧
    file_ok f' ∧ infos f' = [] ∧ base f' = base sample_file ∧ size f' = size sample_file ∧
    lines f' `sublist_of` lines sample_file ∧
    Forall (λ c, ∃ line, c = CallMergeLine 0 line ∧ 1 ≤ line) calls.
Proof.
  apply (squash_keeps_table_well_formed sample_file [] 18 39 sample_imports sample_comments).
  - exact sample_file_ok.
  - reflexivity.
  - concrete.
  - concrete.
Defined.

Section walk_order.

Implicit Types (imp : list ImportSpec) (cm : list CommentGroup).

Lemma imports_of_imports imp : imports_of (ImportNode <$> imp) = imp.
Proof. induction imp as [|i imp IH]; [done|]. unfold imports_of in *. simpl. by f_equal. Qed.

Lemma imports_of_comments cm : imports_of (CommentNode <$> cm) = [].
Proof. induction cm as [|c cm IH]; [done|]. unfold imports_of in *. by simpl. Qed.

Lemma comments_of_comments cm : comments_of (CommentNode <$> cm) = cm.
Proof. induction cm as [|c cm IH]; [done|]. unfold comments_of in *. simpl. by f_equal. Qed.

Lemma comments_of_imports imp : comments_of (ImportNode <$> imp) = [].
Proof. induction imp as [|i imp IH]; [done|]. unfold comments_of in *. by simpl. Qed.

Lemma imports_of_walk imp cm : imports_of (walk imp cm) = imp.
Proof.
  revert cm. induction imp as [|i imp IHimp]; intros cm.
  { apply imports_of_comments. }
  induction cm as [|c cm IHcm].
  { rewrite walk_nil_r. apply imports_of_imports. }
  rewrite walk_cons_cons. destruct (decide _).
  - unfold imports_of in *. simpl. f_equal. apply IHimp.
  - unfold imports_of in *. simpl. apply IHcm.
Qed.

Lemma comments_of_walk imp cm : comments_of (walk imp cm) = cm.
Proof.
  revert cm. induction imp as [|i imp IHimp]; intros cm.
  { apply comments_of_comments. }
  induction cm as [|c cm IHcm].
  { rewrite walk_nil_r. apply comments_of_imports. }
  rewrite walk_cons_cons. destruct (decide _).
  - unfold comments_of in *. simpl. apply IHimp.
  - unfold comments_of in *. simpl. f_equal. apply IHcm.
Qed.

Lemma walk_pos_sorted imp cm :
  StronglySorted (λ i i', ImportSpec_Pos i ≤ ImportSpec_Pos i') imp →
  pos_ascending cm →
  StronglySorted (λ m m', Node_Pos m ≤ Node_Pos m') (walk imp cm).
Proof.
  intros Hi Hc. revert cm Hc. induction Hi as [|i imp Hi IHimp Halli]; intros cm Hc.
  { simpl. eapply StronglySorted_fmap; [|exact Hc]. done. }
  induction Hc as [|c cm Hc IHcm Hallc].
  { rewrite walk_nil_r. eapply StronglySorted_fmap; [|by constructor]. done. }
  rewrite walk_cons_cons.
  destruct (decide (ImportSpec_Pos i < CommentGroup_Pos c)) as [Hlt|Hge].
  - constructor; [apply IHimp; by constructor|].
    apply Forall_forall. intros m Hm.
    apply walk_elem_of in Hm as [Hm|Hm];
      apply list_elem_of_fmap in Hm as (x & -> & Hx); simpl.
    + rewrite Forall_forall in Halli. by apply Halli.
    + apply elem_of_cons in Hx as [->|Hx]; [lia|].
      rewrite Forall_forall in Hallc. specialize (Hallc x Hx). simpl in Hallc. lia.
  - constructor; [apply IHcm|].
    apply Forall_forall. intros m Hm.
    apply walk_elem_of in Hm as [Hm|Hm];
      apply list_elem_of_fmap in Hm as (x & -> & Hx); simpl.
    + apply elem_of_cons in Hx as [->|Hx]; [lia|].
      rewrite Forall_forall in Halli. specialize (Halli x Hx). simpl in Halli. lia.
    + rewrite Forall_forall in Hallc. by apply Hallc.
Qed.

End walk_order.

(** X7.  The merge walk keeps both orders and loses nothing: the rounds of
    the loop of squashBlankImportLines are those over the neighbours of one
    list of nodes, in which the import specs are the given ones in the given
    order and the comment groups are the given ones in the given order. *)
Theorem merge_walk_keeps_both_orders imp cm w :
  squash_loop (S (length imp + length cm)) imp cm 0 0 w = squash_pairs (walk imp cm) w ∧
  imports_of (walk imp cm) = imp ∧
  comments_of (walk imp cm) = cm ∧
  length (walk imp cm) = (length imp + length cm)%nat.
Proof.
  split_and!.
  - rewrite squash_loop_walk; [done|unfold len; lia..].
  - apply imports_of_walk.
  - apply comments_of_walk.
  - revert cm. induction imp as [|i imp IHimp]; intros cm.
    { simpl. by rewrite length_fmap. }
    induction cm as [|c cm IHcm].
    { rewrite walk_nil_r, length_fmap. simpl. lia. }
    rewrite walk_cons_cons. destruct (decide _); simpl.
    + rewrite IHimp. simpl. lia.
    + simpl in IHcm. rewrite IHcm. lia.
Qed.

Section choose_order.

Implicit Types (imp : list ImportSpec) (cm : list CommentGroup).

Lemma drop_eq_length {A} (l : list A) (j j' : nat) :
  (j ≤ length l)%nat → (j' ≤ length l)%nat → drop j l = drop j' l → j = j'.
Proof.
  intros Hj Hj' Heq. apply (f_equal length) in Heq. rewrite !length_drop in Heq. lia.
Qed.

Lemma drop_cons_length {A} (l : list A) (x : A) (j j' : nat) :
  (j ≤ length l)%nat → (j' ≤ length l)%nat → drop j l = x :: drop j' l →
  j' = S j ∧ l !! j = Some x.
Proof.
  intros Hj Hj' Heq. split.
  - apply (f_equal length) in Heq. simpl in Heq. rewrite !length_drop in Heq. lia.
  - apply (f_equal (λ k, k !! 0%nat)) in Heq. rewrite lookup_drop in Heq.
    by rewrite Nat.add_0_r in Heq.
Qed.

(** The node chooseNext returns, the index it moves, and the nodes still to
    come. *)
Lemma chooseNext_least imp cm impIdx cmIdx :
  StronglySorted (λ i i', ImportSpec_Pos i ≤ ImportSpec_Pos i') imp →
  pos_ascending cm →
  0 ≤ impIdx ≤ len imp → 0 ≤ cmIdx ≤ len cm →
  impIdx < len imp ∨ cmIdx < len cm →
  ∃ n impIdx' cmIdx',
    chooseNext imp cm impIdx cmIdx true = Ret (n, (impIdx', cmIdx')) ∧
    chooseNext imp cm impIdx cmIdx false = Ret (n, (impIdx, cmIdx)) ∧
    ((∃ i, n = ImportNode i ∧ imp !! Z.to_nat impIdx = Some i ∧
           impIdx' = impIdx + 1 ∧ cmIdx' = cmIdx) ∨
     (∃ c, n = CommentNode c ∧ cm !! Z.to_nat cmIdx = Some c ∧
           impIdx' = impIdx ∧ cmIdx' = cmIdx + 1)) ∧
    Forall (λ i, Node_Pos n ≤ ImportSpec_Pos i) (drop (Z.to_nat impIdx) imp) ∧
    Forall (λ c, Node_Pos n ≤ CommentGroup_Pos c) (drop (Z.to_nat cmIdx) cm).
Proof.
  intros Hsi Hsc Hi Hc Hne.
  destruct (chooseNext_walk imp cm impIdx cmIdx true Hi Hc Hne)
    as (n & impIdx' & cmIdx' & Hrun & Hwalk & _ & Hi' & Hc' & Hsum).
  destruct (chooseNext_walk imp cm impIdx cmIdx false Hi Hc Hne)
    as (n0 & i0 & c0 & Hrun0 & Hwalk0 & _).
  assert (n0 = n) as -> by congruence.
  exists n, impIdx', cmIdx'. split; [done|]. split; [done|].
  assert (StronglySorted (λ m m', Node_Pos m ≤ Node_Pos m')
            (walk (drop (Z.to_nat impIdx) imp) (drop (Z.to_nat cmIdx) cm))) as Hs.
  { apply walk_pos_sorted; (eapply StronglySorted_sublist; [|done]); apply sublist_drop. }
  pose proof (imports_of_walk (drop (Z.to_nat impIdx) imp) (drop (Z.to_nat cmIdx) cm)) as Himp.
  pose proof (comments_of_walk (drop (Z.to_nat impIdx) imp) (drop (Z.to_nat cmIdx) cm)) as Hcm.
  rewrite Hwalk in Hs, Himp, Hcm.
  apply StronglySorted_inv in Hs as [_ Hall]. rewrite Forall_forall in Hall.
  unfold len in *. split_and!.
  - destruct n as [i|c]; [left; exists i|right; exists c].
    + unfold imports_of, comments_of in Himp, Hcm. simpl in Himp, Hcm.
      fold (imports_of (walk (drop (Z.to_nat impIdx') imp) (drop (Z.to_nat cmIdx') cm))) in Himp.
      fold (comments_of (walk (drop (Z.to_nat impIdx') imp) (drop (Z.to_nat cmIdx') cm))) in Hcm.
      rewrite imports_of_walk in Himp. rewrite comments_of_walk in Hcm.
      symmetry in Himp. apply drop_cons_length in Himp as [? ?]; [|lia..].
      split_and!; [done|done|lia|lia].
    + unfold imports_of, comments_of in Himp, Hcm. simpl in Himp, Hcm.
      fold (imports_of (walk (drop (Z.to_nat impIdx') imp) (drop (Z.to_nat cmIdx') cm))) in Himp.
      fold (comments_of (walk (drop (Z.to_nat impIdx') imp) (drop (Z.to_nat cmIdx') cm))) in Hcm.
      rewrite imports_of_walk in Himp. rewrite comments_of_walk in Hcm.
      symmetry in Hcm. apply drop_cons_length in Hcm as [? ?]; [|lia..].
      split_and!; [done|done|lia|lia].
  - apply Forall_forall. intros x Hx.
    assert (ImportNode x ∈ walk (drop (Z.to_nat impIdx) imp) (drop (Z.to_nat cmIdx) cm)) as Hin.
    { pose proof (imports_of_walk (drop (Z.to_nat impIdx) imp) (drop (Z.to_nat cmIdx) cm)) as H.
      rewrite <-H in Hx. unfold imports_of in Hx.
      apply list_elem_of_omap in Hx as ([y|y] & Hy & [= ->]). done. }
    rewrite Hwalk in Hin. apply elem_of_cons in Hin as [<-|Hin]; [done|].
    by apply (Hall _ Hin).
  - apply Forall_forall. intros x Hx.
    assert (CommentNode x ∈ walk (drop (Z.to_nat impIdx) imp) (drop (Z.to_nat cmIdx) cm)) as Hin.
    { pose proof (comments_of_walk (drop (Z.to_nat impIdx) imp) (drop (Z.to_nat cmIdx) cm)) as H.
      rewrite <-H in Hx. unfold comments_of in Hx.
      apply list_elem_of_omap in Hx as ([y|y] & Hy & [= ->]). done. }
    rewrite Hwalk in Hin. apply elem_of_cons in Hin as [<-|Hin]; [done|].
    by apply (Hall _ Hin).
Qed.

End choose_order.

(** X8.  chooseNext hands the nodes to the loop in ascending position
    order.  When the import specs and the comment groups are each in
    ascending position order and one of the two indices is inside its list,
    the node a call returns is the import spec at [impIdx] or the comment
    group at [cmIdx], with [inc] the index of that list moves on by one and
    without [inc] no index moves, and the node starts no later than any
    import spec from [impIdx] on and any comment group from [cmIdx] on: no
    node still to come starts before it.  So the rounds of the loop of
    squashBlankImportLines are those over the neighbours of a list that
    ascends by position. *)
Theorem merge_walk_is_position_ascending imp cm impIdx cmIdx w :
  StronglySorted (λ i i', ImportSpec_Pos i ≤ ImportSpec_Pos i') imp →
  StronglySorted (λ c c', CommentGroup_Pos c ≤ CommentGroup_Pos c') cm →
  0 ≤ impIdx ≤ len imp → 0 ≤ cmIdx ≤ len cm →
  impIdx < len imp ∨ cmIdx < len cm →
  (∃ n impIdx' cmIdx',
     chooseNext imp cm impIdx cmIdx true = Ret (n, (impIdx', cmIdx')) ∧
     chooseNext imp cm impIdx cmIdx false = Ret (n, (impIdx, cmIdx)) ∧
     ((∃ i, n = ImportNode i ∧ imp !! Z.to_nat impIdx = Some i ∧
            impIdx' = impIdx + 1 ∧ cmIdx' = cmIdx) ∨
      (∃ c, n = CommentNode c ∧ cm !! Z.to_nat cmIdx = Some c ∧
            impIdx' = impIdx ∧ cmIdx' = cmIdx + 1)) ∧
     Forall (λ i, Node_Pos n ≤ ImportSpec_Pos i) (drop (Z.to_nat impIdx) imp) ∧
     Forall (λ c, Node_Pos n ≤ CommentGroup_Pos c) (drop (Z.to_nat cmIdx) cm)) ∧
  squash_loop (S (length imp + length cm)) imp cm 0 0 w = squash_pairs (walk imp cm) w ∧
  StronglySorted (λ m m', Node_Pos m ≤ Node_Pos m') (walk imp cm).
Proof.
  intros Hsi Hsc Hi Hc Hne. split_and!.
  - by apply chooseNext_least.
  - rewrite squash_loop_walk; [done|unfold len; lia..].
  - by apply walk_pos_sorted.
Qed.

Lemma merge_walk_is_position_ascending_witness :
  let imp := [mkImportSpec 21 24; mkImportSpec 28 31; mkImportSpec 35 38] in
  let cm := [mkCommentGroup 5 9; mkCommentGroup 28 32; mkCommentGroup 40 44] in
  let w := mkWorld [sample_file] [] in
  (∃ n impIdx' cmIdx',
     chooseNext imp cm 1 1 true = Ret (n, (impIdx', cmIdx')) ∧
     chooseNext imp cm 1 1 false = Ret (n, (1, 1)) ∧
     ((∃ i, n = ImportNode i ∧ imp !! Z.to_nat 1 = Some i ∧
            impIdx' = 1 + 1 ∧ cmIdx' = 1) ∨
      (∃ c, n = CommentNode c ∧ cm !! Z.to_nat 1 = Some c ∧
            impIdx' = 1 ∧ cmIdx' = 1 + 1)) ∧
     Forall (λ i, Node_Pos n ≤ ImportSpec_Pos i) (drop (Z.to_nat 1) imp) ∧
     Forall (λ c, Node_Pos n ≤ CommentGroup_Pos c) (drop (Z.to_nat 1) cm)) ∧
  squash_loop (S (length imp + length cm)) imp cm 0 0 w = squash_pairs (walk imp cm) w ∧
  StronglySorted (λ m m', Node_Pos m ≤ Node_Pos m') (walk imp cm).
Proof.
  intros imp cm w.
  apply (merge_walk_is_position_ascending imp cm 1 1 w); concrete.
Defined.

(** X9.  Whatever the order of the comment list and whatever the bounds,
    resliceComments returns (its slice expression is never out of range),
    and what it returns is one run of the list. *)
Theorem resliceComments_never_panics posStart posEnd cm :
  ∃ before kept after,
    resliceComments posStart posEnd cm = Ret kept ∧ cm = before ++ kept ++ after.
Proof.
  destruct (resliceComments_total posStart posEnd cm) as (j & n & Hr).
  exists (take j cm), (take n (drop j cm)), (drop n (drop j cm)).
  split; [done|]. by rewrite !take_drop.
Qed.

(** * More of main.go: what findImportBounds and format return *)

Section scan_result.

Implicit Types (s : Scanner) (start : Pos).

Lemma Scan_cases s :
  (pending s = [] ∧ Scan s = ((eofPos s, EOF), s)) ∨
  (∃ t rest, pending s = t :: rest ∧ Scan s = (t, mkScanner rest (eofPos s))).
Proof. unfold Scan. destruct (pending s) as [|t rest]; [by left|right; eauto]. Qed.

(** What a return of the loop can be. *)
Lemma findImportBounds_loop_result fuel s found start end_ start' e' err :
  findImportBounds_loop fuel s found start end_ = Ret (start', e', err) →
  (found = false → ∃ p, (p, IMPORT) ∈ pending s) ∧
  ((err = Some non_block_import ∧ start' = 0 ∧ e' = end_) ∨
   (err = None ∧ (e', RPAREN) ∈ pending s ∧
    (start' = start ∨ (start', LPAREN) ∈ pending s))).
Proof.
  revert s found start end_.
  induction fuel as [|fuel IH]; intros s found start end_ Hrun; [done|].
  simpl in Hrun.
  destruct (Scan_cases s) as [[Hp Hs]|(t & rest & Hp & Hs)]; rewrite Hs in Hrun.
  - destruct found; simpl in Hrun; apply IH in Hrun as [Hf Hr];
      rewrite Hp in *; by split.
  - destruct t as [pos tok]. rewrite Hp. simpl in Hrun. destruct found.
    + split; [done|].
      destruct (decide (tok = STRING)) as [->|Hns].
      * rewrite bool_decide_eq_true_2 in Hrun by done. simpl in Hrun.
        destruct (Z.eqb_spec start 0) as [->|Hne].
        -- injection Hrun as <- <- <-. by left.
        -- simpl in Hrun. apply IH in Hrun as [_ Hr]. simpl in Hr.
           destruct Hr as [?|(? & ? & [->|?])]; [by left|right..];
             (split_and!; [done|by right|]); [by left|right; by right].
      * rewrite (bool_decide_eq_false_2 (tok = STRING)) in Hrun by done. simpl in Hrun.
        destruct (decide (tok = LPAREN)) as [->|Hnl].
        -- rewrite bool_decide_eq_true_2 in Hrun by done.
           apply IH in Hrun as [_ Hr]. simpl in Hr.
           destruct Hr as [?|(? & ? & [->|?])]; [by left|right..];
             (split_and!; [done|by right|]); right; [left|by right].
        -- rewrite (bool_decide_eq_false_2 (tok = LPAREN)) in Hrun by done.
           destruct (decide (tok = RPAREN)) as [->|Hnr].
           ++ rewrite bool_decide_eq_true_2 in Hrun by done.
              injection Hrun as <- <- <-. right. split_and!; [done|left|by left].
           ++ rewrite (bool_decide_eq_false_2 (tok = RPAREN)) in Hrun by done.
              apply IH in Hrun as [_ Hr]. simpl in Hr.
              destruct Hr as [?|(? & ? & [->|?])]; [by left|right..];
                (split_and!; [done|by right|]); [by left|right; by right].
    + destruct (decide (tok = IMPORT)) as [->|Hni].
      * rewrite bool_decide_eq_true_2 in Hrun by done.
        apply IH in Hrun as [_ Hr]. simpl in Hr. split.
        -- intros _. exists pos. left.
        -- destruct Hr as [?|(? & ? & [->|?])]; [by left|right..];
             (split_and!; [done|by right|]); [by left|right; by right].
      * rewrite bool_decide_eq_false_2 in Hrun by done.
        apply IH in Hrun as [Hf Hr]. simpl in *. split.
        -- intros _. destruct (Hf eq_refl) as [p ?]. exists p. by right.
        -- destruct Hr as [?|(? & ? & [->|?])]; [by left|right..];
             (split_and!; [done|by right|]); [by left|right; by right].
Qed.

End scan_result.

(** X10.  What findImportBounds can return.  Whenever it returns, the
    tokens hold an import keyword, and either the error is
    "non-block import" with both bounds zero (it has no other error), or
    there is no error, the end is the position of a close paren of the
    tokens and the start is the position of an open paren of the tokens, or
    zero when the close paren came before any open paren. *)
Theorem findImportBounds_returns_parens_or_non_block
    (ScanTokens : File → list Byte.byte → list (Pos * Token))
    fuel f content imp start end_ err :
  findImportBounds ScanTokens fuel (Some f) content imp = Ret (start, end_, err) →
  (∃ p, (p, IMPORT) ∈ ScanTokens f content) ∧
  ((err = Some non_block_import ∧ start = 0 ∧ end_ = 0) ∨
   (err = None ∧ (end_, RPAREN) ∈ ScanTokens f content ∧
    (start = 0 ∨ (start, LPAREN) ∈ ScanTokens f content))).
Proof.
  unfold findImportBounds. destruct (bool_decide _); [done|].
  intros Hrun. apply findImportBounds_loop_result in Hrun as [Hf Hr].
  split; [by apply Hf|done].
Qed.

Lemma findImportBounds_returns_parens_or_non_block_witness :
  let content := String.list_byte_of_string "package p
import )
" in
  let scan (_ : File) (_ : list Byte.byte) :=
    [(1, PACKAGE); (9, IDENT); (10, SEMICOLON); (11, IMPORT); (18, RPAREN); (19, SEMICOLON)] in
  (∃ p, (p, IMPORT) ∈ scan (mkFile 1 19 [0; 10] []) content) ∧
  ((None = Some non_block_import ∧ 0 = 0 ∧ 18 = 0) ∨
   (None = (None : option string) ∧ (18, RPAREN) ∈ scan (mkFile 1 19 [0; 10] []) content ∧
    (0 = 0 ∨ (0, LPAREN) ∈ scan (mkFile 1 19 [0; 10] []) content))).
Proof.
  intros content scan.
  apply (findImportBounds_returns_parens_or_non_block scan 5 (mkFile 1 19 [0; 10] [])
           content [] 0 18 None).
  reflexivity.
Defined.

(** X11.  format returns bytes exactly when it returns no error: a result
    is either bytes with a nil error or nil bytes with an error, whatever
    the parser, the scanner and the printer do. *)
Theorem format_returns_bytes_or_error
    (ParseFile : FileSet → list Byte.byte → FileSet * AstFile * option string)
    (ScanTokens : File → list Byte.byte → list (Pos * Token))
    (Fprint : FileSet → AstFile → list Byte.byte * option string)
    fuel content out err w :
  format ParseFile ScanTokens Fprint fuel content = Ret ((out, err), w) →
  (∃ buf, out = Some buf ∧ err = None) ∨ (∃ e, out = None ∧ err = Some e).
Proof.
  unfold format.
  destruct (ParseFile NewFileSet content) as [[fset file] [e|]];
    [intros [= <- <- _]; right; eauto|].
  destruct (len (Imports file) <=? 1); [intros [= <- <- _]; right; eauto|].
  destruct (findImportBounds _ _ _ _ _) as [[[s e] [e'|]]| |]; simpl;
    [intros [= <- <- _]; right; eauto| |done..].
  destruct (squashBlankImportLines _ _ _ _ _) as [w'| |]; simpl; [|done..].
  destruct (Fprint _ _) as [buf [e'|]]; intros [= <- <- _]; [right|left]; eauto.
Qed.

Lemma format_returns_bytes_or_error_witness :
  let content := String.list_byte_of_string "package p
" in
  let f := mkFile 1 10 [0] [] in
  (∃ buf, (None : option (list Byte.byte)) = Some buf ∧ Some no_multiple_imports = None) ∨
  (∃ e, (None : option (list Byte.byte)) = None ∧ Some no_multiple_imports = Some e).
Proof.
  intros content f.
  apply (format_returns_bytes_or_error
           (λ _ _, ([f], mkAstFile [] [], None)) (λ _ _, []) (λ _ _, ([], None))
           0 content None (Some no_multiple_imports) (mkWorld [f] [CallParseFile])).
  reflexivity.
Defined.

(** X12.  A failure of format that is not the printer's leaves the position
    table as the parser made it: when format returns an error and the
    printer was not called, the file set is the parser's and the log holds
    no [MergeLine], only the parser and (at most) findImportBounds. *)
Theorem format_failure_leaves_table
    (ParseFile : FileSet → list Byte.byte → FileSet * AstFile * option string)
    (ScanTokens : File → list Byte.byte → list (Pos * Token))
    (Fprint : FileSet → AstFile → list Byte.byte * option string)
    fuel content out e w :
  format ParseFile ScanTokens Fprint fuel content = Ret ((out, Some e), w) →
  CallFprint ∉ w_log w →
  w_fset w = (ParseFile NewFileSet content).1.1 ∧
  (w_log w = [CallParseFile] ∨ w_log w = [CallParseFile; CallFindImportBounds]).
Proof.
  unfold format.
  destruct (ParseFile NewFileSet content) as [[fset file] [e0|]]; simpl;
    [intros [= _ _ <-] _; by split; [|left]|].
  destruct (len (Imports file) <=? 1); [intros [= _ _ <-] _; by split; [|left]|].
  destruct (findImportBounds _ _ _ _ _) as [[[s e1] [e'|]]| |]; simpl;
    [intros [= _ _ <-] _; by split; [|right]| |done..].
  destruct (squashBlankImportLines _ _ _ _ _) as [w'| |]; simpl; [|done..].
  destruct (Fprint _ _) as [buf [e'|]]; [|done].
  intros [= _ _ <-] Hno. exfalso. apply Hno. simpl.
  apply elem_of_app. right. left.
Qed.

Lemma format_failure_leaves_table_witness :
  let content := String.list_byte_of_string "package p
import `a`
import `b`
" in
  let f := mkFile 1 32 [0; 10; 21] [] in
  let file := mkAstFile [mkImportSpec 18 21; mkImportSpec 29 32] [] in
  let parse (_ : FileSet) (_ : list Byte.byte) := ([f], file, (None : option string)) in
  w_fset (mkWorld [f] [CallParseFile; CallFindImportBounds]) = (parse NewFileSet content).1.1 ∧
  (w_log (mkWorld [f] [CallParseFile; CallFindImportBounds]) = [CallParseFile] ∨
   w_log (mkWorld [f] [CallParseFile; CallFindImportBounds]) =
     [CallParseFile; CallFindImportBounds]).
Proof.
  intros content f file parse.
  apply (format_failure_leaves_table parse
           (λ _ _, [(1, PACKAGE); (9, IDENT); (10, SEMICOLON); (11, IMPORT); (18, STRING);
                    (21, SEMICOLON); (22, IMPORT); (29, STRING); (32, SEMICOLON)])
           (λ _ _, ([], None)) 10 content None non_block_import
           (mkWorld [f] [CallParseFile; CallFindImportBounds])).
  - reflexivity.
  - intros Hin. by repeat (apply elem_of_cons in Hin as [?|Hin]; [done|]);
      apply elem_of_nil in Hin.
Defined.

(** * stitchXform *)

Section stitch.

Context {Sys : Type}.

Implicit Types (fs gs : list (@xformFn Sys)) (c : byteSlice) (m : Machine Sys).

Lemma stitchXform_app fs gs c m :
  stitchXform (fs ++ gs) c m =
    match stitchXform fs c m with
    | Ret ((c', None), m') => stitchXform gs c' m'
    | r => r
    end.
Proof.
  revert c m. induction fs as [|f fs IH]; intros c m; [done|].
  simpl. destruct (f c m) as [[[out [e|]] m1]| |]; simpl; [done| |done..].
  apply IH.
Qed.

End stitch.

(** X13.  Stitching composes: the stitch of two lists of stages, one after
    the other, runs the second list on what the first list returned and in
    the machine it left, when the first list returned no error; otherwise
    the result is the first list's and no stage of the second list runs.
    The stitch of no stage returns its input. *)
Theorem stitchXform_composes {Sys} (fs gs : list (@xformFn Sys)) c m :
  stitchXform [] c m = Ret ((c, None), m) ∧
  stitchXform (fs ++ gs) c m =
    match stitchXform fs c m with
    | Ret ((c', None), m') => stitchXform gs c' m'
    | r => r
    end.
Proof. split; [done|apply stitchXform_app]. Qed.

(** X14.  When a stage fails, the stitch returns the error of that stage
    together with the bytes that stage was given (the output of the stage
    before it, or the input when it is the first), not the bytes the failing
    stage returned; the stages after it do not run. *)
Theorem stitchXform_failure_returns_stage_input {Sys}
    (fs gs : list (@xformFn Sys)) (f : @xformFn Sys) c m c1 m1 out e m2 :
  stitchXform fs c m = Ret ((c1, None), m1) →
  f c1 m1 = Ret ((out, Some e), m2) →
  stitchXform (fs ++ f :: gs) c m = Ret ((c1, Some e), m2).
Proof.
  intros Hfs Hf. rewrite stitchXform_app, Hfs. simpl. by rewrite Hf.
Qed.

Lemma stitchXform_failure_returns_stage_input_witness :
  let up : @xformFn unit := λ c m, Ret ((Some (bytesOf c ++ bytesOf c), None), m) in
  let fail : @xformFn unit := λ c m, Ret ((None, Some "no"), m) in
  stitchXform ([up] ++ fail :: [up]) (Some [Byte.x61]) (mkMachine () []) =
    Ret ((Some [Byte.x61; Byte.x61], Some "no"), mkMachine () []).
Proof.
  intros up fail.
  apply (stitchXform_failure_returns_stage_input [up] [up] fail
           (Some [Byte.x61]) (mkMachine () []) (Some [Byte.x61; Byte.x61])
           (mkMachine () []) None "no" (mkMachine () [])); reflexivity.
Defined.

(** * bytesEqual *)

Section bytes_equal.

Implicit Types (a b : list Byte.byte).

Lemma bytesEqual_loop_spec n a b (i : nat) :
  length a = length b → (i + n)%nat = length a → take i a = take i b →
  bytesEqual_loop n a b (Z.of_nat i) = Ret (bool_decide (a = b)).
Proof.
  intros Hlen. revert i. induction n as [|n IH]; intros i Hi Htake.
  - simpl. rewrite bool_decide_eq_true_2; [done|].
    rewrite <-(take_ge a i), <-(take_ge b i) by lia. done.
  - simpl.
    destruct (index_drop a (Z.of_nat i)) as (x & -> & Hx & _); [unfold len; lia|].
    destruct (index_drop b (Z.of_nat i)) as (y & -> & Hy & _); [unfold len; lia|].
    rewrite Nat2Z.id in Hx, Hy. simpl.
    destruct (decide (x = y)) as [->|Hne].
    + rewrite bool_decide_eq_false_2 by by intros ?.
      replace (Z.of_nat i + 1) with (Z.of_nat (S i)) by lia.
      apply IH; [lia|].
      by rewrite (take_S_r a i y), (take_S_r b i y), Htake.
    + rewrite bool_decide_eq_true_2 by done.
      rewrite bool_decide_eq_false_2; [done|]. intros ->. congruence.
Qed.

End bytes_equal.

(** X15.  bytesEqual decides equality of byte slices: it returns true
    exactly when the two have the same bytes, and its indexing never goes
    out of range. *)
Theorem bytesEqual_decides_equality a b :
  bytesEqual a b = Ret (bool_decide (a = b)).
Proof.
  unfold bytesEqual, len.
  destruct (decide (length a = length b)) as [Hlen|Hlen].
  - rewrite bool_decide_eq_false_2 by lia.
    by apply (bytesEqual_loop_spec (length a) a b 0).
  - rewrite bool_decide_eq_true_2 by lia.
    rewrite bool_decide_eq_false_2; [done|]. by intros ->.
Qed.

(** * The drivers *)

Section driver_facts.

Context {Sys : Type}.

Variable os_ReadFile : Sys → string → byteSlice * option string.
Variable os_WriteFile : Sys → string → list Byte.byte → Sys * option string.
Variable Cmd_Run :
  Sys → string → list string → option (list Byte.byte) → Sys * byteSlice * option string.
Variable ParseFile : FileSet → list Byte.byte → FileSet * AstFile * option string.
Variable ScanTokens : File → list Byte.byte → list (Pos * Token).
Variable Fprint : FileSet → AstFile → list Byte.byte * option string.

Implicit Types (m : Machine Sys) (c : byteSlice).

Local Abbreviation format' := (format ParseFile ScanTokens Fprint).
Local Abbreviation formatXform' := (formatXform (Sys:=Sys) ParseFile ScanTokens Fprint).
Local Abbreviation goImportsStdIO' := (goImportsStdIO Cmd_Run).

(** formatXform returns what format returns and leaves the machine. *)
Lemma formatXform_Ret fuel c m r w :
  format' fuel (bytesOf c) = Ret (r, w) → formatXform' fuel c m = Ret (r, m).
Proof. unfold formatXform. by intros ->. Qed.

Lemma formatXform_inv fuel c m r m' :
  formatXform' fuel c m = Ret (r, m') →
  m' = m ∧ ∃ w, format' fuel (bytesOf c) = Ret (r, w).
Proof.
  unfold formatXform. destruct (format' fuel (bytesOf c)) as [[r' w]| |]; [|done..].
  intros [= <- <-]. eauto.
Qed.

(** The two stages main stitches, on one content. *)
Lemma stitch_format_goimports_inv fuel local path c m r m' :
  stitchXform [formatXform' fuel; goImportsStdIO' local path] c m = Ret (r, m') →
  m' = m ∨
  ∃ buf, m_trace m' = m_trace m ++ [EvRun path ["-local"; local] (Some buf)].
Proof.
  simpl. destruct (formatXform' fuel c m) as [[[out [e|]] m1]| |] eqn:Hf; simpl; [| |done..].
  - apply formatXform_inv in Hf as [-> _]. intros [= _ <-]. by left.
  - apply formatXform_inv in Hf as [-> _].
    unfold goImportsStdIO.
    destruct (Cmd_Run (m_sys m) path ["-local"; local] (Some (bytesOf out)))
      as [[sys out'] [e|]]; simpl; intros [= _ <-]; right; by eexists.
Qed.

Lemma unlogged_app (t1 t2 : list Effect) :
  unlogged (t1 ++ t2) = unlogged t1 ++ unlogged t2.
Proof. apply filter_app. Qed.

Lemma same_but_log_refl m : same_but_log m m.
Proof. by split. Qed.

Lemma same_but_log_emit e m1 m2 :
  same_but_log m1 m2 → same_but_log (emit e m1) (emit e m2).
Proof.
  intros [Hs Ht]. split; [done|]. simpl. rewrite !unlogged_app. by rewrite Ht.
Qed.

Lemma same_but_log_logIf v1 v2 msg1 msg2 m1 m2 :
  same_but_log m1 m2 → same_but_log (logIf v1 msg1 m1) (logIf v2 msg2 m2).
Proof.
  intros [Hs Ht]. split; [by destruct v1, v2|].
  destruct v1, v2; simpl; rewrite ?unlogged_app; simpl;
    rewrite ?app_nil_r; done.
Qed.

Lemma formatXform_log_blind fuel : log_blind (formatXform' fuel).
Proof.
  intros c m1 m2 H. unfold formatXform.
  destruct (format' fuel (bytesOf c)) as [[r w]| |]; simpl; done.
Qed.

Lemma goImportsStdIO_log_blind local path : log_blind (goImportsStdIO' local path).
Proof.
  intros c m1 m2 [Hs Ht]. unfold goImportsStdIO. rewrite Hs.
  destruct (Cmd_Run (m_sys m2) path ["-local"; local] (Some (bytesOf c)))
    as [[sys out] [e|]]; simpl; (split; [done|]); (split; [done|]); simpl;
    rewrite !unlogged_app; by rewrite Ht.
Qed.

Lemma stitchXform_log_blind (fns : list (@xformFn Sys)) :
  Forall log_blind fns → log_blind (stitchXform fns).
Proof.
  induction 1 as [|fn fns Hfn _ IH]; intros c m1 m2 H; simpl; [done|].
  specialize (Hfn c m1 m2 H). unfold xres_same_but_log in Hfn.
  destruct (fn c m1) as [[[o1 e1] m1']| |], (fn c m2) as [[[o2 e2] m2']| |];
    try done; simpl.
  destruct Hfn as [[= -> ->] H']. destruct e2; simpl; [done|]. by apply IH.
Qed.

Lemma stdOutDriver_log_blind filenames xform v1 v2 m1 m2 :
  log_blind xform → same_but_log m1 m2 →
  res_same_but_log (stdOutDriver os_ReadFile filenames xform v1 m1)
                   (stdOutDriver os_ReadFile filenames xform v2 m2).
Proof.
  intros Hx. revert m1 m2.
  induction filenames as [|filename rest IH]; intros m1 m2 H; simpl; [done|].
  destruct H as [Hs Ht] eqn:HH; clear HH. rewrite Hs.
  destruct (os_ReadFile (m_sys m2) filename) as [content [e|]].
  { apply IH, same_but_log_logIf, same_but_log_emit, H. }
  pose proof (Hx content _ _ (same_but_log_emit (EvReadFile filename) _ _ H)) as Hr.
  unfold xres_same_but_log in Hr.
  destruct (xform content (emit _ m1)) as [[[o1 e1] m1']| |],
           (xform content (emit _ m2)) as [[[o2 e2] m2']| |]; try done; simpl.
  destruct Hr as [[= -> ->] H']. destruct e2 as [e|].
  - case_bool_decide.
    + by apply IH, same_but_log_logIf.
    + by apply IH, same_but_log_emit, same_but_log_logIf.
  - case_bool_decide; [by apply IH|]. by apply IH, same_but_log_emit.
Qed.

Lemma same_but_log_WriteFile filename data m1 m2 :
  same_but_log m1 m2 →
  os_WriteFile (m_sys m1) filename data = os_WriteFile (m_sys m2) filename data ∧
  ∀ sys : Sys, same_but_log (mkMachine sys (m_trace m1 ++ [EvWriteFile filename data]))
                      (mkMachine sys (m_trace m2 ++ [EvWriteFile filename data])).
Proof.
  intros [Hs Ht]. split; [by rewrite Hs|]. intros sys. split; [done|]. simpl.
  rewrite !unlogged_app. by rewrite Ht.
Qed.

Lemma writeBackDriver_loop_log_blind filenames xform v1 v2 m1 m2 :
  log_blind xform → same_but_log m1 m2 →
  res_same_but_log
    (writeBackDriver_loop os_ReadFile os_WriteFile filenames xform v1 m1)
    (writeBackDriver_loop os_ReadFile os_WriteFile filenames xform v2 m2).
Proof.
  intros Hx. revert m1 m2.
  induction filenames as [|filename rest IH]; intros m1 m2 H; simpl; [done|].
  destruct H as [Hs Ht] eqn:HH; clear HH. rewrite Hs.
  destruct (os_ReadFile (m_sys m2) filename) as [content [e|]].
  { apply IH, same_but_log_logIf, same_but_log_emit, H. }
  pose proof (Hx content _ _ (same_but_log_emit (EvReadFile filename) _ _ H)) as Hr.
  unfold xres_same_but_log in Hr.
  destruct (xform content (emit _ m1)) as [[[o1 e1] m1']| |],
           (xform content (emit _ m2)) as [[[o2 e2] m2']| |]; try done; simpl.
  destruct Hr as [[= -> ->] H'].
  assert (∀ msg1 msg2 n1 n2, same_but_log n1 n2 →
    res_same_but_log
      (let '(sys, err) := os_WriteFile (m_sys n1) filename (bytesOf o2) in
       let m := mkMachine sys (m_trace n1 ++ [EvWriteFile filename (bytesOf o2)]) in
       let m := match err with
                | Some e => logIf v1 (msg1 e) m
                | None => m
                end in
       writeBackDriver_loop os_ReadFile os_WriteFile rest xform v1 m)
      (let '(sys, err) := os_WriteFile (m_sys n2) filename (bytesOf o2) in
       let m := mkMachine sys (m_trace n2 ++ [EvWriteFile filename (bytesOf o2)]) in
       let m := match err with
                | Some e => logIf v2 (msg2 e) m
                | None => m
                end in
       writeBackDriver_loop os_ReadFile os_WriteFile rest xform v2 m)) as Hw.
  { intros msg1 msg2 n1 n2 Hn.
    destruct (same_but_log_WriteFile filename (bytesOf o2) _ _ Hn) as [-> Hm].
    destruct (os_WriteFile (m_sys n2) filename (bytesOf o2)) as [sys [e|]].
    - apply IH, same_but_log_logIf, Hm.
    - apply IH, Hm. }
  destruct e2 as [e|].
  - case_bool_decide.
    + by apply IH, same_but_log_logIf.
    + apply (Hw (λ e, "error writing file " +:+ filename +:+ ": " +:+ e)
                (λ e, "error writing file " +:+ filename +:+ ": " +:+ e)).
      by apply same_but_log_logIf.
  - case_bool_decide; [by apply IH|].
    by apply (Hw (λ e, "error writing file " +:+ filename +:+ ": " +:+ e)
                 (λ e, "error writing file " +:+ filename +:+ ": " +:+ e)).
Qed.

Lemma reads_of_app (t1 t2 : list Effect) :
  reads_of (t1 ++ t2) = reads_of t1 ++ reads_of t2.
Proof. apply omap_app. Qed.

Lemma logIf_trace verbose msg m :
  m_trace (logIf verbose msg m) = m_trace m ++ (if verbose then [EvLog msg] else []).
Proof. destruct verbose; simpl; [done|by rewrite app_nil_r]. Qed.

(** format returns bytes exactly when it returns no error. *)
Lemma format_out_cases fuel content out err w :
  format' fuel content = Ret ((out, err), w) →
  (∃ buf, out = Some buf ∧ err = None) ∨ (∃ e, out = None ∧ err = Some e).
Proof.
  unfold format.
  destruct (ParseFile NewFileSet content) as [[fset file] [e|]];
    [intros [= <- <- _]; right; eauto|].
  destruct (len (Imports file) <=? 1); [intros [= <- <- _]; right; eauto|].
  destruct (findImportBounds _ _ _ _ _) as [[[s e] [e'|]]| |]; simpl;
    [intros [= <- <- _]; right; eauto| |done..].
  destruct (squashBlankImportLines _ _ _ _ _) as [w'| |]; simpl; [|done..].
  destruct (Fprint _ _) as [buf [e'|]]; intros [= <- <- _]; [right|left]; eauto.
Qed.

(** The trace of stdOutDriver under main's transformation. *)
Lemma stdOutDriver_trace fuel local path all filenames verbose m m' :
  filenames ⊆ all →
  stdOutDriver os_ReadFile filenames
    (stitchXform [formatXform' fuel; goImportsStdIO' local path]) verbose m = Ret m' →
  ∃ evs, m_trace m' = m_trace m ++ evs ∧ reads_of evs = filenames ∧
         Forall (stdout_mode_event path local all) evs.
Proof.
  revert m. induction filenames as [|filename rest IH]; intros m Hall H.
  { injection H as <-. exists []. by rewrite app_nil_r. }
  assert (filename ∈ all) as Hin by (apply Hall; left).
  assert (rest ⊆ all) as Hrest by (intros x Hx; apply Hall; by right).
  cbn [stdOutDriver] in H.
  destruct (os_ReadFile (m_sys m) filename) as [content [e|]].
  { apply IH in H as (evs & Ht & Hr & HP); [|done].
    rewrite logIf_trace in Ht. simpl in Ht.
    exists ([EvReadFile filename]
            ++ (if verbose
                then [EvLog ("error reading file " +:+ filename +:+ ": " +:+ e)]
                else []) ++ evs).
    split; [by rewrite Ht, <-!app_assoc|]. split.
    - rewrite !reads_of_app. destruct verbose; simpl; by rewrite Hr.
    - apply Forall_app; split; [by repeat constructor|].
      apply Forall_app; split; [destruct verbose; by repeat constructor|done]. }
  destruct (stitchXform _ content (emit (EvReadFile filename) m))
    as [[[out err] m1]| |] eqn:Hx; [|done..].
  rewrite res_bind_Ret in H.
  assert (∃ mid, m_trace m1 = m_trace m ++ [EvReadFile filename] ++ mid ∧
                 reads_of mid = [] ∧ Forall (stdout_mode_event path local all) mid)
    as (mid & Hmid & Hrm & HPm).
  { apply stitch_format_goimports_inv in Hx as [->|[buf ->]].
    - exists []. by rewrite app_nil_r.
    - eexists [_]. simpl. rewrite <-app_assoc. split; [done|]. split; [done|].
      repeat constructor. by eexists. }
  assert (∃ mrec tail, stdOutDriver os_ReadFile rest
             (stitchXform [formatXform' fuel; goImportsStdIO' local path]) verbose mrec
             = Ret m' ∧
           m_trace mrec = m_trace m1 ++ tail ∧ reads_of tail = [] ∧
           Forall (stdout_mode_event path local all) tail)
    as (mrec & tail & Hrec & Htail & Hrt & HPt).
  { destruct err as [e|]; case_bool_decide; eexists _, _; (split; [exact H|]);
      cbn [emit m_trace]; rewrite ?logIf_trace, <-?app_assoc;
      (split; [first [reflexivity|symmetry; apply app_nil_r]|]);
      destruct verbose; by repeat constructor. }
  apply IH in Hrec as (evs & Ht & Hr & HP); [|done].
  exists ([EvReadFile filename] ++ mid ++ tail ++ evs).
  split; [by rewrite Ht, Htail, Hmid, <-!app_assoc|]. split.
  - rewrite !reads_of_app, Hrm, Hrt. simpl. by rewrite Hr.
  - apply Forall_app; split; [by repeat constructor|].
    by repeat (apply Forall_app; split).
Qed.

(** The trace of the loop of writeBackDriver under format. *)
Lemma writeBackDriver_loop_trace fuel all filenames verbose m m' :
  filenames ⊆ all →
  writeBackDriver_loop os_ReadFile os_WriteFile filenames (formatXform' fuel) verbose m
    = Ret m' →
  ∃ evs, m_trace m' = m_trace m ++ evs ∧ reads_of evs = filenames ∧
    Forall (write_mode_event
              (λ data, ∃ content w, format' fuel content = Ret ((Some data, None), w))
              all) evs.
Proof.
  revert m. induction filenames as [|filename rest IH]; intros m Hall H.
  { injection H as <-. exists []. by rewrite app_nil_r. }
  assert (filename ∈ all) as Hin by (apply Hall; left).
  assert (rest ⊆ all) as Hrest by (intros x Hx; apply Hall; by right).
  cbn [writeBackDriver_loop] in H.
  destruct (os_ReadFile (m_sys m) filename) as [content [e|]].
  { apply IH in H as (evs & Ht & Hr & HP); [|done].
    rewrite logIf_trace in Ht. simpl in Ht.
    exists ([EvReadFile filename]
            ++ (if verbose
                then [EvLog ("error reading file " +:+ filename +:+ ": " +:+ e)]
                else []) ++ evs).
    split; [by rewrite Ht, <-!app_assoc|]. split.
    - rewrite !reads_of_app. destruct verbose; simpl; by rewrite Hr.
    - apply Forall_app; split; [by repeat constructor|].
      apply Forall_app; split; [destruct verbose; by repeat constructor|done]. }
  destruct (formatXform' fuel content (emit (EvReadFile filename) m))
    as [[[out err] m1]| |] eqn:Hx; [|done..].
  rewrite res_bind_Ret in H.
  apply formatXform_inv in Hx as [-> [w Hf]].
  destruct (format_out_cases _ _ _ _ _ Hf) as [(buf & -> & ->)|(e & -> & ->)].
  - rewrite bool_decide_eq_false_2 in H by (by intros [[? [=]] _]).
    change (bytesOf (Some buf)) with buf in H. cbn [emit m_sys m_trace] in H.
    destruct (os_WriteFile (m_sys m) filename buf) as [sys [e|]];
      apply IH in H as (evs & Ht & Hr & HP); try done;
      rewrite ?logIf_trace in Ht; cbn [m_trace] in Ht.
    + exists ([EvReadFile filename; EvWriteFile filename buf]
              ++ (if verbose
                  then [EvLog ("error writing file " +:+ filename +:+ ": " +:+ e)]
                  else []) ++ evs).
      split; [by rewrite Ht, <-!app_assoc|]. split.
      * rewrite !reads_of_app. destruct verbose; simpl; by rewrite Hr.
      * apply Forall_app; split; [repeat constructor; eauto|].
        apply Forall_app; split; [destruct verbose; by repeat constructor|done].
    + exists ([EvReadFile filename; EvWriteFile filename buf] ++ evs).
      split; [by rewrite Ht, <-!app_assoc|]. split.
      * rewrite !reads_of_app. simpl. by rewrite Hr.
      * apply Forall_app; split; [repeat constructor; eauto|done].
  - rewrite bool_decide_eq_true_2 in H by (by split; [eexists|]).
    apply IH in H as (evs & Ht & Hr & HP); [|done].
    rewrite logIf_trace in Ht. simpl in Ht.
    exists ([EvReadFile filename]
            ++ (if verbose
                then [EvLog ("error processing file " +:+ filename +:+ ": " +:+ e)]
                else []) ++ evs).
    split; [by rewrite Ht, <-!app_assoc|]. split.
    + rewrite !reads_of_app. destruct verbose; simpl; by rewrite Hr.
    + apply Forall_app; split; [by repeat constructor|].
      apply Forall_app; split; [destruct verbose; by repeat constructor|done].
Qed.

(** The drivers fail only where the transformation does. *)
Lemma stdOutDriver_returns filenames (xform : @xformFn Sys) verbose m :
  (∀ content n, ∃ r n', xform content n = Ret (r, n')) →
  ∃ m', stdOutDriver os_ReadFile filenames xform verbose m = Ret m'.
Proof.
  intros Hx. revert m. induction filenames as [|filename rest IH]; intros m; simpl.
  { by eexists. }
  destruct (os_ReadFile (m_sys m) filename) as [content [e|]]; [apply IH|].
  destruct (Hx content (emit (EvReadFile filename) m)) as ([out err] & n' & ->).
  rewrite res_bind_Ret. case_bool_decide; apply IH.
Qed.

Lemma writeBackDriver_loop_returns filenames (xform : @xformFn Sys) verbose m :
  (∀ content n, ∃ r n', xform content n = Ret (r, n')) →
  ∃ m', writeBackDriver_loop os_ReadFile os_WriteFile filenames xform verbose m = Ret m'.
Proof.
  intros Hx. revert m. induction filenames as [|filename rest IH]; intros m; simpl.
  { by eexists. }
  destruct (os_ReadFile (m_sys m) filename) as [content [e|]]; [apply IH|].
  destruct (Hx content (emit (EvReadFile filename) m)) as ([out err] & n' & ->).
  rewrite res_bind_Ret. case_bool_decide; [apply IH|].
  destruct (os_WriteFile _ _ _) as [sys [e|]]; apply IH.
Qed.

(** X16.  Without [-w], a file that format rejects is printed as it was
    read, and goimports is not run on it: the step of main on that file
    adds to the trace the read, the log line under [-v] and the print of
    the bytes read, and goes on with the other files. *)
Theorem stdout_prints_input_when_format_fails
    fuel local verbose path filename rest m data out e w :
  os_ReadFile (m_sys m) filename = (Some data, None) →
  format ParseFile ScanTokens Fprint fuel data = Ret ((out, Some e), w) →
  main os_ReadFile os_WriteFile Cmd_Run ParseFile ScanTokens Fprint
      fuel local verbose false path (filename :: rest) m =
  main os_ReadFile os_WriteFile Cmd_Run ParseFile ScanTokens Fprint
      fuel local verbose false path rest
    (emit (EvStdout data)
       (logIf verbose ("error processing file " +:+ filename +:+ ": " +:+ e)
          (emit (EvReadFile filename) m))).
Proof.
  intros Hread Hf. unfold main. cbn [stdOutDriver]. rewrite Hread.
  cbn [stitchXform].
  rewrite (formatXform_Ret fuel (Some data) _ _ _ Hf), !res_bind_Ret.
  rewrite bool_decide_eq_false_2 by (by intros [_ [=]]). done.
Qed.

(** X17.  Without [-w], when format succeeds and goimports fails, what is
    printed is format's output, not the file as read: the step of main on
    that file adds the read, the run of goimports on format's output, the
    log line under [-v] (the error is wrapped as "goimports: ...") and the
    print of format's output. *)
Theorem stdout_prints_format_output_when_goimports_fails
    fuel local verbose path filename rest m content buf w sys out e :
  os_ReadFile (m_sys m) filename = (content, None) →
  format ParseFile ScanTokens Fprint fuel (bytesOf content) = Ret ((Some buf, None), w) →
  Cmd_Run (m_sys m) path ["-local"; local] (Some buf) = (sys, out, Some e) →
  main os_ReadFile os_WriteFile Cmd_Run ParseFile ScanTokens Fprint
      fuel local verbose false path (filename :: rest) m =
  main os_ReadFile os_WriteFile Cmd_Run ParseFile ScanTokens Fprint
      fuel local verbose false path rest
    (emit (EvStdout buf)
       (logIf verbose
          ("error processing file " +:+ filename +:+ ": " +:+ ("goimports: " +:+ e))
          (mkMachine sys
             (m_trace m ++ [EvReadFile filename]
                ++ [EvRun path ["-local"; local] (Some buf)])))).
Proof.
  intros Hread Hf Hrun. unfold main. cbn [stdOutDriver]. rewrite Hread.
  cbn [stitchXform].
  rewrite (formatXform_Ret fuel content _ _ _ Hf), !res_bind_Ret.
  unfold goImportsStdIO. change (bytesOf (Some buf)) with buf.
  cbn [emit m_sys m_trace]. rewrite Hrun, !res_bind_Ret.
  rewrite bool_decide_eq_false_2 by (by intros [_ [=]]).
  by rewrite <-app_assoc.
Qed.

(** X18.  Without [-w], main changes no file.  When it returns, what it
    added to the trace reads each file named once, in the order of the
    command line, and holds beside the reads only runs of goimports with
    [-local local] on standard input, prints and log lines: no
    [os.WriteFile], no [os.Create]. *)
Theorem stdout_mode_trace fuel local verbose path filenames m m' :
  main os_ReadFile os_WriteFile Cmd_Run ParseFile ScanTokens Fprint
      fuel local verbose false path filenames m = Ret m' →
  ∃ evs, m_trace m' = m_trace m ++ evs ∧ reads_of evs = filenames ∧
         Forall (stdout_mode_event path local filenames) evs.
Proof. unfold main. by apply stdOutDriver_trace. Qed.

(** X19.  With [-w], when main returns, the trace it added is: the loop's
    events, then one run of goimports with [-local local -w] and all the
    file names (also those that failed), then log lines.  The loop reads
    each file named once, in order, and writes to a file only bytes that
    format returned without error; it runs no command and prints
    nothing. *)
Theorem write_mode_trace fuel local verbose path filenames m m' :
  main os_ReadFile os_WriteFile Cmd_Run ParseFile ScanTokens Fprint
      fuel local verbose true path filenames m = Ret m' →
  ∃ evs logs,
    m_trace m' =
      m_trace m ++ evs
        ++ [EvRun path (["-local"; local; "-w"] ++ filenames) None] ++ logs ∧
    reads_of evs = filenames ∧
    Forall (write_mode_event
              (λ data, ∃ content w, format ParseFile ScanTokens Fprint fuel content = Ret ((Some data, None), w))
              filenames) evs ∧
    Forall is_log logs.
Proof.
  unfold main, writeBackDriver.
  destruct (writeBackDriver_loop _ _ _ _ _ _) as [m1| |] eqn:Hloop; [|done..].
  rewrite res_bind_Ret.
  apply writeBackDriver_loop_trace with (all := filenames) in Hloop
    as (evs & Ht & Hr & HP); [|done].
  unfold goImportsWriteBack.
  destruct (Cmd_Run _ _ _ _) as [[sys out] [e|]]; intros [= <-]; exists evs.
  - exists (if verbose then [EvLog ("goimports error: " +:+ ("goimports: " +:+ e))]
            else []).
    rewrite logIf_trace. cbn [m_trace]. rewrite Ht, <-!app_assoc.
    split; [done|]. split; [done|]. split; [done|].
    destruct verbose; by repeat constructor.
  - exists []. cbn [m_trace]. rewrite Ht, <-!app_assoc. by repeat split.
Qed.

(** X20.  [-v] changes nothing but the log: with all other flags and the
    machine the same, two runs of main that differ in [-v] both return or
    both fail the same way, and when they return the machines are in the
    same state and the traces are the same once the log lines are taken
    out. *)
Theorem verbose_changes_only_the_log fuel local v1 v2 writeBack path filenames m :
  res_same_but_log
    (main os_ReadFile os_WriteFile Cmd_Run ParseFile ScanTokens Fprint
       fuel local v1 writeBack path filenames m)
    (main os_ReadFile os_WriteFile Cmd_Run ParseFile ScanTokens Fprint
       fuel local v2 writeBack path filenames m).
Proof.
  unfold main. destruct writeBack.
  - unfold writeBackDriver.
    pose proof (writeBackDriver_loop_log_blind filenames _ v1 v2 m m
                  (formatXform_log_blind fuel) (same_but_log_refl m)) as H.
    destruct (writeBackDriver_loop _ _ _ _ v1 _) as [m1| |],
             (writeBackDriver_loop _ _ _ _ v2 _) as [m2| |]; try done.
    rewrite !res_bind_Ret. destruct H as [Hs Ht].
    unfold goImportsWriteBack. rewrite Hs.
    destruct (Cmd_Run _ _ _ _) as [[sys out] [e|]]; simpl.
    + apply same_but_log_logIf. split; [done|]. simpl.
      rewrite !unlogged_app. by rewrite Ht.
    + split; [done|]. simpl. rewrite !unlogged_app. by rewrite Ht.
  - apply stdOutDriver_log_blind; [|apply same_but_log_refl].
    apply stitchXform_log_blind.
    repeat constructor; [apply formatXform_log_blind|apply goImportsStdIO_log_blind].
Qed.

(** X21.  The drivers add no failure of their own: when format returns on
    every content, main returns, in both modes, whatever reading, writing
    and goimports do. *)
Theorem main_returns_when_format_returns
    fuel local verbose writeBack path filenames m :
  (∀ content, ∃ r w, format ParseFile ScanTokens Fprint fuel content = Ret (r, w)) →
  ∃ m', main os_ReadFile os_WriteFile Cmd_Run ParseFile ScanTokens Fprint
      fuel local verbose writeBack path filenames m = Ret m'.
Proof.
  intros Hf.
  assert (∀ content n, ∃ r n', formatXform' fuel content n = Ret (r, n')) as Hx.
  { intros content n. destruct (Hf (bytesOf content)) as (r & w & H).
    exists r, n. by apply formatXform_Ret with w. }
  unfold main. destruct writeBack.
  - unfold writeBackDriver.
    destruct (writeBackDriver_loop_returns filenames _ verbose m Hx) as [m1 ->].
    rewrite res_bind_Ret.
    destruct (goImportsWriteBack _ _ _ _ _) as [[e|] m2]; by eexists.
  - apply stdOutDriver_returns. intros content n. cbn [stitchXform].
    destruct (Hx content n) as ([out [e|]] & n' & ->); rewrite res_bind_Ret.
    + by eexists _, _.
    + unfold goImportsStdIO.
      destruct (Cmd_Run _ _ _ _) as [[sys out'] [e|]]; simpl; by eexists _, _.
Qed.

End driver_facts.

Example demo_format_a :
  format demo_ParseFile demo_ScanTokens demo_Fprint 20 demo_a =
    Ret ((Some demo_a_squashed, None),
         mkWorld [mkFile 1 32 [0; 10; 19; 25; 30] []]
           [CallParseFile; CallFindImportBounds; CallMergeLine 0 3; CallFprint]).
Proof. reflexivity. Qed.

Lemma demo_format_returns content :
  ∃ r w, format demo_ParseFile demo_ScanTokens demo_Fprint 20 content = Ret (r, w).
Proof.
  destruct (decide (content = demo_a)) as [->|Hne].
  - rewrite demo_format_a. by eexists _, _.
  - unfold format, demo_ParseFile. rewrite decide_False by done.
    by eexists _, _.
Qed.

Lemma stdout_prints_input_when_format_fails_witness :
  demo_main 20 "example.com" true false "goimports" ["b.go"; "a.go"] demo_machine =
  demo_main 20 "example.com" true false "goimports" ["a.go"]
    (emit (EvStdout demo_b)
       (logIf true ("error processing file " +:+ "b.go" +:+ ": " +:+ no_multiple_imports)
          (emit (EvReadFile "b.go") demo_machine))).
Proof.
  apply (stdout_prints_input_when_format_fails demo_ReadFile demo_WriteFile demo_Run
           demo_ParseFile demo_ScanTokens demo_Fprint 20 "example.com" true "goimports"
           "b.go" ["a.go"] demo_machine demo_b None no_multiple_imports
           (mkWorld [mkFile 1 10 [0] []] [CallParseFile])).
  - reflexivity.
  - reflexivity.
Defined.

Lemma stdout_prints_format_output_when_goimports_fails_witness :
  let e := "exec: " +:+ "goimports" +:+ ": executable file not found in $PATH" in
  demo_main 20 "example.com" true false "goimports" ["a.go"; "b.go"] demo_machine =
  demo_main 20 "example.com" true false "goimports" ["b.go"]
    (emit (EvStdout demo_a_squashed)
       (logIf true
          ("error processing file " +:+ "a.go" +:+ ": " +:+ ("goimports: " +:+ e))
          (mkMachine demo_files
             ([] ++ [EvReadFile "a.go"]
                ++ [EvRun "goimports" ["-local"; "example.com"] (Some demo_a_squashed)])))).
Proof.
  intros e.
  apply (stdout_prints_format_output_when_goimports_fails demo_ReadFile demo_WriteFile
           demo_Run demo_ParseFile demo_ScanTokens demo_Fprint 20 "example.com" true
           "goimports" "a.go" ["b.go"] demo_machine (Some demo_a) demo_a_squashed
           (mkWorld [mkFile 1 32 [0; 10; 19; 25; 30] []]
              [CallParseFile; CallFindImportBounds; CallMergeLine 0 3; CallFprint])
           demo_files None e).
  - reflexivity.
  - reflexivity.
  - reflexivity.
Defined.

Lemma stdout_mode_trace_witness :
  ∃ m', demo_main 20 "example.com" true false "goimports" ["a.go"; "b.go"; "c.go"]
          demo_machine = Ret m' ∧
    ∃ evs, m_trace m' = m_trace demo_machine ++ evs ∧
           reads_of evs = ["a.go"; "b.go"; "c.go"] ∧
           Forall (stdout_mode_event "goimports" "example.com" ["a.go"; "b.go"; "c.go"])
                  evs.
Proof.
  eexists. split; [vm_compute; reflexivity|].
  apply (stdout_mode_trace demo_ReadFile demo_WriteFile demo_Run demo_ParseFile
           demo_ScanTokens demo_Fprint 20 "example.com" true "goimports"
           ["a.go"; "b.go"; "c.go"] demo_machine).
  vm_compute. reflexivity.
Defined.

Lemma write_mode_trace_witness :
  ∃ m', demo_main 20 "example.com" true true "goimports" ["a.go"; "b.go"; "c.go"]
          demo_machine = Ret m' ∧
    ∃ evs logs,
      m_trace m' =
        m_trace demo_machine ++ evs
          ++ [EvRun "goimports" (["-local"; "example.com"; "-w"] ++ ["a.go"; "b.go"; "c.go"])
                None] ++ logs ∧
      reads_of evs = ["a.go"; "b.go"; "c.go"] ∧
      Forall (write_mode_event
                (λ data, ∃ content w,
                   format demo_ParseFile demo_ScanTokens demo_Fprint 20 content =
                     Ret ((Some data, None), w))
                ["a.go"; "b.go"; "c.go"]) evs ∧
      Forall is_log logs.
Proof.
  eexists. split; [vm_compute; reflexivity|].
  apply (write_mode_trace demo_ReadFile demo_WriteFile demo_Run demo_ParseFile
           demo_ScanTokens demo_Fprint 20 "example.com" true "goimports"
           ["a.go"; "b.go"; "c.go"] demo_machine).
  vm_compute. reflexivity.
Defined.

Lemma main_returns_when_format_returns_witness :
  ∃ m', demo_main 20 "example.com" true true "goimports" ["a.go"; "b.go"; "c.go"]
          demo_machine = Ret m'.
Proof.
  apply (main_returns_when_format_returns demo_ReadFile demo_WriteFile demo_Run
           demo_ParseFile demo_ScanTokens demo_Fprint 20 "example.com" true true
           "goimports" ["a.go"; "b.go"; "c.go"] demo_machine).
  exact demo_format_returns.
Defined.
